(** * The discrete weighted transform kernel of [seal/util/fft.h]

    A shallow embedding of [seal::util::DWTHandler] and the statements of its
    specification.

    - [size_t] is a 64-bit unsigned integer: a [Z] reduced by [wrap] after
      every addition and shift.
    - [int] expressions ([log_n - 1], [log_n - log_m - 1], [log_n - log_m])
      are computed in [Z]: for an [int] argument [log_n] they are the [int]s
      of the source unless [log_n = INT_MIN], where [log_n - 1] overflows and
      the call is undefined at that subtraction, before any shift. A
      statement that names the undefined operation of a run takes [log_n]
      above [INT_MIN].
    - [values], [roots] and [scalar] are the three objects the pointers of a
      call designate; they live in a [memory] together with the handler
      ([this]) and the local cursor [root_index].
    - Undefined behaviour (a shift whose count is outside [0, 64), an access
      outside an array) ends a run with [Undefined]; so does an assertion
      that fails, in the transform that carries assertions. *)

From Stdlib Require Import ZArith Lia Ring Zmod.
From stdpp Require Import base tactics option list list_numbers.

Local Open Scope Z_scope.

(** ** The arithmetic strategy and the handler *)

(** [template <ValueType, RootType, ScalarType> class Arithmetic]: six pure
    member functions. *)
Record Arithmetic (V R S : Type) : Type := {
  add : V -> V -> V;
  sub : V -> V -> V;
  mul_root : V -> R -> V;
  mul_scalar : V -> S -> V;
  mul_root_scalar : R -> S -> R;
  guard : V -> V
}.
Arguments add {V R S}.
Arguments sub {V R S}.
Arguments mul_root {V R S}.
Arguments mul_scalar {V R S}.
Arguments mul_root_scalar {V R S}.
Arguments guard {V R S}.

(** [class DWTHandler]: its only data member is [arithmetic_]. *)
Record DWTHandler (V R S : Type) : Type := {
  arithmetic_ : Arithmetic V R S
}.
Arguments arithmetic_ {V R S}.

(** ** Machine integers *)

Definition size_bits : Z := 64.
Definition wrap (x : Z) : Z := x mod 2 ^ size_bits.

(** The declaration whose initialiser a shift belongs to. *)
Inductive shift_site : Set := Init_m | Init_gap | Init_offset.

Inductive undefined : Set :=
| ShiftCount (site : shift_site) (count : Z)
| RootsOutOfBounds (k : Z)
| ValuesOutOfBounds (j : Z)
| CursorAssertion (m i k : Z).

(** An access to the [values] buffer. *)
Inductive access : Set := Get (j : Z) | Put (j : Z).

Section Machine.
Context {V R S : Type}.

(** What [x << k] yields when [k] is outside [0, size_bits): [None] when
    the run stops there, [Some g] when the target's shifter returns [g]. *)
Variable bad_shift : Z -> Z -> option Z.

Record memory : Type := Memory {
  values : list V;
  roots : list R;
  scalar : option S;
  this : DWTHandler V R S;
  root_index : Z;
  roots_read : list Z;
  touched : list access
}.

Inductive outcome (A : Type) : Type :=
| Done (a : A) (st : memory)
| Undefined (u : undefined) (st : memory).
Arguments Done {A}.
Arguments Undefined {A}.

Definition M (A : Type) : Type := memory -> outcome A.

Definition ret {A} (a : A) : M A := fun st => Done a st.

Definition bind {A B} (m : M A) (f : A -> M B) : M B :=
  fun st => match m st with
            | Done a st' => f a st'
            | Undefined u st' => Undefined u st'
            end.

Definition undefined_behaviour {A} (u : undefined) : M A :=
  fun st => Undefined u st.

Notation "x <- m ;; k" := (bind m (fun x => k))
  (at level 100, m at level 99, k at level 200, right associativity).
Notation "m ;;; k" := (bind m (fun _ => k))
  (at level 100, k at level 200, right associativity).

(** [x << k] on [size_t]. *)
Definition shl (site : shift_site) (x k : Z) : M Z :=
  if (0 <=? k) && (k <? size_bits) then ret (wrap (x * 2 ^ k))
  else match bad_shift x k with
       | Some g => ret (wrap g)
       | None => undefined_behaviour (ShiftCount site k)
       end.

(** [this->arithmetic_] *)
Definition arithmetic : M (Arithmetic V R S) :=
  fun st => Done (arithmetic_ (this st)) st.

(** The [scalar] pointer: [None] is [nullptr], [Some s] points to [s]. *)
Definition scalar_arg : M (option S) := fun st => Done (scalar st) st.

Definition set_root_index (k : Z) : M unit :=
  fun st => Done tt (Memory (values st) (roots st) (scalar st) (this st)
                            k (roots_read st) (touched st)).

Definition get_root_index : M Z := fun st => Done (root_index st) st.

(** [roots[k]] *)
Definition load_root (k : Z) : M R :=
  fun st =>
    let st' := Memory (values st) (roots st) (scalar st) (this st)
                      (root_index st) (roots_read st ++ [k]) (touched st) in
    match roots st !! Z.to_nat k with
    | Some r => Done r st'
    | None => Undefined (RootsOutOfBounds k) st'
    end.

(** [roots[root_index++]] *)
Definition next_root : M R :=
  k <- get_root_index ;;
  set_root_index (wrap (k + 1)) ;;;
  load_root k.

(** [roots[root_index]] *)
Definition current_root : M R :=
  k <- get_root_index ;;
  load_root k.

(** [values[j]] read *)
Definition load_value (j : Z) : M V :=
  fun st =>
    let st' := Memory (values st) (roots st) (scalar st) (this st)
                      (root_index st) (roots_read st) (touched st ++ [Get j]) in
    match values st !! Z.to_nat j with
    | Some x => Done x st'
    | None => Undefined (ValuesOutOfBounds j) st'
    end.

(** [values[j] = x] *)
Definition store_value (j : Z) (x : V) : M unit :=
  fun st =>
    let tl := touched st ++ [Put j] in
    match values st !! Z.to_nat j with
    | Some _ => Done tt (Memory (<[Z.to_nat j := x]> (values st)) (roots st)
                                (scalar st) (this st) (root_index st)
                                (roots_read st) tl)
    | None => Undefined (ValuesOutOfBounds j)
                        (Memory (values st) (roots st) (scalar st) (this st)
                                (root_index st) (roots_read st) tl)
    end.

(** A [for] loop whose counter takes the values of [ks] in turn. *)
Fixpoint for_each (ks : list Z) (body : Z -> M unit) : M unit :=
  match ks with
  | [] => ret tt
  | k :: ks' => body k ;;; for_each ks' body
  end.

(** [for (c = lo; c < hi; c++)] *)
Definition for_range (lo hi : Z) (body : Z -> M unit) : M unit :=
  for_each (seqZ lo (hi - lo)) body.

(** [for (c = hi; c > lo; c--)] *)
Definition for_down (hi lo : Z) (body : Z -> M unit) : M unit :=
  for_each (reverse (seqZ (lo + 1) (hi - lo))) body.

(** ** The butterflies *)

(** Lines 106-109 and 143-146. *)
Definition butterfly_to_rev (r : R) (gap j : Z) : M unit :=
  a <- arithmetic ;;
  x <- load_value j ;;
  let u := guard a x in
  y <- load_value (wrap (j + gap)) ;;
  let v := mul_root a y r in
  store_value j (add a u v) ;;;
  store_value (wrap (j + gap)) (sub a u v).

(** Lines 125-128. *)
Definition butterfly_to_rev_scaled (s : S) (scaled_r : R) (gap j : Z) : M unit :=
  a <- arithmetic ;;
  x <- load_value j ;;
  let u := mul_scalar a (guard a x) s in
  y <- load_value (wrap (j + gap)) ;;
  let v := mul_root a y scaled_r in
  store_value j (add a u v) ;;;
  store_value (wrap (j + gap)) (sub a u v).

(** Lines 174-177 and 211-214. *)
Definition butterfly_from_rev (r : R) (gap j : Z) : M unit :=
  a <- arithmetic ;;
  u <- load_value j ;;
  v <- load_value (wrap (j + gap)) ;;
  store_value j (guard a (add a u v)) ;;;
  store_value (wrap (j + gap)) (mul_root a (sub a u v) r).

(** Lines 193-196. *)
Definition butterfly_from_rev_scaled (s : S) (scaled_r : R) (gap j : Z) : M unit :=
  a <- arithmetic ;;
  x <- load_value j ;;
  let u := guard a x in
  v <- load_value (wrap (j + gap)) ;;
  store_value j (mul_scalar a (guard a (add a u v)) s) ;;;
  store_value (wrap (j + gap)) (mul_root a (sub a u v) scaled_r).

(** [RootType scaled_r = arithmetic_.mul_root_scalar(r, *scalar)] after the
    root has been fetched. *)
Definition scaled (fetch : M R) (s : S) : M R :=
  r <- fetch ;;
  a <- arithmetic ;;
  ret (mul_root_scalar a r s).

(** The loop nest every stage shares (lines 98-111, 116-130, 135-148,
    166-179, 184-198, 203-216): [m] and [gap] are set, then each group
    fetches its root, sets [offset] and runs the butterfly over
    [offset <= j < offset + gap]. *)
Definition stage_group (log_n log_m gap : Z) (fetch : M R)
    (butterfly : R -> Z -> Z -> M unit) (i : Z) : M unit :=
  r <- fetch ;;
  offset <- shl Init_offset i (log_n - log_m) ;;
  for_range offset (wrap (offset + gap)) (butterfly r gap).

Definition stage (log_n log_m : Z) (fetch : M R)
    (butterfly : R -> Z -> Z -> M unit) : M unit :=
  m <- shl Init_m 1 log_m ;;
  gap <- shl Init_gap 1 (log_n - log_m - 1) ;;
  for_range 0 m (stage_group log_n log_m gap fetch butterfly).

(** ** The two transforms *)

Definition transform_to_rev (log_n : Z) : M unit :=
  set_root_index 1 ;;;
  for_range 0 (log_n - 1) (fun log_m =>
    stage log_n log_m next_root butterfly_to_rev) ;;;
  sc <- scalar_arg ;;
  match sc with
  | Some s =>
      let log_m := log_n - 1 in
      stage log_n log_m (scaled next_root s) (butterfly_to_rev_scaled s)
  | None =>
      let log_m := log_n - 1 in
      stage log_n log_m next_root butterfly_to_rev
  end.

Definition transform_from_rev (log_n : Z) : M unit :=
  set_root_index 1 ;;;
  for_down (log_n - 1) 0 (fun log_m =>
    stage log_n log_m next_root butterfly_from_rev) ;;;
  sc <- scalar_arg ;;
  match sc with
  | Some s =>
      let log_m := 0 in
      stage log_n log_m (scaled current_root s) (butterfly_from_rev_scaled s)
  | None =>
      let log_m := 0 in
      stage log_n log_m current_root butterfly_from_rev
  end.

(** ** The forward transform with its comments as assertions *)

(** [assert(root_index == m + i)]: what the comments of lines 102, 120 and
    139 say of the cursor. *)
Definition assert_cursor (m i : Z) : M unit :=
  k <- get_root_index ;;
  if k =? wrap (m + i) then ret tt
  else undefined_behaviour (CursorAssertion m i k).

Definition stage_asserting (log_n log_m : Z) (fetch : M R)
    (butterfly : R -> Z -> Z -> M unit) : M unit :=
  m <- shl Init_m 1 log_m ;;
  gap <- shl Init_gap 1 (log_n - log_m - 1) ;;
  for_range 0 m (fun i =>
    assert_cursor m i ;;;
    stage_group log_n log_m gap fetch butterfly i).

Definition transform_to_rev_asserting (log_n : Z) : M unit :=
  set_root_index 1 ;;;
  for_range 0 (log_n - 1) (fun log_m =>
    stage_asserting log_n log_m next_root butterfly_to_rev) ;;;
  sc <- scalar_arg ;;
  match sc with
  | Some s =>
      let log_m := log_n - 1 in
      stage_asserting log_n log_m (scaled next_root s) (butterfly_to_rev_scaled s)
  | None =>
      let log_m := log_n - 1 in
      stage_asserting log_n log_m next_root butterfly_to_rev
  end.

(** The memory a call starts from. *)
Definition call_memory (h : DWTHandler V R S) (vs : list V) (rs : list R)
    (sc : option S) : memory :=
  Memory vs rs sc h 0 [] [].

(** [h.transform_to_rev(values, log_n, roots, scalar)] *)
Definition call_to_rev (h : DWTHandler V R S) (vs : list V) (log_n : Z)
    (rs : list R) (sc : option S) : outcome unit :=
  transform_to_rev log_n (call_memory h vs rs sc).

Definition call_to_rev_asserting (h : DWTHandler V R S) (vs : list V)
    (log_n : Z) (rs : list R) (sc : option S) : outcome unit :=
  transform_to_rev_asserting log_n (call_memory h vs rs sc).

(** [h.transform_from_rev(values, log_n, roots, scalar)] *)
Definition call_from_rev (h : DWTHandler V R S) (vs : list V) (log_n : Z)
    (rs : list R) (sc : option S) : outcome unit :=
  transform_from_rev log_n (call_memory h vs rs sc).

(** The memory a run ends in, whether it completes or stops. *)
Definition final {A} (o : outcome A) : memory :=
  match o with Done _ st => st | Undefined _ st => st end.

(** The buffer after a call that completes. *)
Definition result {A} (o : outcome A) : option (list V) :=
  match o with Done _ st => Some (values st) | Undefined _ _ => None end.

End Machine.

Arguments memory : clear implicits.
Arguments outcome : clear implicits.
Arguments M : clear implicits.
Arguments Done {V R S A}.
Arguments Undefined {V R S A}.

(** The abstract machine: a shift with a bad count stops the run. *)
Definition strict : Z -> Z -> option Z := fun _ _ => None.

(** A 64-bit shifter that uses the low six bits of the count. *)
Definition masking : Z -> Z -> option Z :=
  fun x k => Some (x * 2 ^ (k mod size_bits)).

(** ** The algorithm as a function on lists *)

Section Algorithm.
Context {V R S : Type}.
Variable a : Arithmetic V R S.

(** The four butterflies as functions from the pair
    [(values[j], values[j + gap])] to the pair written back. *)
Definition forward_pair (r : R) (x y : V) : V * V :=
  let u := guard a x in
  let v := mul_root a y r in
  (add a u v, sub a u v).

Definition forward_pair_scaled (s : S) (r : R) (x y : V) : V * V :=
  let scaled_r := mul_root_scalar a r s in
  let u := mul_scalar a (guard a x) s in
  let v := mul_root a y scaled_r in
  (add a u v, sub a u v).

Definition inverse_pair (r : R) (u v : V) : V * V :=
  (guard a (add a u v), mul_root a (sub a u v) r).

Definition inverse_pair_scaled (s : S) (r : R) (x v : V) : V * V :=
  let scaled_r := mul_root_scalar a r s in
  let u := guard a x in
  (mul_scalar a (guard a (add a u v)) s, mul_root a (sub a u v) scaled_r).

(** One butterfly on the buffer: positions [j] and [j + gap]. *)
Definition update_pair (op : V -> V -> V * V) (gap : Z) (vs : list V) (j : Z)
    : list V :=
  match vs !! Z.to_nat j, vs !! Z.to_nat (j + gap) with
  | Some x, Some y =>
      <[Z.to_nat (j + gap) := (op x y).2]> (<[Z.to_nat j := (op x y).1]> vs)
  | _, _ => vs
  end.

(** Group [i] of stage [log_m]: [offset = i << (log_n - log_m)],
    [gap = 1 << (log_n - log_m - 1)], every [j] in [offset, offset + gap). *)
Definition group (op : V -> V -> V * V) (log_n log_m i : Z) (vs : list V)
    : list V :=
  let offset := Z.shiftl i (log_n - log_m) in
  let gap := Z.shiftl 1 (log_n - log_m - 1) in
  foldl (update_pair op gap) vs (seqZ offset gap).

(** A stage whose group [i] uses the root at index [base + stride * i]. *)
Definition stage_at (op : R -> V -> V -> V * V) (rs : list R)
    (base stride log_n log_m : Z) (vs : list V) : list V :=
  foldl (fun vs i =>
           match rs !! Z.to_nat (base + stride * i) with
           | Some r => group (op r) log_n log_m i vs
           | None => vs
           end)
        vs (seqZ 0 (Z.shiftl 1 log_m)).

(** The accesses of one butterfly, one group, one stage. *)
Definition pair_accesses (gap j : Z) : list access :=
  [Get j; Get (j + gap); Put j; Put (j + gap)].

Definition group_accesses (log_n log_m i : Z) : list access :=
  let offset := Z.shiftl i (log_n - log_m) in
  let gap := Z.shiftl 1 (log_n - log_m - 1) in
  flat_map (pair_accesses gap) (seqZ offset gap).

Definition stage_accesses (log_n log_m : Z) : list access :=
  flat_map (group_accesses log_n log_m) (seqZ 0 (Z.shiftl 1 log_m)).

(** The last stage of each transform, with or without a scalar. *)
Definition last_forward (sc : option S) : R -> V -> V -> V * V :=
  match sc with
  | Some s => forward_pair_scaled s
  | None => forward_pair
  end.

Definition last_inverse (sc : option S) : R -> V -> V -> V * V :=
  match sc with
  | Some s => inverse_pair_scaled s
  | None => inverse_pair
  end.

(** The forward transform with the root of group [i] of stage [log_m]
    taken at index [2 ^ log_m + i]. *)
Definition forward_at (rs : list R) (sc : option S) (log_n : Z)
    (vs : list V) : list V :=
  stage_at (last_forward sc) rs (2 ^ (log_n - 1)) 1 log_n (log_n - 1)
    (foldl (fun vs log_m => stage_at forward_pair rs (2 ^ log_m) 1 log_n log_m vs)
           vs (seqZ 0 (log_n - 1))).

(** The inverse transform with the root of group [i] of stage [log_m]
    taken at index [2 ^ log_n - 2 ^ (log_m + 1) + 1 + i]. *)
Definition inverse_at (rs : list R) (sc : option S) (log_n : Z)
    (vs : list V) : list V :=
  stage_at (last_inverse sc) rs (2 ^ log_n - 1) 0 log_n 0
    (foldl (fun vs log_m =>
              stage_at inverse_pair rs (2 ^ log_n - 2 ^ (log_m + 1) + 1) 1
                       log_n log_m vs)
           vs (reverse (seqZ 1 (log_n - 1)))).

End Algorithm.

(** The root indices a call reads, stage by stage and group by group. *)
Definition forward_reads (log_n : Z) : list Z :=
  flat_map (fun log_m => (fun i => 2 ^ log_m + i) <$> seqZ 0 (2 ^ log_m))
           (seqZ 0 log_n).

Definition inverse_reads (log_n : Z) : list Z :=
  flat_map (fun log_m =>
              (fun i => 2 ^ log_n - 2 ^ (log_m + 1) + 1 + i) <$> seqZ 0 (2 ^ log_m))
           (reverse (seqZ 0 log_n)).

(** The buffer accesses of a call. *)
Definition forward_accesses (log_n : Z) : list access :=
  flat_map (stage_accesses log_n) (seqZ 0 log_n).

Definition inverse_accesses (log_n : Z) : list access :=
  flat_map (stage_accesses log_n) (reverse (seqZ 0 log_n)).

(** An access inside the first [n] elements. *)
Definition within (n : Z) (e : access) : Prop :=
  match e with Get j => 0 <= j < n | Put j => 0 <= j < n end.

(** ** The algorithms as the specification words them *)

Module Spec.
Section Spec.
Context {V R S : Type}.
Variable a : Arithmetic V R S.

(** [u = guard(values[j])], [v = mul_root(values[j+gap], r)],
    [values[j] = add(u,v)], [values[j+gap] = sub(u,v)]. *)
Definition forward_butterfly (r : R) (gap : Z) (vs : list V) (j : Z) : list V :=
  match vs !! Z.to_nat j, vs !! Z.to_nat (j + gap) with
  | Some vj, Some vjgap =>
      let u := guard a vj in
      let v := mul_root a vjgap r in
      <[Z.to_nat (j + gap) := sub a u v]> (<[Z.to_nat j := add a u v]> vs)
  | _, _ => vs
  end.

(** [u = values[j]], [v = values[j+gap]], [values[j] = guard(add(u,v))],
    [values[j+gap] = mul_root(sub(u,v), r)]. *)
Definition inverse_butterfly (r : R) (gap : Z) (vs : list V) (j : Z) : list V :=
  match vs !! Z.to_nat j, vs !! Z.to_nat (j + gap) with
  | Some u, Some v =>
      <[Z.to_nat (j + gap) := mul_root a (sub a u v) r]>
        (<[Z.to_nat j := guard a (add a u v)]> vs)
  | _, _ => vs
  end.

(** One stage: each of the [m = 2 ^ log_m] groups reads the next root at
    the cursor, sets [offset = i << (log_n - log_m)] and
    [gap = 1 << (log_n - log_m - 1)], and runs the butterfly for every [j]
    in [offset, offset + gap). The state is the buffer and the cursor. *)
Definition stage (butterfly : R -> Z -> list V -> Z -> list V) (rs : list R)
    (log_n log_m : Z) (st : list V * Z) : list V * Z :=
  foldl (fun '(vs, cursor) i =>
           match rs !! Z.to_nat cursor with
           | Some r =>
               let offset := Z.shiftl i (log_n - log_m) in
               let gap := Z.shiftl 1 (log_n - log_m - 1) in
               (foldl (butterfly r gap) vs (seqZ offset gap), cursor + 1)
           | None => (vs, cursor + 1)
           end)
        st (seqZ 0 (2 ^ log_m)).

(** Stages [log_m = 0, ..., log_n - 1], the cursor starting at 1. *)
Definition to_rev (rs : list R) (log_n : Z) (vs : list V) : list V :=
  (foldl (fun st log_m => stage forward_butterfly rs log_n log_m st)
         (vs, 1) (seqZ 0 log_n)).1.

(** Stages [log_m = log_n - 1, ..., 1] with the same cursor, then the
    butterfly once across the two halves: [gap = n / 2]. *)
Definition from_rev (rs : list R) (log_n : Z) (vs : list V) : list V :=
  let '(vs', cursor) :=
    foldl (fun st log_m => stage inverse_butterfly rs log_n log_m st)
          (vs, 1) (reverse (seqZ 1 (log_n - 1))) in
  let n := 2 ^ log_n in
  let gap := n / 2 in
  match rs !! Z.to_nat cursor with
  | Some r => foldl (inverse_butterfly r gap) vs' (seqZ 0 gap)
  | None => vs'
  end.

(** The butterfly of the last stage of the forward transform when a scalar
    [s] is given, [scaled_r] being the root of the group with the scalar
    combined into it: [u = mul_scalar(guard(values[j]), s)],
    [v = mul_root(values[j+gap], scaled_r)], [values[j] = add(u,v)],
    [values[j+gap] = sub(u,v)]. *)
Definition fused_butterfly (s : S) (scaled_r : R) (gap : Z) (vs : list V)
    (j : Z) : list V :=
  match vs !! Z.to_nat j, vs !! Z.to_nat (j + gap) with
  | Some vj, Some vjgap =>
      let u := mul_scalar a (guard a vj) s in
      let v := mul_root a vjgap scaled_r in
      <[Z.to_nat (j + gap) := sub a u v]> (<[Z.to_nat j := add a u v]> vs)
  | _, _ => vs
  end.

(** The roots of the last stage, [roots[n/2], ..., roots[n-1]], with the
    scalar combined into each: one [mul_root_scalar] for each of the [n / 2]
    groups. *)
Definition combined_roots (rs : list R) (s : S) (log_n : Z) : list R :=
  let m := 2 ^ (log_n - 1) in
  (fun r => mul_root_scalar a r s) <$> take (Z.to_nat m) (drop (Z.to_nat m) rs).

(** The forward transform with a scalar: stages [log_m = 0, ..., log_n - 2]
    as without one; then the last stage, whose group [i] runs the fused
    butterfly with the [i]-th combined root. No pass over the buffer
    follows. *)
Definition to_rev_fused (rs : list R) (s : S) (log_n : Z) (vs : list V)
    : list V :=
  let vs' :=
    (foldl (fun st log_m => stage forward_butterfly rs log_n log_m st)
           (vs, 1) (seqZ 0 (log_n - 1))).1 in
  (stage (fused_butterfly s) (combined_roots rs s log_n) log_n (log_n - 1)
         (vs', 0)).1.

End Spec.
End Spec.

(** ** Properties of runs *)

Section RunProperties.
Context {V R S : Type}.
Variable h : DWTHandler V R S.
Variable rs : list R.
Variable sc : option S.

Local Abbreviation St vs ri rr tl := (Memory vs rs sc h ri rr tl).
Local Abbreviation M := (M V R S).
Local Abbreviation memory := (memory V R S).

(** A fetch that reads [roots[root_index]], hands [f] of it to the
    butterfly and moves the cursor by [stride]. *)
Definition fetches (fetch : M R) (stride : Z) (f : R -> R) : Prop :=
  forall vs ri rr tl r,
    0 <= ri < 2 ^ size_bits - 1 ->
    rs !! Z.to_nat ri = Some r ->
    fetch (St vs ri rr tl) = Done (f r) (St vs (ri + stride) (rr ++ [ri]) tl).

(** A butterfly that rewrites the pair [(values[j], values[j + gap])] by
    [op r] and touches the buffer in the order of [pair_accesses]. *)
Definition implements (butterfly : R -> Z -> Z -> M unit)
    (op : R -> V -> V -> V * V) : Prop :=
  forall r gap j vs ri rr tl,
    0 <= j -> 0 <= gap -> j + gap < 2 ^ size_bits ->
    (Z.to_nat (j + gap) < length vs)%nat ->
    butterfly r gap j (St vs ri rr tl)
    = Done tt (St (update_pair (op r) gap vs j) ri rr
                  (tl ++ pair_accesses gap j)).

(** A stage whose shifts are in range and whose groups find their elements
    and their roots. *)
Definition stage_fits (stride log_n log_m : Z) (vs : list V) (ri : Z) : Prop :=
  0 <= log_m < log_n /\ log_n < size_bits /\
  2 ^ log_n <= Z.of_nat (length vs) /\
  0 <= ri /\ 0 <= stride <= 1 /\
  ri + 2 ^ log_m < 2 ^ size_bits /\
  forall i, 0 <= i < 2 ^ log_m -> is_Some (rs !! Z.to_nat (ri + stride * i)).

(** The memory after the first [k] groups of a stage that starts in
    [St vs ri rr tl]. *)
Definition after_groups (op : R -> V -> V -> V * V) (stride log_n log_m : Z)
    (vs : list V) (ri : Z) (rr : list Z) (tl : list access) (k : Z) : memory :=
  St (foldl (fun vs i =>
               match rs !! Z.to_nat (ri + stride * i) with
               | Some r => group (op r) log_n log_m i vs
               | None => vs
               end)
            vs (seqZ 0 k))
     (ri + stride * k)
     (rr ++ ((fun i => ri + stride * i) <$> seqZ 0 k))
     (tl ++ flat_map (group_accesses log_n log_m) (seqZ 0 k)).

(** The memory after the first [t] stages of [transform_to_rev]. *)
Definition after_forward_stages (log_n : Z) (vs : list V) (t : Z) : memory :=
  St (foldl (fun vs log_m =>
               stage_at (forward_pair (arithmetic_ h)) rs (2 ^ log_m) 1 log_n log_m vs)
            vs (seqZ 0 t))
     (2 ^ t) (forward_reads t) (flat_map (stage_accesses log_n) (seqZ 0 t)).

(** The root table, the scalar, the handler and the size of the buffer. *)
Definition same_frame (st0 st : memory) : Prop :=
  roots st = roots st0 /\ scalar st = scalar st0 /\ this st = this st0 /\
  length (values st) = length (values st0).

Definition keeps {A} (m : M A) : Prop := forall st, same_frame st (final (m st)).

End RunProperties.

Section Statements.
Context {V R S : Type}.
Variable bad_shift : Z -> Z -> option Z.
Variable h : DWTHandler V R S.

(** The root table is read at [1, ..., n - 1], once each, by both calls. *)
Definition consumes_table (vs : list V) (log_n : Z) (rs : list R)
    (sc : option S) : Prop :=
  (exists st, call_to_rev bad_shift h vs log_n rs sc = Done tt st /\
              roots_read st = seqZ 1 (2 ^ log_n - 1)) /\
  (exists st, call_from_rev bad_shift h vs log_n rs sc = Done tt st /\
              roots_read st = seqZ 1 (2 ^ log_n - 1)).

(** A run that stops with the undefined behaviour [u]. *)
Definition stops_with {A} (o : outcome V R S A) (u : undefined) : Prop :=
  match o with
  | Undefined u' _ => u' = u
  | Done _ _ => False
  end.

End Statements.

(** The inverse transform, with the scalar [s], applied to what the forward
    transform leaves, gives the buffer back. *)
Definition round_trips {V R S : Type} (bad_shift : Z -> Z -> option Z)
    (h : DWTHandler V R S) (vs : list V) (log_n : Z) (fwd inv : list R)
    (s : S) : Prop :=
  exists u,
    result (call_to_rev bad_shift h vs log_n fwd None) = Some u /\
    result (call_from_rev bad_shift h u log_n inv (Some s)) = Some vs.

(** ** Laws a strategy may obey *)

Section Laws.
Context {V R S : Type}.
Variable a : Arithmetic V R S.
Variable s : S.

(** [mul_root(x, mul_root_scalar(r, s)) = mul_scalar(mul_root(x, r), s)] *)
Definition fusion_law : Prop :=
  forall x r, mul_root a x (mul_root_scalar a r s)
              = mul_scalar a (mul_root a x r) s.

(** [mul_scalar] distributes over [add] and over [sub]. *)
Definition scalar_distributes : Prop :=
  (forall x y, mul_scalar a (add a x y) s
               = add a (mul_scalar a x s) (mul_scalar a y s)) /\
  (forall x y, mul_scalar a (sub a x y) s
               = sub a (mul_scalar a x s) (mul_scalar a y s)).

Definition guard_is_identity : Prop := forall x, guard a x = x.

(** A separate pass that multiplies every element by [s]. *)
Definition scale_all (u : list V) : list V :=
  (fun x => mul_scalar a x s) <$> u.

End Laws.

(** ** A strategy over a commutative ring *)

Section RingStrategy.
Variable T : Type.
Variables (rI : T) (radd rmul rsub : T -> T -> T).

(** Modelled from the spec: the integer-modular strategy is not in
    [fft.h]. Values, roots and the scalar are elements of one commutative
    ring, the six operations are the ring's, computed exactly, and [guard]
    returns its argument. *)
Definition ring_arithmetic : Arithmetic T T T :=
  {| add := radd; sub := rsub; mul_root := rmul; mul_scalar := rmul;
     mul_root_scalar := rmul; guard := fun x => x |}.

Definition ring_handler : DWTHandler T T T := {| arithmetic_ := ring_arithmetic |}.

(** [2 ^ k] in the ring. *)
Fixpoint two_pow (k : nat) : T :=
  match k with
  | O => rI
  | Datatypes.S k' => rmul (radd rI rI) (two_pow k')
  end.

(** Modelled from the spec: the root tables are computed outside [fft.h].
    A forward and an inverse table belong together when the root a group
    of a stage reads in the inverse transform is the inverse of the root
    the same group of the same stage reads in the forward transform. *)
Definition inverse_tables (log_n : Z) (fwd inv : list T) : Prop :=
  forall log_m i, 0 <= log_m < log_n -> 0 <= i < 2 ^ log_m ->
    exists r r',
      fwd !! Z.to_nat (2 ^ log_m + i) = Some r /\
      inv !! Z.to_nat (2 ^ log_n - 2 ^ (log_m + 1) + 1 + i) = Some r' /\
      rmul r r' = rI.

End RingStrategy.

(** ** Strategies and handlers used in examples *)

(** Integers with exact operations; [guard] does nothing. *)
Definition exact_arithmetic : Arithmetic Z Z Z :=
  {| add := Z.add; sub := Z.sub; mul_root := Z.mul; mul_scalar := Z.mul;
     mul_root_scalar := Z.mul; guard := fun x => x |}.

(** Integers whose only reduction modulo [q] is the one [guard] makes. *)
Definition lazy_arithmetic (q : Z) : Arithmetic Z Z Z :=
  {| add := Z.add; sub := Z.sub; mul_root := Z.mul; mul_scalar := Z.mul;
     mul_root_scalar := Z.mul; guard := fun x => x mod q |}.

(** Fixed-point numbers with denominator [d]: a product is rounded down to
    a multiple of [1 / d]; [guard] does nothing. *)
Definition fixed_point_arithmetic (d : Z) : Arithmetic Z Z Z :=
  {| add := Z.add; sub := Z.sub;
     mul_root := fun x r => x * r / d;
     mul_scalar := fun x s => x * s / d;
     mul_root_scalar := fun r s => r * s / d;
     guard := fun x => x |}.

Definition exact_handler : DWTHandler Z Z Z := {| arithmetic_ := exact_arithmetic |}.
Definition lazy_handler (q : Z) : DWTHandler Z Z Z :=
  {| arithmetic_ := lazy_arithmetic q |}.
Definition fixed_point_handler (d : Z) : DWTHandler Z Z Z :=
  {| arithmetic_ := fixed_point_arithmetic d |}.

(** The integers modulo 17, with the tables of [psi = 2], a primitive eighth
    root of unity: [psi ^ 2, psi, psi ^ 3] and [psi ^ -1, psi ^ -3, psi ^ -2];
    [13 = 1 / 4]. *)
Definition handler_mod17 : DWTHandler (Zmod 17) (Zmod 17) (Zmod 17) :=
  ring_handler (Zmod 17) Zmod.add Zmod.mul Zmod.sub.

Definition mod17 (zs : list Z) : list (Zmod 17) := Zmod.of_Z 17 <$> zs.

(** The value at [x] of the polynomial with the coefficients [cs], lowest
    degree first. *)
Definition eval17 (cs : list (Zmod 17)) (x : Zmod 17) : Zmod 17 :=
  foldr (fun c acc => Zmod.add c (Zmod.mul x acc)) Zmod.zero cs.

(** ** Polynomials over a ring *)
Section RingPolynomials.
Variable T : Type.
Variables (rO rI : T) (radd rmul : T -> T -> T) (ropp : T -> T).

(** The value at [x] of the polynomial with the coefficients [cs], lowest
    degree first. *)
Definition horner (cs : list T) (x : T) : T :=
  foldr (fun c acc => radd c (rmul x acc)) rO cs.

(** [x ^ k] in the ring. *)
Fixpoint power (x : T) (k : nat) : T :=
  match k with
  | O => rI
  | Datatypes.S k' => rmul x (power x k')
  end.

(** A root table that is a tree of square roots: the entries at [2 * k] and
    [2 * k + 1] are square roots of the entry at [k] and of its opposite. *)
Definition square_root_tree (log_n : Z) (rs : list T) : Prop :=
  forall k, 1 <= k < 2 ^ (log_n - 1) ->
    exists r r0 r1,
      rs !! Z.to_nat k = Some r /\
      rs !! Z.to_nat (2 * k) = Some r0 /\
      rs !! Z.to_nat (2 * k + 1) = Some r1 /\
      rmul r0 r0 = r /\ rmul r1 r1 = ropp r.

End RingPolynomials.

(** ** Strategies compared *)

Section Related.
Context {V1 R1 S1 V2 R2 S2 : Type}.
Variable PV : V1 -> V2 -> Prop.
Variable PR : R1 -> R2 -> Prop.
Variable PS : S1 -> S2 -> Prop.

(** Two strategies whose six member functions take related arguments to
    related results. *)
Definition related_strategies (a1 : Arithmetic V1 R1 S1)
    (a2 : Arithmetic V2 R2 S2) : Prop :=
  (forall x1 x2 y1 y2, PV x1 x2 -> PV y1 y2 -> PV (add a1 x1 y1) (add a2 x2 y2)) /\
  (forall x1 x2 y1 y2, PV x1 x2 -> PV y1 y2 -> PV (sub a1 x1 y1) (sub a2 x2 y2)) /\
  (forall x1 x2 r1 r2, PV x1 x2 -> PR r1 r2 ->
     PV (mul_root a1 x1 r1) (mul_root a2 x2 r2)) /\
  (forall x1 x2 s1 s2, PV x1 x2 -> PS s1 s2 ->
     PV (mul_scalar a1 x1 s1) (mul_scalar a2 x2 s2)) /\
  (forall r1 r2 s1 s2, PR r1 r2 -> PS s1 s2 ->
     PR (mul_root_scalar a1 r1 s1) (mul_root_scalar a2 r2 s2)) /\
  (forall x1 x2, PV x1 x2 -> PV (guard a1 x1) (guard a2 x2)).

(** Two root tables with related entries at the indices [1, ..., n - 1]. *)
Definition related_tables (n : Z) (rs1 : list R1) (rs2 : list R2) : Prop :=
  forall k, 1 <= k < n ->
    exists r1 r2, rs1 !! Z.to_nat k = Some r1 /\ rs2 !! Z.to_nat k = Some r2 /\
                  PR r1 r2.

(** Two butterflies that take related pairs to related pairs. *)
Definition related_pairs (op1 : V1 -> V1 -> V1 * V1) (op2 : V2 -> V2 -> V2 * V2)
    : Prop :=
  forall x1 x2 y1 y2, PV x1 x2 -> PV y1 y2 ->
    PV (op1 x1 y1).1 (op2 x2 y2).1 /\ PV (op1 x1 y1).2 (op2 x2 y2).2.

End Related.

Section Morphisms.
Context {V1 R1 S1 V2 R2 S2 : Type}.

(** Three maps that commute with the six member functions. *)
Definition strategy_morphism (f : V1 -> V2) (g : R1 -> R2) (k : S1 -> S2)
    (a1 : Arithmetic V1 R1 S1) (a2 : Arithmetic V2 R2 S2) : Prop :=
  (forall x y, f (add a1 x y) = add a2 (f x) (f y)) /\
  (forall x y, f (sub a1 x y) = sub a2 (f x) (f y)) /\
  (forall x r, f (mul_root a1 x r) = mul_root a2 (f x) (g r)) /\
  (forall x s, f (mul_scalar a1 x s) = mul_scalar a2 (f x) (k s)) /\
  (forall r s, g (mul_root_scalar a1 r s) = mul_root_scalar a2 (g r) (k s)) /\
  (forall x, f (guard a1 x) = guard a2 (f x)).

End Morphisms.

Section StrategyLaws.
Context {V R S : Type}.
Variable a : Arithmetic V R S.

(** The strategy with [guard] taken out. *)
Definition unguarded : Arithmetic V R S :=
  {| add := add a; sub := sub a; mul_root := mul_root a;
     mul_scalar := mul_scalar a; mul_root_scalar := mul_root_scalar a;
     guard := fun x => x |}.

(** A reflexive relation on values that [add], [sub], [mul_root] and
    [mul_scalar] respect and in which [guard] stays: [guard x] is related to
    what [x] is related to. *)
Definition guard_respects (E : V -> V -> Prop) : Prop :=
  (forall x, E x x) /\
  (forall x x' y y', E x x' -> E y y' -> E (add a x y) (add a x' y')) /\
  (forall x x' y y', E x x' -> E y y' -> E (sub a x y) (sub a x' y')) /\
  (forall x x' r, E x x' -> E (mul_root a x r) (mul_root a x' r)) /\
  (forall x x' s, E x x' -> E (mul_scalar a x s) (mul_scalar a x' s)) /\
  (forall x x', E x x' -> E (guard a x) x').

(** A binary operation on values that the member functions distribute
    over. *)
Definition additive (plus : V -> V -> V) : Prop :=
  (forall x x' y y', add a (plus x x') (plus y y')
                     = plus (add a x y) (add a x' y')) /\
  (forall x x' y y', sub a (plus x x') (plus y y')
                     = plus (sub a x y) (sub a x' y')) /\
  (forall x x' r, mul_root a (plus x x') r
                  = plus (mul_root a x r) (mul_root a x' r)) /\
  (forall x x' s, mul_scalar a (plus x x') s
                  = plus (mul_scalar a x s) (mul_scalar a x' s)) /\
  (forall x x', guard a (plus x x') = plus (guard a x) (guard a x')).

(** Two buffers transformed side by side: the strategy on pairs of values,
    with one root and one scalar for both components. *)
Definition pair_arithmetic : Arithmetic (V * V) R S :=
  {| add := fun p q => (add a p.1 q.1, add a p.2 q.2);
     sub := fun p q => (sub a p.1 q.1, sub a p.2 q.2);
     mul_root := fun p r => (mul_root a p.1 r, mul_root a p.2 r);
     mul_scalar := fun p s => (mul_scalar a p.1 s, mul_scalar a p.2 s);
     mul_root_scalar := mul_root_scalar a;
     guard := fun p => (guard a p.1, guard a p.2) |}.

End StrategyLaws.

(** ** Counting accesses *)

#[global] Instance access_eq_dec : EqDecision access.
Proof. solve_decision. Defined.

(** How many times a list of accesses holds the access [e]. *)
Definition occurrences (e : access) (l : list access) : Z :=
  Z.of_nat (length (filter (fun e' => e' = e) l)).

(** ** The inverse transform with assertions on its cursor *)

Section MachineFromRevAsserting.
Context {V R S : Type}.
Variable bad_shift : Z -> Z -> option Z.

Local Notation "x <- m ;; k" := (bind m (fun x => k))
  (at level 100, m at level 99, k at level 200, right associativity).
Local Notation "m ;;; k" := (bind m (fun _ => k))
  (at level 100, k at level 200, right associativity).

(** A stage with [assert(root_index == base + i)] before the read of
    group [i]. *)
Definition stage_asserting_at (base log_n log_m : Z) (fetch : M V R S R)
    (butterfly : R -> Z -> Z -> M V R S unit) : M V R S unit :=
  m <- shl bad_shift Init_m 1 log_m ;;
  gap <- shl bad_shift Init_gap 1 (log_n - log_m - 1) ;;
  for_range 0 m (fun i =>
    assert_cursor base i ;;;
    stage_group bad_shift log_n log_m gap fetch butterfly i).

(** [transform_from_rev] with [assert(root_index == n - 2 * m + 1 + i)]
    before the reads of lines 170, 188 and 207; in the last stage, where
    [m = 1] and [i = 0], this is the [n - 1] of the comments of lines 188
    and 207. *)
Definition transform_from_rev_asserting (log_n : Z) : M V R S unit :=
  set_root_index 1 ;;;
  for_down (log_n - 1) 0 (fun log_m =>
    stage_asserting_at (2 ^ log_n - 2 * 2 ^ log_m + 1) log_n log_m
                       next_root butterfly_from_rev) ;;;
  sc <- scalar_arg ;;
  match sc with
  | Some s =>
      let log_m := 0 in
      stage_asserting_at (2 ^ log_n - 2 * 2 ^ log_m + 1) log_n log_m
                         (scaled current_root s) (butterfly_from_rev_scaled s)
  | None =>
      let log_m := 0 in
      stage_asserting_at (2 ^ log_n - 2 * 2 ^ log_m + 1) log_n log_m
                         current_root butterfly_from_rev
  end.

Definition call_from_rev_asserting (h : DWTHandler V R S) (vs : list V)
    (log_n : Z) (rs : list R) (sc : option S) : outcome V R S unit :=
  transform_from_rev_asserting log_n (call_memory h vs rs sc).

End MachineFromRevAsserting.

(** ** The range of [int] *)

(** [log_n] is an [int], of 32 bits: a call passes a value in
    [int_min, int_max], and [log_n - 1] is an [int] when [log_n] is above
    [int_min]. *)
Definition int_bits : Z := 32.

Definition int_min : Z := - 2 ^ (int_bits - 1).

Definition int_max : Z := 2 ^ (int_bits - 1) - 1.

(** ** Runs that may stop *)

Section Ensures.
Context {V R S : Type}.

(** [m], run from a memory in [P], completes in a memory in [Q] or stops,
    with an undefined behaviour and in a memory that are in [E]. *)
Definition ensures {A} (P : memory V R S -> Prop) (m : M V R S A)
    (Q : A -> memory V R S -> Prop) (E : undefined -> memory V R S -> Prop)
    : Prop :=
  forall st, P st ->
    match m st with
    | Done x st' => Q x st'
    | Undefined u st' => E u st'
    end.

End Ensures.

(** * Proofs *)

(** ** Lengths *)

Section Lengths.
Context {V R S : Type}.
Variable a : Arithmetic V R S.

Lemma length_update_pair op gap (vs : list V) j :
  length (update_pair op gap vs j) = length vs.
Proof.
  unfold update_pair.
  destruct (vs !! Z.to_nat j); [|done].
  destruct (vs !! Z.to_nat (j + gap)); [|done].
  by rewrite !length_insert.
Qed.

Lemma length_foldl_update_pair op gap js (vs : list V) :
  length (foldl (update_pair op gap) vs js) = length vs.
Proof.
  revert vs. induction js as [|j js IH]; intros vs; simpl; [done|].
  by rewrite IH, length_update_pair.
Qed.

Lemma length_group op log_n log_m i (vs : list V) :
  length (group op log_n log_m i vs) = length vs.
Proof. apply length_foldl_update_pair. Qed.

Lemma length_stage_at op (rs : list R) base stride log_n log_m (vs : list V) :
  length (stage_at op rs base stride log_n log_m vs) = length vs.
Proof.
  unfold stage_at. generalize (seqZ 0 (Z.shiftl 1 log_m)). intros ks.
  revert vs. induction ks as [|k ks IH]; intros vs; simpl; [done|].
  rewrite IH. destruct (rs !! _); [apply length_group|done].
Qed.

Lemma length_forward_at rs sc log_n (vs : list V) :
  length (forward_at a rs sc log_n vs) = length vs.
Proof.
  unfold forward_at. rewrite length_stage_at.
  generalize (seqZ 0 (log_n - 1)). intros ks.
  revert vs. induction ks as [|k ks IH]; intros vs; simpl; [done|].
  by rewrite IH, length_stage_at.
Qed.

Lemma length_inverse_at rs sc log_n (vs : list V) :
  length (inverse_at a rs sc log_n vs) = length vs.
Proof.
  unfold inverse_at. rewrite length_stage_at.
  generalize (reverse (seqZ 1 (log_n - 1))). intros ks.
  revert vs. induction ks as [|k ks IH]; intros vs; simpl; [done|].
  by rewrite IH, length_stage_at.
Qed.

End Lengths.

(** ** Runs of the primitives *)

Lemma wrap_small x : 0 <= x < 2 ^ size_bits -> wrap x = x.
Proof. intros Hx. unfold wrap. by apply Z.mod_small. Qed.

Lemma pow2_lt_size k : 0 <= k < size_bits -> 0 < 2 ^ k < 2 ^ size_bits.
Proof.
  intros Hk. split; [apply Z.pow_pos_nonneg; lia|].
  apply Z.pow_lt_mono_r; lia.
Qed.

Section Runs.
Context {V R S : Type}.
Variable bad_shift : Z -> Z -> option Z.
Variable h : DWTHandler V R S.
Variable rs : list R.
Variable sc : option S.

Local Abbreviation St vs ri rr tl := (Memory vs rs sc h ri rr tl).
Local Abbreviation a := (arithmetic_ h).
Local Abbreviation M := (M V R S).

Lemma bind_done {A B} (m : M A) (f : A -> M B) st x st' :
  m st = Done x st' -> bind m f st = f x st'.
Proof. intros Hm. unfold bind. by rewrite Hm. Qed.

Lemma run_shl site x k (st : memory V R S) :
  0 <= k < size_bits ->
  shl bad_shift site x k st = Done (wrap (x * 2 ^ k)) st.
Proof.
  intros Hk. unfold shl.
  replace ((0 <=? k) && (k <? size_bits)) with true; [done|].
  symmetry. apply andb_true_iff. split; [apply Z.leb_le|apply Z.ltb_lt]; lia.
Qed.

Lemma run_load_value vs ri rr tl j x :
  vs !! Z.to_nat j = Some x ->
  load_value j (St vs ri rr tl) = Done x (St vs ri rr (tl ++ [Get j])).
Proof. intros Hx. unfold load_value. simpl. by rewrite Hx. Qed.

Lemma run_store_value vs ri rr tl j x :
  (Z.to_nat j < length vs)%nat ->
  store_value j x (St vs ri rr tl)
  = Done tt (St (<[Z.to_nat j := x]> vs) ri rr (tl ++ [Put j])).
Proof.
  intros Hj. unfold store_value. simpl.
  destruct (lookup_lt_is_Some_2 vs (Z.to_nat j) Hj) as [y Hy]. by rewrite Hy.
Qed.

Lemma run_next_root vs ri rr tl r :
  0 <= ri < 2 ^ size_bits - 1 ->
  rs !! Z.to_nat ri = Some r ->
  next_root (St vs ri rr tl) = Done r (St vs (ri + 1) (rr ++ [ri]) tl).
Proof.
  intros Hri Hr. unfold next_root, bind, get_root_index, set_root_index,
    load_root. simpl. rewrite Hr. by rewrite wrap_small by lia.
Qed.

Lemma run_current_root vs ri rr tl r :
  rs !! Z.to_nat ri = Some r ->
  current_root (St vs ri rr tl) = Done r (St vs ri (rr ++ [ri]) tl).
Proof.
  intros Hr. unfold current_root, bind, get_root_index, load_root. simpl.
  by rewrite Hr.
Qed.

Lemma fetches_next_root : fetches h rs sc next_root 1 (fun r => r).
Proof. intros vs ri rr tl r Hri Hr. by apply run_next_root. Qed.

Lemma fetches_current_root : fetches h rs sc current_root 0 (fun r => r).
Proof.
  intros vs ri rr tl r Hri Hr. rewrite Z.add_0_r. by apply run_current_root.
Qed.

Lemma fetches_scaled fetch stride s :
  fetches h rs sc fetch stride (fun r => r) ->
  fetches h rs sc (scaled fetch s) stride (fun r => mul_root_scalar a r s).
Proof.
  intros Hf vs ri rr tl r Hri Hr. unfold scaled.
  rewrite (bind_done _ _ _ _ _ (Hf vs ri rr tl r Hri Hr)). done.
Qed.

Ltac run_butterfly :=
  intros r gap j vs ri rr tl Hj Hgap Hlt Hlen;
  assert (Hj' : (Z.to_nat j < length vs)%nat) by lia;
  destruct (lookup_lt_is_Some_2 vs _ Hj') as [x Hx];
  destruct (lookup_lt_is_Some_2 vs _ Hlen) as [y Hy];
  unfold update_pair; rewrite Hx, Hy;
  unfold bind, arithmetic; simpl;
  rewrite (run_load_value _ _ _ _ _ _ Hx);
  rewrite wrap_small by lia;
  rewrite (run_load_value _ _ _ _ _ _ Hy);
  rewrite run_store_value by done;
  rewrite run_store_value by (by rewrite length_insert);
  unfold pair_accesses; by rewrite <- !app_assoc.

Lemma implements_to_rev : implements h rs sc butterfly_to_rev (forward_pair a).
Proof. unfold butterfly_to_rev. run_butterfly. Qed.

Lemma implements_from_rev :
  implements h rs sc butterfly_from_rev (inverse_pair a).
Proof. unfold butterfly_from_rev. run_butterfly. Qed.

Lemma implements_to_rev_scaled s :
  implements h rs sc (butterfly_to_rev_scaled s)
             (fun scaled_r x y =>
                let u := mul_scalar a (guard a x) s in
                let v := mul_root a y scaled_r in
                (add a u v, sub a u v)).
Proof. unfold butterfly_to_rev_scaled. run_butterfly. Qed.

Lemma implements_from_rev_scaled s :
  implements h rs sc (butterfly_from_rev_scaled s)
             (fun scaled_r x v =>
                let u := guard a x in
                (mul_scalar a (guard a (add a u v)) s,
                 mul_root a (sub a u v) scaled_r)).
Proof. unfold butterfly_from_rev_scaled. run_butterfly. Qed.

End Runs.

(** ** Loops *)

Lemma seqZ_one m : seqZ m 1 = [m].
Proof. rewrite seqZ_cons by lia. by rewrite seqZ_nil by lia. Qed.

Lemma seqZ_snoc m n : 0 <= n -> seqZ m (n + 1) = seqZ m n ++ [m + n].
Proof. intros Hn. rewrite seqZ_app by lia. by rewrite seqZ_one. Qed.

Lemma seqZ_last m n : 0 < n -> seqZ m n = seqZ m (n - 1) ++ [m + (n - 1)].
Proof.
  intros Hn. replace n with ((n - 1) + 1) at 1 by lia. apply seqZ_snoc. lia.
Qed.

Section Loops.
Context {V R S : Type}.
Local Abbreviation M := (M V R S).
Local Abbreviation memory := (memory V R S).

Lemma for_range_inv (I : Z -> memory -> Prop) lo hi (body : Z -> M unit) st :
  lo <= hi ->
  I lo st ->
  (forall k st, lo <= k < hi -> I k st ->
     exists st', body k st = Done tt st' /\ I (k + 1) st') ->
  exists st', for_range lo hi body st = Done tt st' /\ I hi st'.
Proof.
  intros Hle HI Hstep. unfold for_range.
  remember (Z.to_nat (hi - lo)) as n eqn:Hn.
  revert lo st Hle HI Hstep Hn.
  induction n as [|n IH]; intros lo st Hle HI Hstep Hn.
  - assert (hi = lo) as -> by lia. rewrite seqZ_nil by lia.
    exists st. by split.
  - rewrite seqZ_cons by lia. simpl.
    destruct (Hstep lo st ltac:(lia) HI) as (st1 & Hb & HI1).
    unfold bind at 1. rewrite Hb.
    replace (Z.pred (hi - lo)) with (hi - Z.succ lo) by lia.
    replace (Z.succ lo) with (lo + 1) by lia.
    apply IH; [lia|done| |lia].
    intros k st2 Hk. apply Hstep. lia.
Qed.

Lemma for_down_inv (I : Z -> memory -> Prop) hi lo (body : Z -> M unit) st :
  lo <= hi ->
  I hi st ->
  (forall k st, lo < k <= hi -> I k st ->
     exists st', body k st = Done tt st' /\ I (k - 1) st') ->
  exists st', for_down hi lo body st = Done tt st' /\ I lo st'.
Proof.
  intros Hle HI Hstep. unfold for_down.
  remember (Z.to_nat (hi - lo)) as n eqn:Hn.
  revert hi st Hle HI Hstep Hn.
  induction n as [|n IH]; intros hi st Hle HI Hstep Hn.
  - assert (hi = lo) as -> by lia. rewrite seqZ_nil by lia.
    exists st. by split.
  - replace (hi - lo) with ((hi - 1 - lo) + 1) by lia.
    rewrite seqZ_snoc by lia. rewrite reverse_snoc. simpl.
    replace (lo + 1 + (hi - 1 - lo)) with hi by lia.
    destruct (Hstep hi st ltac:(lia) HI) as (st1 & Hb & HI1).
    unfold bind at 1. rewrite Hb.
    apply IH; [lia|done| |lia].
    intros k st2 Hk. apply Hstep. lia.
Qed.

(** Two bodies that agree on the memories a loop of the second goes
    through give the same loop. *)
Lemma for_range_agree (I : Z -> memory -> Prop) lo hi (body' body : Z -> M unit) st :
  lo <= hi ->
  I lo st ->
  (forall k st, lo <= k < hi -> I k st ->
     exists st', body k st = Done tt st' /\ I (k + 1) st' /\
                 body' k st = body k st) ->
  for_range lo hi body' st = for_range lo hi body st.
Proof.
  intros Hle HI Hstep. unfold for_range.
  remember (Z.to_nat (hi - lo)) as n eqn:Hn.
  revert lo st Hle HI Hstep Hn.
  induction n as [|n IH]; intros lo st Hle HI Hstep Hn.
  - assert (hi = lo) as -> by lia. by rewrite seqZ_nil by lia.
  - rewrite seqZ_cons by lia. simpl.
    destruct (Hstep lo st ltac:(lia) HI) as (st1 & Hb & HI1 & Heq).
    unfold bind. rewrite Heq, Hb.
    replace (Z.pred (hi - lo)) with (hi - Z.succ lo) by lia.
    replace (Z.succ lo) with (lo + 1) by lia.
    apply IH; [lia|done| |lia].
    intros k st2 Hk. apply Hstep. lia.
Qed.

End Loops.

(** ** Runs of a group and of a stage *)

Lemma pow2_split log_n log_m :
  0 <= log_m < log_n ->
  2 ^ (log_n - log_m) = 2 * 2 ^ (log_n - log_m - 1) /\
  2 ^ log_n = 2 ^ log_m * (2 * 2 ^ (log_n - log_m - 1)) /\
  0 < 2 ^ (log_n - log_m - 1) /\ 0 < 2 ^ log_m.
Proof.
  intros H.
  assert (H1 : 2 ^ (log_n - log_m) = 2 * 2 ^ (log_n - log_m - 1)).
  { replace (log_n - log_m) with (Z.succ (log_n - log_m - 1)) at 1 by lia.
    rewrite Z.pow_succ_r by lia. done. }
  split; [done|]. split.
  - rewrite <- H1, <- Z.pow_add_r by lia. f_equal. lia.
  - split; apply Z.pow_pos_nonneg; lia.
Qed.

Lemma length_foldl_preserving {A B} (g : list A -> B -> list A) :
  (forall l b, length (g l b) = length l) ->
  forall ks l, length (foldl g l ks) = length l.
Proof.
  intros Hg ks. induction ks as [|k ks IH]; intros l; simpl; [done|].
  by rewrite IH, Hg.
Qed.

Section StageRuns.
Context {V R S : Type}.
Variable bad_shift : Z -> Z -> option Z.
Variable h : DWTHandler V R S.
Variable rs : list R.
Variable sc : option S.

Local Abbreviation St vs ri rr tl := (Memory vs rs sc h ri rr tl).
Local Abbreviation M := (M V R S).

Lemma run_group (butterfly : R -> Z -> Z -> M unit) op r gap offset vs ri rr tl :
  implements h rs sc butterfly op ->
  0 <= offset -> 0 < gap ->
  offset + 2 * gap <= 2 ^ size_bits ->
  offset + 2 * gap <= Z.of_nat (length vs) ->
  for_range offset (wrap (offset + gap)) (butterfly r gap) (St vs ri rr tl)
  = Done tt (St (foldl (update_pair (op r) gap) vs (seqZ offset gap)) ri rr
                (tl ++ flat_map (pair_accesses gap) (seqZ offset gap))).
Proof.
  intros Himpl Hoff Hgap Hsize Hlen.
  rewrite wrap_small by lia.
  destruct (for_range_inv
    (fun k st => st = St (foldl (update_pair (op r) gap) vs (seqZ offset (k - offset)))
                         ri rr
                         (tl ++ flat_map (pair_accesses gap) (seqZ offset (k - offset))))
    offset (offset + gap) (butterfly r gap) (St vs ri rr tl)) as (st' & Hrun & ->).
  - lia.
  - rewrite Z.sub_diag, seqZ_nil by lia. simpl. by rewrite app_nil_r.
  - intros k st Hk ->. eexists. split.
    + apply Himpl; [lia|lia|lia|].
      rewrite length_foldl_update_pair. lia.
    + replace (k + 1 - offset) with ((k - offset) + 1) by lia.
      rewrite seqZ_snoc by lia. rewrite foldl_snoc, flat_map_app. simpl.
      replace (offset + (k - offset)) with k by lia.
      by rewrite <- app_assoc.
  - rewrite Hrun. by replace (offset + gap - offset) with gap by lia.
Qed.

Lemma after_groups_all op stride log_n log_m vs ri rr tl :
  after_groups h rs sc op stride log_n log_m vs ri rr tl (2 ^ log_m)
  = St (stage_at op rs ri stride log_n log_m vs) (ri + stride * 2 ^ log_m)
       (rr ++ ((fun i => ri + stride * i) <$> seqZ 0 (2 ^ log_m)))
       (tl ++ stage_accesses log_n log_m).
Proof.
  unfold after_groups, stage_at, stage_accesses. by rewrite Z.shiftl_1_l.
Qed.

Lemma after_groups_none op stride log_n log_m vs ri rr tl :
  after_groups h rs sc op stride log_n log_m vs ri rr tl 0 = St vs ri rr tl.
Proof.
  unfold after_groups. rewrite seqZ_nil by lia. simpl.
  by rewrite Z.mul_0_r, Z.add_0_r, !app_nil_r.
Qed.

(** Group [k] of a stage takes the memory after [k] groups to the memory
    after [k + 1]. *)
Lemma run_stage_group (fetch : M R) stride f (butterfly : R -> Z -> Z -> M unit) op
    log_n log_m vs ri rr tl k :
  fetches h rs sc fetch stride f ->
  implements h rs sc butterfly op ->
  stage_fits rs stride log_n log_m vs ri ->
  0 <= k < 2 ^ log_m ->
  stage_group bad_shift log_n log_m (2 ^ (log_n - log_m - 1)) fetch butterfly k
    (after_groups h rs sc (fun r => op (f r)) stride log_n log_m vs ri rr tl k)
  = Done tt
      (after_groups h rs sc (fun r => op (f r)) stride log_n log_m vs ri rr tl (k + 1)).
Proof.
  intros Hfetch Himpl (Hm & Hn & Hlen & Hri & Hstride & Hri' & Hrs) Hk.
  destruct (pow2_split log_n log_m Hm) as (E1 & E2 & Hg & Hmpos).
  assert (Hnb := pow2_lt_size log_n ltac:(lia)).
  unfold after_groups, stage_group.
  set (G := fun vs i =>
              match rs !! Z.to_nat (ri + stride * i) with
              | Some r => group (op (f r)) log_n log_m i vs
              | None => vs
              end).
  assert (Hlenk : length (foldl G vs (seqZ 0 k)) = length vs).
  { apply length_foldl_preserving. intros l i. unfold G.
    destruct (rs !! _); [apply length_group|done]. }
  destruct (Hrs k ltac:(lia)) as [r Hr].
  assert (Hb : 0 <= ri + stride * k < 2 ^ size_bits - 1) by nia.
  rewrite (bind_done _ _ _ _ _ (Hfetch _ _ _ _ r Hb Hr)).
  rewrite (bind_done _ _ _ _ _
             (run_shl bad_shift Init_offset k (log_n - log_m) _ ltac:(lia))).
  rewrite (wrap_small (k * 2 ^ (log_n - log_m))) by nia.
  rewrite (run_group butterfly op);
    [|done|nia|lia|nia|rewrite Hlenk; nia].
  rewrite seqZ_snoc by lia. rewrite foldl_snoc, fmap_app, flat_map_app.
  simpl. rewrite Z.add_0_l, app_nil_r, <- !app_assoc.
  subst G. cbv beta. rewrite Hr. unfold group, group_accesses.
  rewrite Z.shiftl_1_l, Z.shiftl_mul_pow2 by lia.
  do 2 f_equal. lia.
Qed.

Lemma run_stage (fetch : M R) stride f (butterfly : R -> Z -> Z -> M unit) op
    log_n log_m vs ri rr tl :
  fetches h rs sc fetch stride f ->
  implements h rs sc butterfly op ->
  0 <= log_m < log_n -> log_n < size_bits ->
  2 ^ log_n <= Z.of_nat (length vs) ->
  0 <= ri -> 0 <= stride <= 1 ->
  ri + 2 ^ log_m < 2 ^ size_bits ->
  (forall i, 0 <= i < 2 ^ log_m -> is_Some (rs !! Z.to_nat (ri + stride * i))) ->
  stage bad_shift log_n log_m fetch butterfly (St vs ri rr tl)
  = Done tt (St (stage_at (fun r => op (f r)) rs ri stride log_n log_m vs)
                (ri + stride * 2 ^ log_m)
                (rr ++ ((fun i => ri + stride * i) <$> seqZ 0 (2 ^ log_m)))
                (tl ++ stage_accesses log_n log_m)).
Proof.
  intros Hfetch Himpl Hm Hn Hlen Hri Hstride Hri' Hrs.
  assert (Hfits : stage_fits rs stride log_n log_m vs ri) by done.
  destruct (pow2_split log_n log_m Hm) as (E1 & E2 & Hg & Hmpos).
  assert (Hnb := pow2_lt_size log_n ltac:(lia)).
  unfold stage.
  rewrite (bind_done _ _ _ _ _ (run_shl bad_shift Init_m 1 log_m _ ltac:(lia))).
  rewrite (bind_done _ _ _ _ _
             (run_shl bad_shift Init_gap 1 (log_n - log_m - 1) _ ltac:(lia))).
  rewrite !Z.mul_1_l.
  rewrite (wrap_small (2 ^ log_m)) by nia.
  rewrite (wrap_small (2 ^ (log_n - log_m - 1))) by nia.
  rewrite <- after_groups_all.
  destruct (for_range_inv
    (fun k st => st = after_groups h rs sc (fun r => op (f r)) stride log_n log_m
                                   vs ri rr tl k)
    0 (2 ^ log_m)
    (stage_group bad_shift log_n log_m (2 ^ (log_n - log_m - 1)) fetch butterfly)
    (St vs ri rr tl)) as (st' & Hrun & ->); [lia| | |exact Hrun].
  - by rewrite after_groups_none.
  - intros k st Hk ->. eexists. split; [|done]. by eapply run_stage_group.
Qed.

(** In a stage that starts with the cursor at [2 ^ log_m] the assertions
    hold: the stage with them runs as the stage without. *)
Lemma run_stage_asserting (fetch : M R) f (butterfly : R -> Z -> Z -> M unit) op
    log_n log_m vs rr tl :
  fetches h rs sc fetch 1 f ->
  implements h rs sc butterfly op ->
  stage_fits rs 1 log_n log_m vs (2 ^ log_m) ->
  stage_asserting bad_shift log_n log_m fetch butterfly (St vs (2 ^ log_m) rr tl)
  = stage bad_shift log_n log_m fetch butterfly (St vs (2 ^ log_m) rr tl).
Proof.
  intros Hfetch Himpl Hfits.
  assert (Hfits' := Hfits).
  destruct Hfits' as (Hm & Hn & Hlen & Hri & Hstride & Hri' & Hrs).
  destruct (pow2_split log_n log_m Hm) as (E1 & E2 & Hg & Hmpos).
  assert (Hnb := pow2_lt_size log_n ltac:(lia)).
  unfold stage_asserting, stage.
  rewrite !(bind_done _ _ _ _ _ (run_shl bad_shift Init_m 1 log_m _ ltac:(lia))).
  rewrite !(bind_done _ _ _ _ _
              (run_shl bad_shift Init_gap 1 (log_n - log_m - 1) _ ltac:(lia))).
  rewrite !Z.mul_1_l.
  rewrite (wrap_small (2 ^ log_m)) by nia.
  rewrite (wrap_small (2 ^ (log_n - log_m - 1))) by nia.
  apply (for_range_agree
    (fun k st => st = after_groups h rs sc (fun r => op (f r)) 1 log_n log_m
                                   vs (2 ^ log_m) rr tl k)); [lia| |].
  - by rewrite after_groups_none.
  - intros k st Hk ->. eexists. split; [by eapply run_stage_group|].
    split; [done|].
    unfold bind at 1, assert_cursor, bind, get_root_index. simpl.
    rewrite wrap_small by lia.
    replace (2 ^ log_m + 1 * k =? 2 ^ log_m + k) with true; [done|].
    symmetry. apply Z.eqb_eq. lia.
Qed.

End StageRuns.

(** ** Runs of the two transforms *)

Lemma pow2_le_mono j k : 0 <= j <= k -> 2 ^ j <= 2 ^ k.
Proof. intros H. apply Z.pow_le_mono_r; lia. Qed.

Lemma pow2_succ k : 0 <= k -> 2 ^ (k + 1) = 2 * 2 ^ k.
Proof. intros H. by rewrite Z.pow_add_r, Z.pow_1_r, Z.mul_comm by lia. Qed.

Lemma fmap_stride_one (base : Z) (ks : list Z) :
  (fun i => base + 1 * i) <$> ks = (fun i => base + i) <$> ks.
Proof. apply list_fmap_ext. intros _ i _. lia. Qed.

Section TransformRuns.
Context {V R S : Type}.
Variable bad_shift : Z -> Z -> option Z.
Variable h : DWTHandler V R S.
Variable rs : list R.
Variable sc : option S.

Local Abbreviation St vs ri rr tl := (Memory vs rs sc h ri rr tl).
Local Abbreviation a := (arithmetic_ h).

Lemma roots_in_range log_n base k :
  2 ^ log_n <= Z.of_nat (length rs) ->
  0 <= base -> base + 2 ^ k <= 2 ^ log_n ->
  forall i, 0 <= i < 2 ^ k -> is_Some (rs !! Z.to_nat (base + 1 * i)).
Proof. intros Hrs Hb Hk i Hi. apply lookup_lt_is_Some_2. lia. Qed.

Lemma run_last_forward log_n vs ri rr tl :
  1 <= log_n < size_bits ->
  2 ^ log_n <= Z.of_nat (length vs) ->
  2 ^ log_n <= Z.of_nat (length rs) ->
  ri = 2 ^ (log_n - 1) ->
  match sc with
  | Some s => stage bad_shift log_n (log_n - 1) (scaled next_root s)
                    (butterfly_to_rev_scaled s)
  | None => stage bad_shift log_n (log_n - 1) next_root butterfly_to_rev
  end (St vs ri rr tl)
  = Done tt (St (stage_at (last_forward a sc) rs ri 1 log_n (log_n - 1) vs)
                (2 ^ log_n)
                (rr ++ ((fun i => 2 ^ (log_n - 1) + i) <$> seqZ 0 (2 ^ (log_n - 1))))
                (tl ++ stage_accesses log_n (log_n - 1))).
Proof.
  intros Hn Hvs Hrs ->.
  assert (Hp := pow2_succ (log_n - 1) ltac:(lia)).
  replace (log_n - 1 + 1) with log_n in Hp by lia.
  assert (Hpos : 0 < 2 ^ (log_n - 1)) by (apply Z.pow_pos_nonneg; lia).
  assert (Hnb := pow2_lt_size log_n ltac:(lia)).
  destruct sc as [s|]; simpl.
  - etrans.
    { eapply (run_stage bad_shift h rs (Some s) _ 1
                (fun r => mul_root_scalar a r s));
        [apply fetches_scaled, fetches_next_root
        |apply implements_to_rev_scaled|lia|lia|done|lia|lia|lia
        |apply (roots_in_range log_n); lia]. }
    rewrite fmap_stride_one. do 2 f_equal. lia.
  - etrans.
    { eapply (run_stage bad_shift h rs None _ 1 (fun r => r));
        [apply fetches_next_root|apply implements_to_rev|lia|lia|done|lia|lia|lia
        |apply (roots_in_range log_n); lia]. }
    rewrite fmap_stride_one. do 2 f_equal. lia.
Qed.

Lemma forward_stage_fits log_n vs t :
  1 <= log_n < size_bits ->
  2 ^ log_n <= Z.of_nat (length vs) ->
  2 ^ log_n <= Z.of_nat (length rs) ->
  0 <= t < log_n ->
  stage_fits rs 1 log_n t
    (foldl (fun vs log_m => stage_at (forward_pair a) rs (2 ^ log_m) 1 log_n log_m vs)
           vs (seqZ 0 t))
    (2 ^ t).
Proof.
  intros Hn Hvs Hrs Ht.
  assert (Hle := pow2_le_mono (t + 1) log_n ltac:(lia)).
  assert (Hs := pow2_succ t ltac:(lia)).
  assert (Hpos : 0 < 2 ^ t) by (apply Z.pow_pos_nonneg; lia).
  assert (Hnb := pow2_lt_size log_n ltac:(lia)).
  repeat split; try lia.
  - rewrite length_foldl_preserving; [done|]. intros l b. apply length_stage_at.
  - apply (roots_in_range log_n); lia.
Qed.

(** Stage [t] of [transform_to_rev] takes the memory after [t] stages to the
    memory after [t + 1]. *)
Lemma run_forward_stage log_n vs t :
  1 <= log_n < size_bits ->
  2 ^ log_n <= Z.of_nat (length vs) ->
  2 ^ log_n <= Z.of_nat (length rs) ->
  0 <= t < log_n - 1 ->
  stage bad_shift log_n t next_root butterfly_to_rev
        (after_forward_stages h rs sc log_n vs t)
  = Done tt (after_forward_stages h rs sc log_n vs (t + 1)).
Proof.
  intros Hn Hvs Hrs Ht.
  destruct (forward_stage_fits log_n vs t Hn Hvs Hrs ltac:(lia))
    as (H1 & H2 & H3 & H4 & H5 & H6 & H7).
  unfold after_forward_stages.
  rewrite (run_stage bad_shift h rs sc _ 1 (fun r => r) _ (forward_pair a));
    [|apply fetches_next_root|apply implements_to_rev|done..].
  unfold forward_reads.
  rewrite seqZ_snoc by lia. rewrite foldl_snoc, !flat_map_app. simpl.
  rewrite !app_nil_r, Z.add_0_l, fmap_stride_one.
  do 2 f_equal. rewrite pow2_succ by lia. lia.
Qed.

Lemma run_to_rev log_n vs :
  1 <= log_n < size_bits ->
  2 ^ log_n <= Z.of_nat (length vs) ->
  2 ^ log_n <= Z.of_nat (length rs) ->
  call_to_rev bad_shift h vs log_n rs sc
  = Done tt (St (forward_at a rs sc log_n vs) (2 ^ log_n)
                (forward_reads log_n) (forward_accesses log_n)).
Proof.
  intros Hn Hvs Hrs.
  unfold call_to_rev, call_memory, transform_to_rev.
  unfold bind at 1. unfold set_root_index at 1. simpl.
  lazymatch goal with
  | |- bind (for_range 0 _ ?body) _ _ = _ =>
      destruct (for_range_inv
        (fun t st => st = after_forward_stages h rs sc log_n vs t)
        0 (log_n - 1) body (St vs 1 [] [])) as (st' & Hrun & ->); [lia|done| |]
  end.
  - intros t st Ht ->. eexists. split; [|done]. by apply run_forward_stage.
  - rewrite (bind_done _ _ _ _ _ Hrun). unfold bind, scalar_arg. simpl.
    unfold after_forward_stages.
    rewrite run_last_forward; [|done| |done|done].
    + unfold forward_at, forward_reads, forward_accesses.
      rewrite (seqZ_last 0 log_n) by lia. rewrite !flat_map_app. simpl.
      by rewrite !app_nil_r, Z.add_0_l.
    + rewrite length_foldl_preserving; [done|].
      intros l b. apply length_stage_at.
Qed.

(** The assertions of [transform_to_rev_asserting] hold throughout a call:
    it runs as [transform_to_rev]. *)
Lemma run_to_rev_asserting log_n vs :
  1 <= log_n < size_bits ->
  2 ^ log_n <= Z.of_nat (length vs) ->
  2 ^ log_n <= Z.of_nat (length rs) ->
  call_to_rev_asserting bad_shift h vs log_n rs sc
  = call_to_rev bad_shift h vs log_n rs sc.
Proof.
  intros Hn Hvs Hrs.
  unfold call_to_rev_asserting, call_to_rev, call_memory,
    transform_to_rev_asserting, transform_to_rev.
  unfold bind at 1 4. unfold set_root_index at 1 2. simpl.
  assert (Hloop :
    for_range 0 (log_n - 1)
      (fun log_m => stage_asserting bad_shift log_n log_m next_root butterfly_to_rev)
      (St vs 1 [] [])
    = for_range 0 (log_n - 1)
        (fun log_m => stage bad_shift log_n log_m next_root butterfly_to_rev)
        (St vs 1 [] [])).
  { apply (for_range_agree
             (fun t st => st = after_forward_stages h rs sc log_n vs t));
      [lia|done|].
    intros t st Ht ->. eexists. split; [by apply run_forward_stage|].
    split; [done|].
    apply (run_stage_asserting bad_shift h rs sc _ (fun r => r) _ (forward_pair a));
      [apply fetches_next_root|apply implements_to_rev|].
    apply forward_stage_fits; lia. }
  unfold bind at 1 3. rewrite Hloop.
  destruct (for_range_inv
    (fun t st => st = after_forward_stages h rs sc log_n vs t)
    0 (log_n - 1)
    (fun log_m => stage bad_shift log_n log_m next_root butterfly_to_rev)
    (St vs 1 [] [])) as (st' & Hrun & ->); [lia|done| |].
  { intros t st Ht ->. eexists. split; [|done]. by apply run_forward_stage. }
  rewrite Hrun. unfold bind, scalar_arg. simpl.
  assert (Hfits := forward_stage_fits log_n vs (log_n - 1) Hn Hvs Hrs ltac:(lia)).
  destruct sc as [s|].
  - eapply (run_stage_asserting bad_shift h rs (Some s) _
              (fun r => mul_root_scalar a r s));
      [apply fetches_scaled, fetches_next_root|apply implements_to_rev_scaled|done].
  - eapply (run_stage_asserting bad_shift h rs None _ (fun r => r));
      [apply fetches_next_root|apply implements_to_rev|done].
Qed.

Lemma run_last_inverse log_n vs ri rr tl :
  1 <= log_n < size_bits ->
  2 ^ log_n <= Z.of_nat (length vs) ->
  2 ^ log_n <= Z.of_nat (length rs) ->
  ri = 2 ^ log_n - 1 ->
  match sc with
  | Some s => stage bad_shift log_n 0 (scaled current_root s)
                    (butterfly_from_rev_scaled s)
  | None => stage bad_shift log_n 0 current_root butterfly_from_rev
  end (St vs ri rr tl)
  = Done tt (St (stage_at (last_inverse a sc) rs ri 0 log_n 0 vs)
                (2 ^ log_n - 1)
                (rr ++ [2 ^ log_n - 1])
                (tl ++ stage_accesses log_n 0)).
Proof.
  intros Hn Hvs Hrs ->.
  assert (Hnb := pow2_lt_size log_n ltac:(lia)).
  assert (Hsome : forall i, 0 <= i < 2 ^ 0 ->
            is_Some (rs !! Z.to_nat (2 ^ log_n - 1 + 0 * i))).
  { intros i Hi. apply lookup_lt_is_Some_2. lia. }
  assert (Hone : 2 ^ 0 = 1) by done.
  destruct sc as [s|]; simpl.
  - etrans.
    { eapply (run_stage bad_shift h rs (Some s) _ 0
                (fun r => mul_root_scalar a r s));
        [apply fetches_scaled, fetches_current_root
        |apply implements_from_rev_scaled|lia|lia|done|lia|lia|lia|done]. }
    rewrite Hone, seqZ_one. simpl. do 2 f_equal; [lia|]. do 2 f_equal. lia.
  - etrans.
    { eapply (run_stage bad_shift h rs None _ 0 (fun r => r));
        [apply fetches_current_root|apply implements_from_rev
        |lia|lia|done|lia|lia|lia|done]. }
    rewrite Hone, seqZ_one. simpl. do 2 f_equal; [lia|]. do 2 f_equal. lia.
Qed.

Lemma run_from_rev log_n vs :
  1 <= log_n < size_bits ->
  2 ^ log_n <= Z.of_nat (length vs) ->
  2 ^ log_n <= Z.of_nat (length rs) ->
  call_from_rev bad_shift h vs log_n rs sc
  = Done tt (St (inverse_at a rs sc log_n vs) (2 ^ log_n - 1)
                (inverse_reads log_n) (inverse_accesses log_n)).
Proof.
  intros Hn Hvs Hrs.
  unfold call_from_rev, call_memory, transform_from_rev.
  unfold bind at 1. unfold set_root_index at 1. simpl.
  set (F := fun vs log_m =>
              stage_at (inverse_pair a) rs (2 ^ log_n - 2 ^ (log_m + 1) + 1) 1
                       log_n log_m vs).
  set (rd := fun log_m =>
               (fun i => 2 ^ log_n - 2 ^ (log_m + 1) + 1 + i) <$> seqZ 0 (2 ^ log_m)).
  assert (Hnb := pow2_lt_size log_n ltac:(lia)).
  lazymatch goal with
  | |- bind (for_down _ 0 ?body) _ _ = _ =>
      destruct (for_down_inv
        (fun t st => st = St (foldl F vs (reverse (seqZ (t + 1) (log_n - 1 - t))))
                             (2 ^ log_n - 2 ^ (t + 1) + 1)
                             (flat_map rd (reverse (seqZ (t + 1) (log_n - 1 - t))))
                             (flat_map (stage_accesses log_n)
                                       (reverse (seqZ (t + 1) (log_n - 1 - t)))))
        (log_n - 1) 0 body (St vs 1 [] [])) as (st' & Hrun & ->); [lia| | |]
  end.
  - rewrite seqZ_nil by lia. simpl.
    replace (log_n - 1 + 1) with log_n by lia. f_equal. lia.
  - intros t st Ht ->.
    assert (Hle := pow2_le_mono (t + 1) log_n ltac:(lia)).
    assert (Hs := pow2_succ t ltac:(lia)).
    assert (Hpos : 0 < 2 ^ t) by (apply Z.pow_pos_nonneg; lia).
    eexists. split.
    + apply (run_stage bad_shift h rs sc _ 1 (fun r => r));
        [apply fetches_next_root|apply implements_from_rev|lia|lia| |lia|lia|lia
        |apply (roots_in_range log_n); lia].
      rewrite (length_foldl_preserving F); [done|].
      intros l b. apply length_stage_at.
    + replace (t - 1 + 1) with t by lia.
      replace (log_n - 1 - (t - 1)) with (Z.succ (log_n - 1 - t)) by lia.
      rewrite (seqZ_cons t) by lia.
      replace (Z.pred (Z.succ (log_n - 1 - t))) with (log_n - 1 - t) by lia.
      replace (Z.succ t) with (t + 1) by lia.
      rewrite reverse_cons, foldl_snoc, !flat_map_app. simpl.
      rewrite !app_nil_r, fmap_stride_one.
      f_equal. lia.
  - rewrite (bind_done _ _ _ _ _ Hrun). unfold bind, scalar_arg. simpl.
    replace (log_n - 1 - 0) with (log_n - 1) by lia.
    rewrite run_last_inverse; [|done| |done|simpl; lia].
    + unfold inverse_at, inverse_reads, inverse_accesses.
      rewrite (seqZ_cons 0 log_n) by lia.
      replace (Z.pred log_n) with (log_n - 1) by lia.
      rewrite reverse_cons, !flat_map_app. simpl.
      rewrite !app_nil_r. fold F. fold rd.
      replace (2 ^ log_n - 2 ^ (0 + 1) + 1) with (2 ^ log_n - 1) by (simpl; lia).
      change (Z.succ 0) with 1. change (0 + 1) with 1.
      do 4 f_equal. lia.
    + rewrite (length_foldl_preserving F); [done|].
      intros l b. apply length_stage_at.
Qed.

End TransformRuns.

(** ** What a group and a stage do to each position *)

Section Positions.
Context {V R : Type}.
Implicit Types (op : V -> V -> V * V) (w : list V).

Lemma update_pair_pair op gap w j x y :
  0 <= j -> 0 < gap ->
  w !! Z.to_nat j = Some x -> w !! Z.to_nat (j + gap) = Some y ->
  update_pair op gap w j !! Z.to_nat j = Some (op x y).1 /\
  update_pair op gap w j !! Z.to_nat (j + gap) = Some (op x y).2.
Proof.
  intros Hj Hgap Hx Hy. unfold update_pair. rewrite Hx, Hy.
  assert (Hlx := lookup_lt_Some _ _ _ Hx).
  assert (Hly := lookup_lt_Some _ _ _ Hy).
  split.
  - rewrite list_lookup_insert_ne by lia.
    by rewrite list_lookup_insert_eq by lia.
  - by rewrite list_lookup_insert_eq by (rewrite length_insert; lia).
Qed.

Lemma update_pair_other op gap w j p :
  0 <= j -> 0 <= gap -> 0 <= p -> p <> j -> p <> j + gap ->
  update_pair op gap w j !! Z.to_nat p = w !! Z.to_nat p.
Proof.
  intros Hj Hgap Hp Hne1 Hne2. unfold update_pair.
  destruct (w !! Z.to_nat j); [|done].
  destruct (w !! Z.to_nat (j + gap)); [|done].
  by rewrite !list_lookup_insert_ne by lia.
Qed.

(** After the first [t] butterflies of a group. *)
Lemma group_prefix op gap offset w t :
  0 <= offset -> 0 < gap -> 0 <= t <= gap ->
  let g := foldl (update_pair op gap) w (seqZ offset t) in
  (forall q x y, 0 <= q < t ->
     w !! Z.to_nat (offset + q) = Some x ->
     w !! Z.to_nat (offset + q + gap) = Some y ->
     g !! Z.to_nat (offset + q) = Some (op x y).1 /\
     g !! Z.to_nat (offset + q + gap) = Some (op x y).2) /\
  (forall p, 0 <= p ->
     ~ (offset <= p < offset + t) ->
     ~ (offset + gap <= p < offset + gap + t) ->
     g !! Z.to_nat p = w !! Z.to_nat p).
Proof.
  intros Hoff Hgap Ht. 
  assert (Hnat : t = Z.of_nat (Z.to_nat t)) by lia.
  revert Ht. rewrite Hnat. clear Hnat. generalize (Z.to_nat t). clear t.
  intros n. induction n as [|n IH]; intros Ht.
  - cbv zeta. rewrite seqZ_nil by lia. split; [lia|done].
  - destruct IH as [IH1 IH2]; [lia|].
    rewrite Nat2Z.inj_succ, <- Z.add_1_r, seqZ_snoc by lia.
    cbv zeta in *. rewrite foldl_snoc.
    set (g := foldl (update_pair op gap) w (seqZ offset (Z.of_nat n))) in *.
    set (j := offset + Z.of_nat n).
    split.
    + intros q x y Hq Hx Hy.
      destruct (decide (q = Z.of_nat n)) as [->|Hne].
      * apply update_pair_pair; [lia|lia| |].
        -- rewrite IH2 by lia. done.
        -- rewrite IH2 by lia. done.
      * destruct (IH1 q x y ltac:(lia) Hx Hy) as [H1 H2].
        rewrite !update_pair_other by lia. done.
    + intros p Hp Hn1 Hn2.
      rewrite update_pair_other by lia. apply IH2; lia.
Qed.

Lemma group_lookup op log_n log_m i w :
  0 <= log_m < log_n -> 0 <= i ->
  let gap := 2 ^ (log_n - log_m - 1) in
  let offset := i * (2 * gap) in
  let g := group op log_n log_m i w in
  (forall q x y, 0 <= q < gap ->
     w !! Z.to_nat (offset + q) = Some x ->
     w !! Z.to_nat (offset + q + gap) = Some y ->
     g !! Z.to_nat (offset + q) = Some (op x y).1 /\
     g !! Z.to_nat (offset + q + gap) = Some (op x y).2) /\
  (forall p, 0 <= p -> ~ (offset <= p < offset + 2 * gap) ->
     g !! Z.to_nat p = w !! Z.to_nat p).
Proof.
  intros Hm Hi gap offset g.
  destruct (pow2_split log_n log_m Hm) as (E1 & E2 & Hg & Hmpos).
  assert (Hg' : g = foldl (update_pair op gap) w (seqZ offset gap)).
  { subst g. unfold group. rewrite Z.shiftl_1_l, Z.shiftl_mul_pow2 by lia.
    subst offset gap. by rewrite E1. }
  rewrite Hg'.
  destruct (group_prefix op gap offset w gap ltac:(nia) ltac:(done) ltac:(lia))
    as [H1 H2].
  split; [done|]. intros p Hp Hn. apply H2; fold gap in Hg; lia.
Qed.

(** After the first [k] groups of a stage. *)
Lemma stage_prefix (op : R -> V -> V -> V * V) (rs : list R)
    base stride log_n log_m w k :
  0 <= log_m < log_n -> 0 <= k ->
  let gap := 2 ^ (log_n - log_m - 1) in
  let G := fun vs i =>
             match rs !! Z.to_nat (base + stride * i) with
             | Some r => group (op r) log_n log_m i vs
             | None => vs
             end in
  let g := foldl G w (seqZ 0 k) in
  (forall i q x y r, 0 <= i < k -> 0 <= q < gap ->
     rs !! Z.to_nat (base + stride * i) = Some r ->
     w !! Z.to_nat (i * (2 * gap) + q) = Some x ->
     w !! Z.to_nat (i * (2 * gap) + q + gap) = Some y ->
     g !! Z.to_nat (i * (2 * gap) + q) = Some (op r x y).1 /\
     g !! Z.to_nat (i * (2 * gap) + q + gap) = Some (op r x y).2) /\
  (forall p, 0 <= p -> k * (2 * gap) <= p -> g !! Z.to_nat p = w !! Z.to_nat p).
Proof.
  intros Hm Hk gap G.
  destruct (pow2_split log_n log_m Hm) as (E1 & E2 & Hg & Hmpos).
  fold gap in Hg.
  assert (Hnat : k = Z.of_nat (Z.to_nat k)) by lia.
  rewrite Hnat. clear Hnat Hk. generalize (Z.to_nat k). clear k.
  intros n. induction n as [|n IH].
  - cbv zeta. rewrite seqZ_nil by lia. split; [lia|done].
  - destruct IH as [IH1 IH2].
    rewrite Nat2Z.inj_succ, <- Z.add_1_r, seqZ_snoc by lia.
    cbv zeta. rewrite foldl_snoc, Z.add_0_l.
    set (g := foldl G w (seqZ 0 (Z.of_nat n))) in *.
    assert (Hgroup := fun r => group_lookup (op r) log_n log_m (Z.of_nat n) g
                                 Hm ltac:(lia)).
    cbv zeta in Hgroup. fold gap in Hgroup.
    split.
    + intros i q x y r Hi Hq Hr Hx Hy.
      destruct (decide (i = Z.of_nat n)) as [->|Hne].
      * unfold G at 1 2. rewrite Hr.
        destruct (Hgroup r) as [H1 _]. apply H1; [done| |].
        -- rewrite IH2 by nia. done.
        -- rewrite IH2 by nia. done.
      * destruct (IH1 i q x y r ltac:(lia) Hq Hr Hx Hy) as [H1 H2].
        unfold G at 1 2. destruct (rs !! Z.to_nat (base + stride * Z.of_nat n)) as [r'|];
          [|done].
        destruct (Hgroup r') as [_ H3]. rewrite !H3 by nia. done.
    + intros p Hp Hle. unfold G at 1.
      destruct (rs !! Z.to_nat (base + stride * Z.of_nat n)) as [r'|];
        [|apply IH2; nia].
      destruct (Hgroup r') as [_ H3]. rewrite H3 by nia. apply IH2; nia.
Qed.

Lemma stage_lookup (op : R -> V -> V -> V * V) (rs : list R)
    base stride log_n log_m w :
  0 <= log_m < log_n ->
  let gap := 2 ^ (log_n - log_m - 1) in
  let g := stage_at op rs base stride log_n log_m w in
  (forall i q x y r, 0 <= i < 2 ^ log_m -> 0 <= q < gap ->
     rs !! Z.to_nat (base + stride * i) = Some r ->
     w !! Z.to_nat (i * (2 * gap) + q) = Some x ->
     w !! Z.to_nat (i * (2 * gap) + q + gap) = Some y ->
     g !! Z.to_nat (i * (2 * gap) + q) = Some (op r x y).1 /\
     g !! Z.to_nat (i * (2 * gap) + q + gap) = Some (op r x y).2) /\
  (forall p, 0 <= p -> 2 ^ log_n <= p -> g !! Z.to_nat p = w !! Z.to_nat p).
Proof.
  intros Hm gap g.
  destruct (pow2_split log_n log_m Hm) as (E1 & E2 & Hg & Hmpos).
  destruct (stage_prefix op rs base stride log_n log_m w (2 ^ log_m) Hm ltac:(lia))
    as [H1 H2].
  subst g. unfold stage_at. rewrite Z.shiftl_1_l.
  split; [exact H1|]. intros p Hp Hle. apply H2; [done|]. fold gap in E2. lia.
Qed.

(** Every position below [2 ^ log_n] is the low or the high end of one
    pair of one group. *)
Lemma position_cases log_n log_m p :
  0 <= log_m < log_n -> 0 <= p < 2 ^ log_n ->
  let gap := 2 ^ (log_n - log_m - 1) in
  exists i q, 0 <= i < 2 ^ log_m /\ 0 <= q < gap /\
    (p = i * (2 * gap) + q \/ p = i * (2 * gap) + q + gap).
Proof.
  intros Hm Hp gap.
  destruct (pow2_split log_n log_m Hm) as (E1 & E2 & Hg & Hmpos).
  fold gap in E1, E2, Hg.
  exists (p / (2 * gap)).
  assert (Hdm := Z.div_mod p (2 * gap) ltac:(lia)).
  assert (Hmod := Z.mod_pos_bound p (2 * gap) ltac:(lia)).
  assert (Hi : 0 <= p / (2 * gap) < 2 ^ log_m).
  { split; [apply Z.div_pos; lia|]. apply Z.div_lt_upper_bound; lia. }
  destruct (decide (p mod (2 * gap) < gap)) as [Hlt|Hge].
  - exists (p mod (2 * gap)). split; [done|]. split; [lia|]. left. lia.
  - exists (p mod (2 * gap) - gap). split; [done|]. split; [lia|]. right. lia.
Qed.

End Positions.

(** ** Two stages compared position by position *)

Section StageAlgebra.
Context {V R : Type}.

(** The pair a position below [2 ^ log_n] belongs to, with its contents. *)
Lemma pair_of_position (w : list V) log_n log_m n :
  0 <= log_m < log_n -> Z.of_nat (length w) = 2 ^ log_n ->
  (n < length w)%nat ->
  let gap := 2 ^ (log_n - log_m - 1) in
  exists i q x y, 0 <= i < 2 ^ log_m /\ 0 <= q < gap /\
    w !! Z.to_nat (i * (2 * gap) + q) = Some x /\
    w !! Z.to_nat (i * (2 * gap) + q + gap) = Some y /\
    (n = Z.to_nat (i * (2 * gap) + q) \/ n = Z.to_nat (i * (2 * gap) + q + gap)).
Proof.
  intros Hm Hlen Hn gap.
  destruct (pow2_split log_n log_m Hm) as (E1 & E2 & Hg & Hmpos).
  fold gap in E1, E2, Hg.
  destruct (position_cases log_n log_m (Z.of_nat n) Hm ltac:(lia))
    as (i & q & Hi & Hq & Hp). fold gap in Hq, Hp.
  assert (Hhi : i * (2 * gap) + q + gap < 2 ^ log_n) by nia.
  destruct (lookup_lt_is_Some_2 w (Z.to_nat (i * (2 * gap) + q)) ltac:(nia))
    as [x Hx].
  destruct (lookup_lt_is_Some_2 w (Z.to_nat (i * (2 * gap) + q + gap)) ltac:(lia))
    as [y Hy].
  exists i, q, x, y. repeat split; try done; try lia.
Qed.

Lemma stage_at_fmap (op op' : R -> V -> V -> V * V) (f : V -> V) (rs : list R)
    base stride log_n log_m (w : list V) :
  0 <= log_m < log_n -> Z.of_nat (length w) = 2 ^ log_n ->
  (forall i, 0 <= i < 2 ^ log_m -> exists r,
     rs !! Z.to_nat (base + stride * i) = Some r /\
     forall x y, op' r x y = (f (op r x y).1, f (op r x y).2)) ->
  stage_at op' rs base stride log_n log_m w
  = f <$> stage_at op rs base stride log_n log_m w.
Proof.
  intros Hm Hlen Hrs. apply list_eq. intros n.
  destruct (decide (n < length w)%nat) as [Hn|Hn].
  - destruct (pair_of_position w log_n log_m n Hm Hlen Hn)
      as (i & q & x & y & Hi & Hq & Hx & Hy & Hp).
    destruct (Hrs i Hi) as (r & Hr & Hop).
    destruct (stage_lookup op' rs base stride log_n log_m w Hm) as [H1 _].
    destruct (stage_lookup op rs base stride log_n log_m w Hm) as [H2 _].
    destruct (H1 i q x y r Hi Hq Hr Hx Hy) as [H1a H1b].
    destruct (H2 i q x y r Hi Hq Hr Hx Hy) as [H2a H2b].
    rewrite list_lookup_fmap.
    destruct Hp as [->| ->].
    + rewrite H1a, H2a, Hop. done.
    + rewrite H1b, H2b, Hop. done.
  - rewrite !lookup_ge_None_2; [done| |].
    + rewrite length_fmap, length_stage_at. lia.
    + rewrite length_stage_at. lia.
Qed.

Lemma stage_at_cancel (op1 op2 : R -> V -> V -> V * V) (g g' : V -> V)
    (rs1 rs2 : list R) base1 stride1 base2 stride2 log_n log_m (w : list V) :
  0 <= log_m < log_n -> Z.of_nat (length w) = 2 ^ log_n ->
  (forall i, 0 <= i < 2 ^ log_m -> exists r1 r2,
     rs1 !! Z.to_nat (base1 + stride1 * i) = Some r1 /\
     rs2 !! Z.to_nat (base2 + stride2 * i) = Some r2 /\
     forall x y, op2 r2 (g (op1 r1 x y).1) (g (op1 r1 x y).2) = (g' x, g' y)) ->
  stage_at op2 rs2 base2 stride2 log_n log_m
    (g <$> stage_at op1 rs1 base1 stride1 log_n log_m w)
  = g' <$> w.
Proof.
  intros Hm Hlen Hrs. apply list_eq. intros n.
  destruct (decide (n < length w)%nat) as [Hn|Hn].
  - destruct (pair_of_position w log_n log_m n Hm Hlen Hn)
      as (i & q & x & y & Hi & Hq & Hx & Hy & Hp).
    destruct (Hrs i Hi) as (r1 & r2 & Hr1 & Hr2 & Hop).
    destruct (stage_lookup op1 rs1 base1 stride1 log_n log_m w Hm) as [H1 _].
    destruct (H1 i q x y r1 Hi Hq Hr1 Hx Hy) as [H1a H1b].
    set (u := stage_at op1 rs1 base1 stride1 log_n log_m w) in *.
    destruct (stage_lookup op2 rs2 base2 stride2 log_n log_m (g <$> u) Hm)
      as [H2 _].
    destruct (H2 i q (g (op1 r1 x y).1) (g (op1 r1 x y).2) r2 Hi Hq Hr2)
      as [H2a H2b].
    { by rewrite list_lookup_fmap, H1a. }
    { by rewrite list_lookup_fmap, H1b. }
    rewrite list_lookup_fmap.
    destruct Hp as [->| ->].
    + rewrite H2a, Hx, Hop. done.
    + rewrite H2b, Hy, Hop. done.
  - rewrite !lookup_ge_None_2; [done| |].
    + rewrite length_fmap. lia.
    + rewrite length_stage_at, length_fmap, length_stage_at. lia.
Qed.

End StageAlgebra.

Section SpecAgrees.
Context {V R S : Type}.
Variable a : Arithmetic V R S.

Lemma forward_butterfly_update_pair r gap vs j :
  Spec.forward_butterfly a r gap vs j = update_pair (forward_pair a r) gap vs j.
Proof. done. Qed.

Lemma inverse_butterfly_update_pair r gap vs j :
  Spec.inverse_butterfly a r gap vs j = update_pair (inverse_pair a r) gap vs j.
Proof. done. Qed.

Lemma foldl_ext_eq {A B} (f g : A -> B -> A) (l : list B) (x : A) :
  (forall x b, f x b = g x b) -> foldl f x l = foldl g x l.
Proof.
  intros H. revert x. induction l as [|b l IH]; intros x; simpl; [done|].
  by rewrite H, IH.
Qed.

(** A stage of the specification, with its cursor at [c], is the stage
    whose group [i] uses the root at [c + i]. *)
Lemma spec_stage_at (butterfly : R -> Z -> list V -> Z -> list V)
    (op : R -> V -> V -> V * V) rs log_n log_m vs c :
  (forall r gap vs j, butterfly r gap vs j = update_pair (op r) gap vs j) ->
  0 <= log_m ->
  Spec.stage butterfly rs log_n log_m (vs, c)
  = (stage_at op rs c 1 log_n log_m vs, c + 2 ^ log_m).
Proof.
  intros Hb Hm. unfold Spec.stage, stage_at. rewrite (Z.shiftl_1_l log_m).
  assert (Hpos : 0 <= 2 ^ log_m) by (apply Z.pow_nonneg; lia).
  revert Hpos. generalize (2 ^ log_m). intros m Hpos.
  assert (Hnat : m = Z.of_nat (Z.to_nat m)) by lia.
  rewrite Hnat. clear Hnat Hpos. generalize (Z.to_nat m). clear m.
  intros n. induction n as [|n IH].
  - rewrite seqZ_nil by lia. simpl. f_equal. lia.
  - rewrite Nat2Z.inj_succ, <- Z.add_1_r, seqZ_snoc by lia.
    rewrite !foldl_snoc, IH, Z.add_0_l.
    replace (c + 1 * Z.of_nat n) with (c + Z.of_nat n) by lia.
    destruct (rs !! Z.to_nat (c + Z.of_nat n)) as [r|]; [|f_equal; lia].
    f_equal; [|lia]. unfold group. apply foldl_ext_eq. intros x b. apply Hb.
Qed.

Lemma spec_to_rev_forward_at rs log_n vs :
  1 <= log_n ->
  Spec.to_rev a rs log_n vs = forward_at a rs None log_n vs.
Proof.
  intros Hn. unfold Spec.to_rev, forward_at. simpl.
  set (F := fun vs log_m => stage_at (forward_pair a) rs (2 ^ log_m) 1 log_n log_m vs).
  assert (H : forall n : nat,
            foldl (fun st log_m => Spec.stage (Spec.forward_butterfly a) rs log_n log_m st)
                  (vs, 1) (seqZ 0 (Z.of_nat n))
            = (foldl F vs (seqZ 0 (Z.of_nat n)), 2 ^ Z.of_nat n)).
  { induction n as [|n IH].
    - by rewrite seqZ_nil by lia.
    - rewrite Nat2Z.inj_succ, <- Z.add_1_r, seqZ_snoc by lia.
      rewrite !foldl_snoc, IH, Z.add_0_l.
      rewrite (spec_stage_at _ (forward_pair a));
        [|apply forward_butterfly_update_pair|lia].
      f_equal. rewrite pow2_succ by lia. lia. }
  replace log_n with (Z.of_nat (Z.to_nat log_n)) at 1 by lia.
  rewrite H. simpl.
  rewrite (seqZ_last 0 (Z.of_nat (Z.to_nat log_n))) by lia.
  rewrite foldl_snoc. replace (Z.of_nat (Z.to_nat log_n)) with log_n by lia.
  by rewrite Z.add_0_l.
Qed.

(** The fused algorithm of the specification is the forward transform
    whose last stage uses [forward_pair_scaled]. *)
Lemma spec_to_rev_fused_forward_at rs (s : S) log_n vs :
  1 <= log_n ->
  2 ^ log_n <= Z.of_nat (length rs) ->
  Spec.to_rev_fused a rs s log_n vs = forward_at a rs (Some s) log_n vs.
Proof.
  intros Hn Hrs. unfold Spec.to_rev_fused, forward_at. simpl.
  set (F := fun vs log_m => stage_at (forward_pair a) rs (2 ^ log_m) 1 log_n log_m vs).
  assert (H : forall n : nat,
            foldl (fun st log_m => Spec.stage (Spec.forward_butterfly a) rs log_n log_m st)
                  (vs, 1) (seqZ 0 (Z.of_nat n))
            = (foldl F vs (seqZ 0 (Z.of_nat n)), 2 ^ Z.of_nat n)).
  { induction n as [|n IH].
    - by rewrite seqZ_nil by lia.
    - rewrite Nat2Z.inj_succ, <- Z.add_1_r, seqZ_snoc by lia.
      rewrite !foldl_snoc, IH, Z.add_0_l.
      rewrite (spec_stage_at _ (forward_pair a));
        [|apply forward_butterfly_update_pair|lia].
      f_equal. rewrite pow2_succ by lia. lia. }
  replace (log_n - 1) with (Z.of_nat (Z.to_nat (log_n - 1))) at 2 by lia.
  rewrite H. cbn [fst].
  replace (Z.of_nat (Z.to_nat (log_n - 1))) with (log_n - 1) by lia.
  rewrite (spec_stage_at _
             (fun scaled_r x y =>
                (add a (mul_scalar a (guard a x) s) (mul_root a y scaled_r),
                 sub a (mul_scalar a (guard a x) s) (mul_root a y scaled_r))));
    [|done|lia].
  cbn [fst]. unfold stage_at. rewrite Z.shiftl_1_l.
  generalize (foldl F vs (seqZ 0 (log_n - 1))). intros w.
  assert (Hp := pow2_succ (log_n - 1) ltac:(lia)).
  replace (log_n - 1 + 1) with log_n in Hp by lia.
  assert (Hpos : 0 < 2 ^ (log_n - 1)) by (apply Z.pow_pos_nonneg; lia).
  assert (Hgen : forall k : nat, Z.of_nat k <= 2 ^ (log_n - 1) ->
            foldl (fun vs i =>
                     match Spec.combined_roots a rs s log_n !! Z.to_nat (0 + 1 * i) with
                     | Some r =>
                         group (fun x y =>
                                  (add a (mul_scalar a (guard a x) s) (mul_root a y r),
                                   sub a (mul_scalar a (guard a x) s) (mul_root a y r)))
                               log_n (log_n - 1) i vs
                     | None => vs
                     end) w (seqZ 0 (Z.of_nat k))
            = foldl (fun vs i =>
                       match rs !! Z.to_nat (2 ^ (log_n - 1) + 1 * i) with
                       | Some r => group (forward_pair_scaled a s r) log_n (log_n - 1) i vs
                       | None => vs
                       end) w (seqZ 0 (Z.of_nat k))).
  { induction k as [|k IH]; intros Hk.
    - by rewrite seqZ_nil by lia.
    - rewrite Nat2Z.inj_succ, <- Z.add_1_r, seqZ_snoc by lia.
      rewrite !foldl_snoc, IH by lia. rewrite !Z.add_0_l.
      unfold Spec.combined_roots. rewrite list_lookup_fmap.
      rewrite lookup_take_lt by lia. rewrite lookup_drop.
      replace (Z.to_nat (2 ^ (log_n - 1)) + Z.to_nat (1 * Z.of_nat k))%nat
        with (Z.to_nat (2 ^ (log_n - 1) + 1 * Z.of_nat k)) by lia.
      by destruct (rs !! Z.to_nat (2 ^ (log_n - 1) + 1 * Z.of_nat k)). }
  specialize (Hgen (Z.to_nat (2 ^ (log_n - 1))) ltac:(lia)).
  by replace (Z.of_nat (Z.to_nat (2 ^ (log_n - 1)))) with (2 ^ (log_n - 1))
    in Hgen by lia.
Qed.

Lemma length_combined_roots rs (s : S) log_n :
  1 <= log_n ->
  2 ^ log_n <= Z.of_nat (length rs) ->
  Z.of_nat (length (Spec.combined_roots a rs s log_n)) = 2 ^ (log_n - 1).
Proof.
  intros Hn Hrs. unfold Spec.combined_roots.
  assert (Hp := pow2_succ (log_n - 1) ltac:(lia)).
  replace (log_n - 1 + 1) with log_n in Hp by lia.
  assert (Hpos : 0 < 2 ^ (log_n - 1)) by (apply Z.pow_pos_nonneg; lia).
  rewrite length_fmap, length_take, length_drop. lia.
Qed.

Lemma spec_from_rev_inverse_at rs log_n vs :
  1 <= log_n ->
  Spec.from_rev a rs log_n vs = inverse_at a rs None log_n vs.
Proof.
  intros Hn. unfold Spec.from_rev, inverse_at. simpl.
  set (F := fun vs log_m =>
              stage_at (inverse_pair a) rs (2 ^ log_n - 2 ^ (log_m + 1) + 1) 1
                       log_n log_m vs).
  assert (H : forall n : nat, Z.of_nat n <= log_n - 1 ->
            foldl (fun st log_m => Spec.stage (Spec.inverse_butterfly a) rs log_n log_m st)
                  (vs, 1) (reverse (seqZ (log_n - Z.of_nat n) (Z.of_nat n)))
            = (foldl F vs (reverse (seqZ (log_n - Z.of_nat n) (Z.of_nat n))),
               2 ^ log_n - 2 ^ (log_n - Z.of_nat n) + 1)).
  { induction n as [|n IH]; intros Hle.
    - rewrite seqZ_nil by lia. simpl. f_equal. rewrite Z.sub_0_r. lia.
    - rewrite Nat2Z.inj_succ, (seqZ_cons (log_n - Z.succ (Z.of_nat n))) by lia.
      replace (Z.succ (log_n - Z.succ (Z.of_nat n))) with (log_n - Z.of_nat n) by lia.
      replace (Z.pred (Z.succ (Z.of_nat n))) with (Z.of_nat n) by lia.
      rewrite reverse_cons, !foldl_snoc, IH by lia.
      rewrite (spec_stage_at _ (inverse_pair a));
        [|apply inverse_butterfly_update_pair|lia].
      unfold F at 2.
      replace (log_n - Z.succ (Z.of_nat n) + 1) with (log_n - Z.of_nat n) by lia.
      f_equal.
      assert (Hs := pow2_succ (log_n - Z.succ (Z.of_nat n)) ltac:(lia)).
      replace (log_n - Z.succ (Z.of_nat n) + 1) with (log_n - Z.of_nat n) in Hs by lia.
      lia. }
  specialize (H (Z.to_nat (log_n - 1)) ltac:(lia)).
  replace (Z.of_nat (Z.to_nat (log_n - 1))) with (log_n - 1) in H by lia.
  replace (log_n - (log_n - 1)) with 1 in H by lia.
  rewrite H. change (2 ^ 1) with 2.
  unfold stage_at. change (Z.shiftl 1 0) with 1. rewrite seqZ_one. simpl.
  replace (2 ^ log_n - 1 + 0 * 0) with (2 ^ log_n - 2 + 1) by lia.
  destruct (rs !! Z.to_nat (2 ^ log_n - 2 + 1)) as [r|]; [|done].
  unfold group. rewrite Z.shiftl_1_l, Z.shiftl_0_l.
  assert (Hs := pow2_succ (log_n - 1) ltac:(lia)).
  replace (log_n - 1 + 1) with log_n in Hs by lia.
  replace (2 ^ log_n / 2) with (2 ^ (log_n - 0 - 1)).
  - apply foldl_ext_eq. done.
  - rewrite Hs. replace (log_n - 0 - 1) with (log_n - 1) by lia.
    symmetry. rewrite Z.mul_comm. apply Z.div_mul. lia.
Qed.

End SpecAgrees.

(** ** The indices a call reads and touches *)

Lemma forward_reads_seqZ log_n :
  0 <= log_n -> forward_reads log_n = seqZ 1 (2 ^ log_n - 1).
Proof.
  intros Hn. unfold forward_reads.
  replace log_n with (Z.of_nat (Z.to_nat log_n)) by lia.
  generalize (Z.to_nat log_n). clear. intros n.
  induction n as [|n IH].
  - by rewrite !seqZ_nil by (simpl; lia).
  - rewrite Nat2Z.inj_succ, <- Z.add_1_r, seqZ_snoc by lia.
    rewrite flat_map_app, IH. simpl. rewrite app_nil_r, Z.add_0_l.
    assert (Hpos : 0 < 2 ^ Z.of_nat n) by (apply Z.pow_pos_nonneg; lia).
    rewrite (fmap_add_seqZ (2 ^ Z.of_nat n) 0), Z.add_0_r.
    rewrite pow2_succ by lia.
    replace (2 * 2 ^ Z.of_nat n - 1) with ((2 ^ Z.of_nat n - 1) + 2 ^ Z.of_nat n) by lia.
    rewrite seqZ_app by lia. do 2 f_equal. lia.
Qed.

Lemma inverse_reads_seqZ log_n :
  0 <= log_n -> inverse_reads log_n = seqZ 1 (2 ^ log_n - 1).
Proof.
  intros Hn. unfold inverse_reads.
  set (rd := fun log_m =>
               (fun i => 2 ^ log_n - 2 ^ (log_m + 1) + 1 + i) <$> seqZ 0 (2 ^ log_m)).
  assert (H : forall n : nat, Z.of_nat n <= log_n ->
            flat_map rd (reverse (seqZ (log_n - Z.of_nat n) (Z.of_nat n)))
            = seqZ 1 (2 ^ log_n - 2 ^ (log_n - Z.of_nat n))).
  { induction n as [|n IH]; intros Hle.
    - rewrite Z.sub_0_r, Z.sub_diag. by rewrite !seqZ_nil by lia.
    - rewrite Nat2Z.inj_succ, (seqZ_cons (log_n - Z.succ (Z.of_nat n))) by lia.
      replace (Z.succ (log_n - Z.succ (Z.of_nat n))) with (log_n - Z.of_nat n) by lia.
      replace (Z.pred (Z.succ (Z.of_nat n))) with (Z.of_nat n) by lia.
      rewrite reverse_cons, flat_map_app, IH by lia. simpl. rewrite app_nil_r.
      unfold rd.
      replace (log_n - Z.succ (Z.of_nat n) + 1) with (log_n - Z.of_nat n) by lia.
      set (t := log_n - Z.succ (Z.of_nat n)).
      assert (Hs := pow2_succ t ltac:(lia)).
      replace (t + 1) with (log_n - Z.of_nat n) in Hs by lia.
      assert (Hpos : 0 < 2 ^ t) by (apply Z.pow_pos_nonneg; lia).
      assert (Hle' := pow2_le_mono (log_n - Z.of_nat n) log_n ltac:(lia)).
      rewrite (fmap_add_seqZ (2 ^ log_n - 2 ^ (log_n - Z.of_nat n) + 1) 0), Z.add_0_r.
      replace (2 ^ log_n - 2 ^ t)
        with ((2 ^ log_n - 2 ^ (log_n - Z.of_nat n)) + 2 ^ t) by lia.
      rewrite seqZ_app by lia. do 2 f_equal. lia. }
  specialize (H (Z.to_nat log_n) ltac:(lia)).
  replace (Z.of_nat (Z.to_nat log_n)) with log_n in H by lia.
  rewrite Z.sub_diag in H. exact H.
Qed.

Lemma stage_accesses_within log_n log_m :
  0 <= log_m < log_n -> Forall (within (2 ^ log_n)) (stage_accesses log_n log_m).
Proof.
  intros Hm. destruct (pow2_split log_n log_m Hm) as (E1 & E2 & Hg & Hmpos).
  unfold stage_accesses, group_accesses.
  rewrite !Z.shiftl_1_l.
  apply Forall_flat_map, Forall_seqZ. intros i Hi.
  rewrite Z.shiftl_mul_pow2 by lia.
  apply Forall_flat_map, Forall_seqZ. intros j Hj.
  unfold pair_accesses. repeat apply Forall_cons_2; simpl; try nia.
  apply Forall_nil_2.
Qed.

Lemma forward_accesses_within log_n :
  Forall (within (2 ^ log_n)) (forward_accesses log_n).
Proof.
  unfold forward_accesses. apply Forall_flat_map, Forall_seqZ.
  intros log_m Hm. apply stage_accesses_within. lia.
Qed.

Lemma inverse_accesses_within log_n :
  Forall (within (2 ^ log_n)) (inverse_accesses log_n).
Proof.
  unfold inverse_accesses. apply Forall_flat_map, Forall_forall.
  intros log_m Hm. apply stage_accesses_within.
  rewrite elem_of_reverse, elem_of_seqZ in Hm. lia.
Qed.

(** The elements from [2 ^ log_n] on are not written. *)
Section Beyond.
Context {V R S : Type}.
Variable a : Arithmetic V R S.

Lemma foldl_stage_at_beyond (op : Z -> R -> V -> V -> V * V) (rs : list R)
    (base : Z -> Z) stride log_n (ks : list Z) (w : list V) p :
  Forall (fun k => 0 <= k < log_n) ks -> 0 <= p -> 2 ^ log_n <= p ->
  foldl (fun vs log_m => stage_at (op log_m) rs (base log_m) stride log_n log_m vs)
        w ks !! Z.to_nat p
  = w !! Z.to_nat p.
Proof.
  intros Hks Hp Hle. revert w. induction Hks as [|k ks Hk Hks IH]; intros w;
    simpl; [done|].
  rewrite IH.
  destruct (stage_lookup (op k) rs (base k) stride log_n k w Hk) as [_ H].
  by apply H.
Qed.

Lemma forward_at_beyond rs sc log_n (w : list V) p :
  1 <= log_n -> 0 <= p -> 2 ^ log_n <= p ->
  forward_at a rs sc log_n w !! Z.to_nat p = w !! Z.to_nat p.
Proof.
  intros Hn Hp Hle. unfold forward_at.
  destruct (stage_lookup (last_forward a sc) rs (2 ^ (log_n - 1)) 1 log_n
              (log_n - 1)
              (foldl (fun vs log_m =>
                        stage_at (forward_pair a) rs (2 ^ log_m) 1 log_n log_m vs)
                     w (seqZ 0 (log_n - 1)))
              ltac:(lia)) as [_ H].
  rewrite H by done.
  apply (foldl_stage_at_beyond (fun _ => forward_pair a) rs (fun k => 2 ^ k));
    [|done|done].
  apply Forall_seqZ. lia.
Qed.

Lemma inverse_at_beyond rs sc log_n (w : list V) p :
  1 <= log_n -> 0 <= p -> 2 ^ log_n <= p ->
  inverse_at a rs sc log_n w !! Z.to_nat p = w !! Z.to_nat p.
Proof.
  intros Hn Hp Hle. unfold inverse_at.
  destruct (stage_lookup (last_inverse a sc) rs (2 ^ log_n - 1) 0 log_n 0
              (foldl (fun vs log_m =>
                        stage_at (inverse_pair a) rs
                                 (2 ^ log_n - 2 ^ (log_m + 1) + 1) 1 log_n log_m vs)
                     w (reverse (seqZ 1 (log_n - 1))))
              ltac:(lia)) as [_ H].
  rewrite H by done.
  apply (foldl_stage_at_beyond (fun _ => inverse_pair a) rs
           (fun k => 2 ^ log_n - 2 ^ (k + 1) + 1)); [|done|done].
  apply Forall_forall. intros k Hk.
  rewrite elem_of_reverse, elem_of_seqZ in Hk. lia.
Qed.

End Beyond.

(** ** What no run changes *)

Section Frame.
Context {V R S : Type}.
Variable bad_shift : Z -> Z -> option Z.
Local Abbreviation M := (M V R S).
Local Abbreviation memory := (memory V R S).
Local Abbreviation keeps m := (@keeps V R S _ m).

Lemma same_frame_refl (st : memory) : same_frame st st.
Proof. by repeat split. Qed.

Lemma same_frame_trans (st0 st1 st2 : memory) :
  same_frame st0 st1 -> same_frame st1 st2 -> same_frame st0 st2.
Proof.
  intros (H1 & H2 & H3 & H4) (K1 & K2 & K3 & K4).
  repeat split; congruence.
Qed.

Lemma keeps_ret {A} (x : A) : keeps (ret x).
Proof. intros st. apply same_frame_refl. Qed.

Lemma keeps_bind {A B} (m : M A) (f : A -> M B) :
  keeps m -> (forall x, keeps (f x)) -> keeps (bind m f).
Proof.
  intros Hm Hf st. unfold bind. specialize (Hm st).
  destruct (m st) as [x st'|u st']; simpl in *; [|done].
  eapply same_frame_trans; [exact Hm|apply Hf].
Qed.

Lemma keeps_for_each ks (body : Z -> M unit) :
  (forall k, keeps (body k)) -> keeps (for_each ks body).
Proof.
  intros Hb. induction ks as [|k ks IH]; simpl.
  - apply keeps_ret.
  - apply keeps_bind; [apply Hb|]. intros _. apply IH.
Qed.

Lemma keeps_shl site x k : keeps (shl bad_shift site x k).
Proof.
  intros st. unfold shl. destruct (_ && _); [apply same_frame_refl|].
  destruct (bad_shift x k); apply same_frame_refl.
Qed.

Lemma keeps_arithmetic : keeps arithmetic.
Proof. intros st. apply same_frame_refl. Qed.

Lemma keeps_scalar_arg : keeps scalar_arg.
Proof. intros st. apply same_frame_refl. Qed.

Lemma keeps_get_root_index : keeps get_root_index.
Proof. intros st. apply same_frame_refl. Qed.

Lemma keeps_set_root_index k : keeps (set_root_index k).
Proof. intros st. by repeat split. Qed.

Lemma keeps_load_root k : keeps (load_root k).
Proof.
  intros st. unfold load_root. destruct (roots st !! _); by repeat split.
Qed.

Lemma keeps_load_value j : keeps (load_value j).
Proof.
  intros st. unfold load_value. destruct (values st !! _); by repeat split.
Qed.

Lemma keeps_store_value j x : keeps (store_value j x).
Proof.
  intros st. unfold store_value. destruct (values st !! _); repeat split.
  simpl. apply length_insert.
Qed.

Create HintDb keeps.
Hint Resolve keeps_ret keeps_bind keeps_for_each keeps_shl keeps_arithmetic
  keeps_scalar_arg keeps_get_root_index keeps_set_root_index keeps_load_root
  keeps_load_value keeps_store_value : keeps.

Lemma keeps_next_root : keeps next_root.
Proof. unfold next_root. auto with keeps. Qed.

Lemma keeps_current_root : keeps current_root.
Proof. unfold current_root. auto with keeps. Qed.

Lemma keeps_scaled fetch s : keeps fetch -> keeps (scaled fetch s).
Proof. intros H. unfold scaled. auto 6 with keeps. Qed.

Lemma keeps_stage log_n log_m fetch butterfly :
  keeps fetch -> (forall r gap j, keeps (butterfly r gap j)) ->
  keeps (stage bad_shift log_n log_m fetch butterfly).
Proof.
  intros Hf Hb. unfold stage, for_range.
  repeat (apply keeps_bind; [auto with keeps|intros ?]).
  apply keeps_for_each. intros i.
  repeat (apply keeps_bind; [auto with keeps|intros ?]).
  apply keeps_for_each. intros j. apply Hb.
Qed.

Lemma keeps_butterfly_to_rev r gap j : keeps (butterfly_to_rev r gap j).
Proof. unfold butterfly_to_rev. auto 8 with keeps. Qed.

Lemma keeps_butterfly_to_rev_scaled s r gap j :
  keeps (butterfly_to_rev_scaled s r gap j).
Proof. unfold butterfly_to_rev_scaled. auto 8 with keeps. Qed.

Lemma keeps_butterfly_from_rev r gap j : keeps (butterfly_from_rev r gap j).
Proof. unfold butterfly_from_rev. auto 8 with keeps. Qed.

Lemma keeps_butterfly_from_rev_scaled s r gap j :
  keeps (butterfly_from_rev_scaled s r gap j).
Proof. unfold butterfly_from_rev_scaled. auto 8 with keeps. Qed.

Hint Resolve keeps_next_root keeps_current_root keeps_scaled keeps_stage
  keeps_butterfly_to_rev keeps_butterfly_to_rev_scaled
  keeps_butterfly_from_rev keeps_butterfly_from_rev_scaled : keeps.

Lemma keeps_transform_to_rev log_n : keeps (transform_to_rev bad_shift log_n).
Proof.
  unfold transform_to_rev, for_range.
  repeat (apply keeps_bind; [auto with keeps|intros ?]).
  lazymatch goal with
  | |- keeps (match ?sc with _ => _ end) => destruct sc; auto with keeps
  end.
Qed.

Lemma keeps_transform_from_rev log_n : keeps (transform_from_rev bad_shift log_n).
Proof.
  unfold transform_from_rev, for_down.
  repeat (apply keeps_bind; [auto with keeps|intros ?]).
  lazymatch goal with
  | |- keeps (match ?sc with _ => _ end) => destruct sc; auto with keeps
  end.
Qed.

End Frame.

(** ** Examples of calls *)

Example to_rev_four :
  result (call_to_rev strict exact_handler [1; 2; 3; 4] 2 [0; 2; 3; 5] None)
  = Some [37; -23; -35; 25].
Proof. reflexivity. Qed.

Example from_rev_four_scaled :
  result (call_from_rev strict exact_handler [1; 2; 3; 4] 2 [0; 2; 3; 5] (Some 2))
  = Some [20; -10; -40; 10].
Proof. reflexivity. Qed.

(** ** Folding the scalar into the last stage *)

Section Fusion.
Context {V R S : Type}.
Variable a : Arithmetic V R S.
Variable s : S.

Lemma forward_at_scaled rs log_n (w : list V) :
  fusion_law a s -> scalar_distributes a s ->
  1 <= log_n ->
  Z.of_nat (length w) = 2 ^ log_n -> Z.of_nat (length rs) = 2 ^ log_n ->
  forward_at a rs (Some s) log_n w
  = (fun x => mul_scalar a x s) <$> forward_at a rs None log_n w.
Proof.
  intros Hfuse [Hadd Hsub] Hn Hw Hrs. unfold forward_at. simpl.
  assert (Hp := pow2_succ (log_n - 1) ltac:(lia)).
  replace (log_n - 1 + 1) with log_n in Hp by lia.
  assert (Hpos : 0 < 2 ^ (log_n - 1)) by (apply Z.pow_pos_nonneg; lia).
  apply stage_at_fmap; [lia| |].
  - rewrite length_foldl_preserving; [done|]. intros l b. apply length_stage_at.
  - intros i Hi.
    destruct (lookup_lt_is_Some_2 rs (Z.to_nat (2 ^ (log_n - 1) + 1 * i))
                ltac:(lia)) as [r Hr].
    exists r. split; [done|]. intros x y.
    unfold forward_pair_scaled, forward_pair. simpl.
    by rewrite Hfuse, Hadd, Hsub.
Qed.

Lemma inverse_at_scaled rs log_n (w : list V) :
  fusion_law a s -> guard_is_identity a ->
  1 <= log_n ->
  Z.of_nat (length w) = 2 ^ log_n -> Z.of_nat (length rs) = 2 ^ log_n ->
  inverse_at a rs (Some s) log_n w
  = (fun x => mul_scalar a x s) <$> inverse_at a rs None log_n w.
Proof.
  intros Hfuse Hguard Hn Hw Hrs. unfold inverse_at. simpl.
  assert (Hpos : 0 < 2 ^ log_n) by (apply Z.pow_pos_nonneg; lia).
  apply stage_at_fmap; [lia| |].
  - rewrite length_foldl_preserving; [done|]. intros l b. apply length_stage_at.
  - intros i Hi.
    destruct (lookup_lt_is_Some_2 rs (Z.to_nat (2 ^ log_n - 1 + 0 * i))
                ltac:(lia)) as [r Hr].
    exists r. split; [done|]. intros x y.
    unfold inverse_pair_scaled, inverse_pair. simpl.
    by rewrite Hfuse, (Hguard x).
Qed.

End Fusion.

(** ** The round trip over a commutative ring *)

Lemma forward_at_stages {V R S : Type} (a : Arithmetic V R S) (rs : list R)
    (log_n : Z) (w : list V) :
  1 <= log_n ->
  forward_at a rs None log_n w
  = foldl (fun vs log_m => stage_at (forward_pair a) rs (2 ^ log_m) 1 log_n log_m vs)
          w (seqZ 0 log_n).
Proof.
  intros Hn. unfold forward_at. simpl.
  rewrite (seqZ_last 0 log_n) by lia. by rewrite foldl_snoc, Z.add_0_l.
Qed.

Lemma list_fmap_id_ext {A} (f : A -> A) (l : list A) :
  (forall x, f x = x) -> f <$> l = l.
Proof.
  intros Hf. induction l as [|x l IH]; [done|]. by rewrite fmap_cons, Hf, IH.
Qed.

Section RoundTrip.
Variable T : Type.
Variables (rO rI : T) (radd rmul rsub : T -> T -> T) (ropp : T -> T).
Hypothesis Rth : ring_theory rO rI radd rmul rsub ropp eq.
Add Ring Tring : Rth.

Local Abbreviation ring_arithmetic := (ring_arithmetic T radd rmul rsub).
Local Abbreviation two_pow := (two_pow T rI radd rmul).
Local Abbreviation inverse_tables := (inverse_tables T rI rmul).

Local Abbreviation F fwd log_n :=
  (fun vs log_m =>
     stage_at (forward_pair ring_arithmetic) fwd (2 ^ log_m) 1 log_n log_m vs).
Local Abbreviation I inv log_n :=
  (fun vs log_m =>
     stage_at (inverse_pair ring_arithmetic) inv
              (2 ^ log_n - 2 ^ (log_m + 1) + 1) 1 log_n log_m vs).

(** The inverse stages [log_n - 1, ..., log_n - k] undo the forward stages
    of the same numbers and leave every element multiplied by [2 ^ k]. *)
Lemma inverse_stages_undo fwd inv log_n (w : list T) (k : nat) :
  inverse_tables log_n fwd inv ->
  Z.of_nat (length w) = 2 ^ log_n ->
  Z.of_nat k <= log_n ->
  foldl (I inv log_n) (foldl (F fwd log_n) w (seqZ 0 log_n))
        (reverse (seqZ (log_n - Z.of_nat k) (Z.of_nat k)))
  = rmul (two_pow k) <$> foldl (F fwd log_n) w (seqZ 0 (log_n - Z.of_nat k)).
Proof.
  intros Htab Hw. induction k as [|k IH]; intros Hk.
  - rewrite Z.sub_0_r. rewrite (seqZ_nil log_n) by lia. simpl.
    symmetry. apply list_fmap_id_ext. intros x. ring.
  - rewrite Nat2Z.inj_succ, (seqZ_cons (log_n - Z.succ (Z.of_nat k))) by lia.
    replace (Z.succ (log_n - Z.succ (Z.of_nat k))) with (log_n - Z.of_nat k) by lia.
    replace (Z.pred (Z.succ (Z.of_nat k))) with (Z.of_nat k) by lia.
    rewrite reverse_cons, foldl_snoc, IH by lia.
    set (t := log_n - Z.succ (Z.of_nat k)).
    replace (log_n - Z.of_nat k) with (t + 1) by lia.
    rewrite seqZ_snoc by lia. rewrite foldl_snoc, Z.add_0_l.
    apply stage_at_cancel; [lia| |].
    + rewrite length_foldl_preserving; [done|]. intros l b. apply length_stage_at.
    + intros i Hi. destruct (Htab t i ltac:(lia) Hi) as (r & r' & Hr & Hr' & Hinv).
      exists r, r'. split; [by rewrite Z.mul_1_l|]. split; [by rewrite Z.mul_1_l|].
      intros x y. unfold inverse_pair, forward_pair. simpl. f_equal; [ring|].
      transitivity (rmul (rmul (rmul (radd rI rI) (two_pow k)) y) (rmul r r'));
        [ring|]. rewrite Hinv. ring.
Qed.

Lemma inverse_at_forward_at fwd inv log_n (w : list T) (s : T) :
  1 <= log_n ->
  inverse_tables log_n fwd inv ->
  rmul (two_pow (Z.to_nat log_n)) s = rI ->
  Z.of_nat (length w) = 2 ^ log_n ->
  inverse_at ring_arithmetic inv (Some s) log_n
    (forward_at ring_arithmetic fwd None log_n w)
  = w.
Proof.
  intros Hn Htab Hs Hw. rewrite forward_at_stages by lia.
  unfold inverse_at.
  assert (Hundo := inverse_stages_undo fwd inv log_n w (Z.to_nat (log_n - 1))
                     Htab Hw ltac:(lia)).
  replace (Z.of_nat (Z.to_nat (log_n - 1))) with (log_n - 1) in Hundo by lia.
  replace (log_n - (log_n - 1)) with 1 in Hundo by lia.
  rewrite Hundo, seqZ_one. simpl.
  rewrite <- (list_fmap_id_ext (fun x => x) w) at 2 by done.
  apply stage_at_cancel; [lia|done|].
  intros i Hi. change (2 ^ 0) with 1 in Hi. assert (i = 0) as -> by lia.
  destruct (Htab 0 0 ltac:(lia) ltac:(simpl; lia)) as (r & r' & Hr & Hr' & Hinv).
  exists r, r'. split; [exact Hr|]. split.
  { rewrite <- Hr'. do 2 f_equal. simpl. lia. }
  intros x y. unfold inverse_pair_scaled, forward_pair. simpl.
  replace (Z.to_nat log_n) with (Datatypes.S (Z.to_nat (log_n - 1))) in Hs by lia.
  simpl in Hs. set (c := two_pow (Z.to_nat (log_n - 1))) in *.
  f_equal.
  - transitivity (rmul (rmul (rmul (radd rI rI) c) s) x); [ring|].
    rewrite Hs. ring.
  - transitivity (rmul (rmul (rmul (rmul (radd rI rI) c) s) y) (rmul r r'));
      [ring|]. rewrite Hs, Hinv. ring.
Qed.

End RoundTrip.

(** [transform_to_rev] on one element, where the shift by [-1] that sets [m]
    yields a non-zero value: the first group reads the root at index 1. *)
Lemma to_rev_one_element_reads {V R S : Type} (bad_shift : Z -> Z -> option Z)
    (h : DWTHandler V R S) (sc : option S) (v : V) (r : R) (g : Z) :
  bad_shift 1 (-1) = Some g -> 0 < wrap g ->
  call_to_rev bad_shift h [v] 0 [r] sc
  = Undefined (RootsOutOfBounds 1) (Memory [v] [r] sc h 2 [1] []).
Proof.
  intros Hb Hg. unfold call_to_rev, transform_to_rev, call_memory, bind.
  simpl. destruct sc; unfold stage, bind, shl; simpl;
    change (0 - 1) with (-1); rewrite Hb; unfold ret, for_range;
    rewrite (seqZ_cons 0) by lia; done.
Qed.

(** [transform_to_rev] with [log_n = 0] on two elements and two roots, where
    the shifter masks the count: [m = 1 << 63] and [gap = 1]; the first group
    applies [roots[1]] to the pair [(values[0], values[1])], the second
    finds no root. *)
Lemma to_rev_masking_two {V R S : Type} (h : DWTHandler V R S) (sc : option S)
    (x y : V) (r0 r1 : R) :
  call_to_rev masking h [x; y] 0 [r0; r1] sc
  = Undefined (RootsOutOfBounds 2)
      (Memory (update_pair (last_forward (arithmetic_ h) sc r1) 1 [x; y] 0)
              [r0; r1] sc h 3 [1; 2] [Get 0; Get 1; Put 0; Put 1]).
Proof.
  unfold call_to_rev, transform_to_rev, call_memory, bind.
  simpl. destruct sc; unfold stage, bind, shl; simpl;
    unfold ret, for_range, masking;
    rewrite (seqZ_cons 0) by (vm_compute; done);
    rewrite (seqZ_cons (Z.succ 0)) by (vm_compute; done); done.
Qed.

(** The same call with the assertions: the first one fails, the cursor
    being 1 and [m + i] being [2 ^ 63]. *)
Lemma to_rev_asserting_masking {V R S : Type} (h : DWTHandler V R S)
    (sc : option S) (vs : list V) (rs : list R) :
  call_to_rev_asserting masking h vs 0 rs sc
  = Undefined (CursorAssertion (2 ^ 63) 0 1) (Memory vs rs sc h 1 [] []).
Proof.
  unfold call_to_rev_asserting, transform_to_rev_asserting, call_memory, bind.
  simpl. destruct sc; unfold stage_asserting, bind, shl; simpl;
    unfold ret, for_range, masking;
    rewrite (seqZ_cons 0) by (vm_compute; done); done.
Qed.

(** * The statements of the specification *)

(** C1, as amended. For every [log_n >= 1], every buffer of [n = 2 ^ log_n]
    elements of a commutative ring whose operations the strategy computes
    exactly, every pair of root tables that belong together and every scalar
    [s] with [n * s = 1], [transform_to_rev] followed by
    [transform_from_rev] with the scalar [s] gives the buffer back, element
    for element. *)
Theorem round_trip (T : Type) (rO rI : T) (radd rmul rsub : T -> T -> T)
    (ropp : T -> T) (Rth : ring_theory rO rI radd rmul rsub ropp eq)
    (bad_shift : Z -> Z -> option Z) (vs : list T) (log_n : Z)
    (fwd inv : list T) (s : T) :
  1 <= log_n < size_bits ->
  Z.of_nat (length vs) = 2 ^ log_n ->
  Z.of_nat (length fwd) = 2 ^ log_n ->
  Z.of_nat (length inv) = 2 ^ log_n ->
  inverse_tables T rI rmul log_n fwd inv ->
  rmul (two_pow T rI radd rmul (Z.to_nat log_n)) s = rI ->
  round_trips bad_shift (ring_handler T radd rmul rsub) vs log_n fwd inv s.
Proof.
  intros Hn Hvs Hfwd Hinv Htab Hs.
  exists (forward_at (ring_arithmetic T radd rmul rsub) fwd None log_n vs).
  split.
  - by rewrite run_to_rev by lia.
  - rewrite run_from_rev; [| lia | rewrite length_forward_at; lia | lia].
    simpl. f_equal.
    by apply (inverse_at_forward_at T rO rI radd rmul rsub ropp Rth); try lia.
Qed.

Example to_rev_mod17 :
  result (call_to_rev strict handler_mod17 (mod17 [3; 1; 4; 1]) 2
                      (mod17 [1; 4; 2; 8]) None)
  = Some (mod17 [12; 9; 14; 11]).
Proof. vm_compute. reflexivity. Qed.

(** The example of the specification for [n = 4]: the forward transform
    leaves the values of the polynomial at the odd powers of [psi], in
    bit-reversed order: [psi ^ 1, psi ^ 5, psi ^ 3, psi ^ 7], which modulo
    17 are [2, 15, 8, 9]. *)
Example to_rev_mod17_evaluates :
  result (call_to_rev strict handler_mod17 (mod17 [3; 1; 4; 1]) 2
                      (mod17 [1; 4; 2; 8]) None)
  = Some (eval17 (mod17 [3; 1; 4; 1]) <$> mod17 [2; 15; 8; 9]).
Proof. vm_compute. reflexivity. Qed.

Lemma round_trip_witness :
  round_trips strict handler_mod17 (mod17 [3; 1; 4; 1]) 2
              (mod17 [1; 4; 2; 8]) (mod17 [1; 9; 15; 13]) (Zmod.of_Z 17 13).
Proof.
  apply (round_trip (Zmod 17) Zmod.zero Zmod.one Zmod.add Zmod.mul Zmod.sub
           Zmod.opp (Zmod.ring_theory 17) strict (mod17 [3; 1; 4; 1]) 2
           (mod17 [1; 4; 2; 8]) (mod17 [1; 9; 15; 13]) (Zmod.of_Z 17 13)).
  - unfold size_bits; lia.
  - reflexivity.
  - reflexivity.
  - reflexivity.
  - intros log_m i Hm Hi.
    assert (Hcases : log_m = 0 /\ i = 0 \/ log_m = 1 /\ i = 0 \/ log_m = 1 /\ i = 1).
    { assert (log_m = 0 \/ log_m = 1) as [->| ->] by lia; simpl in Hi; lia. }
    destruct Hcases as [[-> ->]|[[-> ->]|[-> ->]]];
      do 2 eexists; (split; [reflexivity|split; [reflexivity|]]);
      vm_compute; reflexivity.
  - vm_compute. reflexivity.
Defined.

(** C1 as stated includes [k = 0]: on a one-element buffer neither transform
    returns, whether a shift by [-1] stops the run or yields a value. *)
Lemma round_trip_fails_for_one_element :
  ~ round_trips strict exact_handler [5] 0 [1] [1] 1 /\
  ~ round_trips masking exact_handler [5] 0 [1] [1] 1.
Proof.
  split.
  - intros (u & Hu & _). vm_compute in Hu. discriminate.
  - intros (u & Hu & _).
    rewrite (to_rev_one_element_reads masking exact_handler None 5 1
               (1 * 2 ^ (-1 mod size_bits))) in Hu by done.
    discriminate.
Qed.

(** C2, as amended. For every [log_n >= 1] and every call, with or without
    a scalar, [transform_to_rev] and [transform_from_rev] each read the
    root table at exactly the indices [1, ..., n - 1], once each and in an
    order that depends on [log_n] only (the ascending one); index [0] is
    never read. *)
Theorem root_table_consumption {V R S : Type} (bad_shift : Z -> Z -> option Z)
    (h : DWTHandler V R S) (vs : list V) (log_n : Z) (rs : list R)
    (sc : option S) :
  1 <= log_n < size_bits ->
  Z.of_nat (length vs) = 2 ^ log_n ->
  Z.of_nat (length rs) = 2 ^ log_n ->
  consumes_table bad_shift h vs log_n rs sc.
Proof.
  intros Hn Hvs Hrs. split.
  - eexists. split; [apply run_to_rev; lia|]. simpl.
    apply forward_reads_seqZ. lia.
  - eexists. split; [apply run_from_rev; lia|]. simpl.
    apply inverse_reads_seqZ. lia.
Qed.

Lemma root_table_consumption_witness :
  consumes_table strict exact_handler [1; 2; 3; 4] 2 [0; 2; 3; 5] (Some 2).
Proof.
  apply (root_table_consumption strict exact_handler [1; 2; 3; 4] 2 [0; 2; 3; 5]
           (Some 2)); [unfold size_bits; lia|reflexivity|reflexivity].
Defined.

(** C2 as stated fails for [log_n = 0], where [n - 1 = 0] entries should be
    read: [transform_from_rev] on a one-element buffer reads index [1] on a
    machine whose shifter masks the count, and stops at the shift by [-1]
    before it returns on the abstract machine. *)
Lemma root_table_consumption_fails_for_one_element :
  ~ consumes_table masking exact_handler [5] 0 [1] None /\
  ~ consumes_table strict exact_handler [5] 0 [1] None /\
  roots_read (final (call_from_rev masking exact_handler [5] 0 [1] None)) = [1].
Proof.
  split; [|split].
  - intros [_ (st & Hrun & _)]. vm_compute in Hrun. discriminate.
  - intros [_ (st & Hrun & _)]. vm_compute in Hrun. discriminate.
  - reflexivity.
Qed.

(** C3, as amended. For every [log_n >= 1] and without a scalar,
    [transform_to_rev] computes the algorithm of the specification: stages
    [log_m = 0, ..., log_n - 1]; in each, every group
    [i] of the [2 ^ log_m] reads the next root at a cursor that starts at 1
    and moves by one, sets [offset = i << (log_n - log_m)] and
    [gap = 1 << (log_n - log_m - 1)], and for every [j] in
    [offset, offset + gap) does [u = guard(values[j])],
    [v = mul_root(values[j+gap], r)], [values[j] = add(u,v)],
    [values[j+gap] = sub(u,v)]: [guard] is applied to [u] only. *)
Theorem to_rev_computes_spec {V R S : Type} (bad_shift : Z -> Z -> option Z)
    (h : DWTHandler V R S) (vs : list V) (log_n : Z) (rs : list R) :
  1 <= log_n < size_bits ->
  Z.of_nat (length vs) = 2 ^ log_n ->
  Z.of_nat (length rs) = 2 ^ log_n ->
  result (call_to_rev bad_shift h vs log_n rs None)
  = Some (Spec.to_rev (arithmetic_ h) rs log_n vs).
Proof.
  intros Hn Hvs Hrs. rewrite run_to_rev by lia. simpl.
  by rewrite spec_to_rev_forward_at by lia.
Qed.

Lemma to_rev_computes_spec_witness :
  result (call_to_rev strict exact_handler [1; 2; 3; 4] 2 [0; 2; 3; 5] None)
  = Some (Spec.to_rev exact_arithmetic [0; 2; 3; 5] 2 [1; 2; 3; 4]).
Proof.
  apply (to_rev_computes_spec strict exact_handler [1; 2; 3; 4] 2 [0; 2; 3; 5]);
    [unfold size_bits; lia|reflexivity|reflexivity].
Defined.

(** C3 as stated covers [log_n = 0], where the algorithm it words has no
    stage and leaves the one element as it is: [transform_to_rev] still runs
    its last stage there and does not return, whether the shift by [-1]
    that sets [m] stops the run or yields a value. *)
Lemma to_rev_computes_spec_fails_for_one_element :
  Spec.to_rev exact_arithmetic [1] 0 [5] = [5] /\
  result (call_to_rev strict exact_handler [5] 0 [1] None) = None /\
  result (call_to_rev masking exact_handler [5] 0 [1] None) = None.
Proof.
  split; [reflexivity|]. split; [reflexivity|].
  by rewrite (to_rev_one_element_reads masking exact_handler None 5 1
                (1 * 2 ^ (-1 mod size_bits))).
Qed.

(** C4, as amended. For every [log_n >= 1] and without a scalar,
    [transform_from_rev] computes the algorithm of the specification:
    stages [log_m = log_n - 1, ..., 1] with the offset, the
    gap and the cursor of the forward transform and the butterfly
    [u = values[j]], [v = values[j+gap]], [values[j] = guard(add(u,v))],
    [values[j+gap] = mul_root(sub(u,v), r)]; then the same butterfly once
    across the two halves of the buffer, [gap = n / 2]. *)
Theorem from_rev_computes_spec {V R S : Type} (bad_shift : Z -> Z -> option Z)
    (h : DWTHandler V R S) (vs : list V) (log_n : Z) (rs : list R) :
  1 <= log_n < size_bits ->
  Z.of_nat (length vs) = 2 ^ log_n ->
  Z.of_nat (length rs) = 2 ^ log_n ->
  result (call_from_rev bad_shift h vs log_n rs None)
  = Some (Spec.from_rev (arithmetic_ h) rs log_n vs).
Proof.
  intros Hn Hvs Hrs. rewrite run_from_rev by lia. simpl.
  by rewrite spec_from_rev_inverse_at by lia.
Qed.

Lemma from_rev_computes_spec_witness :
  result (call_from_rev strict exact_handler [1; 2; 3; 4] 2 [0; 2; 3; 5] None)
  = Some (Spec.from_rev exact_arithmetic [0; 2; 3; 5] 2 [1; 2; 3; 4]).
Proof.
  apply (from_rev_computes_spec strict exact_handler [1; 2; 3; 4] 2 [0; 2; 3; 5]);
    [unfold size_bits; lia|reflexivity|reflexivity].
Defined.

(** C4 as stated covers [log_n = 0], where the algorithm it words leaves
    the one element as it is (no stage, and [gap = n / 2 = 0] in the final
    one): [transform_from_rev] still runs its last stage there and does not
    return, whether the shift by [-1] that sets [gap] stops the run or
    yields a value. *)
Lemma from_rev_computes_spec_fails_for_one_element :
  Spec.from_rev exact_arithmetic [1] 0 [5] = [5] /\
  result (call_from_rev strict exact_handler [5] 0 [1] None) = None /\
  result (call_from_rev masking exact_handler [5] 0 [1] None) = None.
Proof. split; [reflexivity|]. split; reflexivity. Qed.

(** C5, as amended. If the strategy obeys the fusion law and [guard] is the
    identity, then for every buffer, [log_n >= 1], root table and scalar [s],
    [transform_from_rev] with the scalar [s] leaves the buffer that
    [transform_from_rev] without a scalar leaves, each element then
    multiplied by [s] with [mul_scalar]. *)
Theorem from_rev_scalar_fusion {V R S : Type} (bad_shift : Z -> Z -> option Z)
    (h : DWTHandler V R S) (vs : list V) (log_n : Z) (rs : list R) (s : S) :
  1 <= log_n < size_bits ->
  Z.of_nat (length vs) = 2 ^ log_n ->
  Z.of_nat (length rs) = 2 ^ log_n ->
  fusion_law (arithmetic_ h) s ->
  guard_is_identity (arithmetic_ h) ->
  result (call_from_rev bad_shift h vs log_n rs (Some s))
  = scale_all (arithmetic_ h) s
      <$> result (call_from_rev bad_shift h vs log_n rs None).
Proof.
  intros Hn Hvs Hrs Hfuse Hguard.
  rewrite !run_from_rev by lia. simpl. f_equal.
  by apply inverse_at_scaled; try lia.
Qed.

Lemma from_rev_scalar_fusion_witness :
  result (call_from_rev strict exact_handler [1; 2; 3; 4] 2 [0; 2; 3; 5] (Some 7))
  = scale_all exact_arithmetic 7
      <$> result (call_from_rev strict exact_handler [1; 2; 3; 4] 2 [0; 2; 3; 5] None).
Proof.
  apply (from_rev_scalar_fusion strict exact_handler [1; 2; 3; 4] 2 [0; 2; 3; 5] 7).
  - unfold size_bits; lia.
  - reflexivity.
  - reflexivity.
  - intros x r. simpl. lia.
  - intros x. reflexivity.
Defined.

(** C5 as stated fails for a strategy whose [guard] reduces: the branch with
    a scalar guards [values[j]] before the butterfly (line 193), the branch
    without does not (line 211). With [guard] the reduction modulo 17, the
    buffer [[20, 0]], the root 1 and the scalar 1, the first leaves [[3, 3]]
    and the second, multiplied by 1 afterwards, [[3, 20]]. It fails as well
    for a strategy whose products round: in fixed point with one decimal,
    the buffer [[0.5, 0]], the root 1.5 and the scalar 1.5 give
    [[0.7, 1.1]] and [[0.7, 1.0]]. *)
Lemma from_rev_scalar_fusion_not_bitwise :
  result (call_from_rev strict (lazy_handler 17) [20; 0] 1 [0; 1] (Some 1))
  <> scale_all (lazy_arithmetic 17) 1
       <$> result (call_from_rev strict (lazy_handler 17) [20; 0] 1 [0; 1] None)
  /\
  result (call_from_rev strict (fixed_point_handler 10) [5; 0] 1 [0; 15] (Some 15))
  <> scale_all (fixed_point_arithmetic 10) 15
       <$> result (call_from_rev strict (fixed_point_handler 10) [5; 0] 1 [0; 15]
                                 None).
Proof. split; vm_compute; discriminate. Qed.

Example from_rev_lazy_with_scalar :
  result (call_from_rev strict (lazy_handler 17) [20; 0] 1 [0; 1] (Some 1))
  = Some [3; 3].
Proof. reflexivity. Qed.

Example from_rev_lazy_without_scalar :
  result (call_from_rev strict (lazy_handler 17) [20; 0] 1 [0; 1] None)
  = Some [3; 20].
Proof. reflexivity. Qed.

Example from_rev_fixed_point_with_scalar :
  result (call_from_rev strict (fixed_point_handler 10) [5; 0] 1 [0; 15] (Some 15))
  = Some [7; 11].
Proof. reflexivity. Qed.

Example from_rev_fixed_point_without_scalar :
  scale_all (fixed_point_arithmetic 10) 15
    <$> result (call_from_rev strict (fixed_point_handler 10) [5; 0] 1 [0; 15] None)
  = Some [7; 10].
Proof. reflexivity. Qed.

(** C6, as amended. For every [log_n >= 1], [transform_to_rev] with the
    scalar [s] runs the stages [0, ..., log_n - 2] as without a scalar and
    then the last stage with the scalar fused into it: the scalar is
    combined into the root of each of the [n / 2] groups by one
    [mul_root_scalar], and every butterfly applies it to
    [u = guard(values[j])] by [mul_scalar]. It touches the buffer at the
    indices and in the order of the call without a scalar, which computes
    the algorithm of C3, and reads the same roots: no pass over the buffer
    follows. If the strategy obeys the fusion law and [mul_scalar]
    distributes over [add] and [sub], it leaves, element for element, what
    the call without a scalar leaves, each element multiplied by [s]. (That
    [guard] is the identity is not needed.) *)
Theorem to_rev_scalar_fusion {V R S : Type} (bad_shift : Z -> Z -> option Z)
    (h : DWTHandler V R S) (vs : list V) (log_n : Z) (rs : list R) (s : S) :
  1 <= log_n < size_bits ->
  Z.of_nat (length vs) = 2 ^ log_n ->
  Z.of_nat (length rs) = 2 ^ log_n ->
  exists st0 st1,
    call_to_rev bad_shift h vs log_n rs None = Done tt st0 /\
    call_to_rev bad_shift h vs log_n rs (Some s) = Done tt st1 /\
    values st0 = Spec.to_rev (arithmetic_ h) rs log_n vs /\
    values st1 = Spec.to_rev_fused (arithmetic_ h) rs s log_n vs /\
    Z.of_nat (length (Spec.combined_roots (arithmetic_ h) rs s log_n))
    = 2 ^ (log_n - 1) /\
    touched st1 = touched st0 /\
    roots_read st1 = roots_read st0 /\
    (fusion_law (arithmetic_ h) s ->
     scalar_distributes (arithmetic_ h) s ->
     values st1 = scale_all (arithmetic_ h) s (values st0)).
Proof.
  intros Hn Hvs Hrs.
  do 2 eexists. split; [apply run_to_rev; lia|].
  split; [apply run_to_rev; lia|]. simpl.
  split; [by rewrite spec_to_rev_forward_at by lia|].
  split; [by rewrite spec_to_rev_fused_forward_at by lia|].
  split; [apply length_combined_roots; lia|].
  split; [done|]. split; [done|].
  intros Hfuse Hdist. by apply forward_at_scaled; try lia.
Qed.

Lemma to_rev_scalar_fusion_witness :
  exists st0 st1,
    call_to_rev strict exact_handler [1; 2; 3; 4] 2 [0; 2; 3; 5] None = Done tt st0 /\
    call_to_rev strict exact_handler [1; 2; 3; 4] 2 [0; 2; 3; 5] (Some 7)
    = Done tt st1 /\
    values st0 = Spec.to_rev exact_arithmetic [0; 2; 3; 5] 2 [1; 2; 3; 4] /\
    values st1 = Spec.to_rev_fused exact_arithmetic [0; 2; 3; 5] 7 2 [1; 2; 3; 4] /\
    touched st1 = touched st0 /\
    roots_read st1 = roots_read st0 /\
    values st1 = scale_all exact_arithmetic 7 (values st0).
Proof.
  destruct (to_rev_scalar_fusion strict exact_handler [1; 2; 3; 4] 2 [0; 2; 3; 5] 7)
    as (st0 & st1 & H0 & H1 & Hv0 & Hv1 & _ & Ht & Hr & Hs).
  - unfold size_bits; lia.
  - reflexivity.
  - reflexivity.
  - exists st0, st1. split; [exact H0|]. split; [exact H1|].
    split; [exact Hv0|]. split; [exact Hv1|]. split; [exact Ht|].
    split; [exact Hr|]. apply Hs.
    + intros x r. simpl. lia.
    + split; intros x y; simpl; lia.
Defined.

(** C6 as stated covers [log_n = 0], where the strategy of exact integers
    obeys the three laws and the call without a scalar followed by the
    multiplication should leave [[35]]: [transform_to_rev] with the scalar
    runs its last stage there and does not return, whether the shift by
    [-1] that sets [m] stops the run or yields a value. *)
Lemma to_rev_scalar_fusion_fails_for_one_element :
  fusion_law exact_arithmetic 7 /\
  scalar_distributes exact_arithmetic 7 /\
  guard_is_identity exact_arithmetic /\
  scale_all exact_arithmetic 7 (Spec.to_rev exact_arithmetic [1] 0 [5]) = [35] /\
  result (call_to_rev strict exact_handler [5] 0 [1] (Some 7)) = None /\
  result (call_to_rev masking exact_handler [5] 0 [1] (Some 7)) = None.
Proof.
  split; [intros x r; simpl; lia|].
  split; [split; intros x y; simpl; lia|].
  split; [done|]. split; [reflexivity|]. split; [reflexivity|].
  by rewrite (to_rev_one_element_reads masking exact_handler (Some 7) 5 1
                (1 * 2 ^ (-1 mod size_bits))).
Qed.

(** C7, as amended. For [log_n = 1] and no scalar, [transform_to_rev] on
    [[v0, v1]] with root table [[_, r1]] leaves
    [[add(guard(v0), mul_root(v1, r1)), sub(guard(v0), mul_root(v1, r1))]]. *)
Theorem to_rev_two_elements {V R S : Type} (bad_shift : Z -> Z -> option Z)
    (h : DWTHandler V R S) (v0 v1 : V) (r0 r1 : R) :
  result (call_to_rev bad_shift h [v0; v1] 1 [r0; r1] None)
  = Some [add (arithmetic_ h) (guard (arithmetic_ h) v0)
              (mul_root (arithmetic_ h) v1 r1);
          sub (arithmetic_ h) (guard (arithmetic_ h) v0)
              (mul_root (arithmetic_ h) v1 r1)].
Proof.
  rewrite run_to_rev by (unfold size_bits; simpl; lia).
  unfold forward_at, stage_at, group. simpl.
  reflexivity.
Qed.

(** C7 as stated leaves [guard] out: with a strategy whose [guard] reduces
    modulo 17, the input [[20, 0]] and [r1 = 1] give [[3, 3]], not
    [[add(20, 0), sub(20, 0)] = [20, 20]]. *)
Lemma to_rev_two_elements_guards_first :
  result (call_to_rev strict (lazy_handler 17) [20; 0] 1 [0; 1] None)
  <> Some [add (lazy_arithmetic 17) 20 (mul_root (lazy_arithmetic 17) 0 1);
           sub (lazy_arithmetic 17) 20 (mul_root (lazy_arithmetic 17) 0 1)].
Proof. vm_compute. discriminate. Qed.

Example to_rev_two_elements_lazy :
  result (call_to_rev strict (lazy_handler 17) [20; 0] 1 [0; 1] None) = Some [3; 3].
Proof. reflexivity. Qed.

(** C8, as amended. Whatever the arguments and however the run ends, the
    two transforms leave the length of the buffer, the root table, the
    scalar and the handler's strategy as they were; and in a call with
    [log_n >= 1] on at least [2 ^ log_n] elements every access to the buffer
    is at an index in [0, 2 ^ log_n), the elements from [2 ^ log_n] on
    keeping their values. *)
Theorem transforms_frame {V R S : Type} (bad_shift : Z -> Z -> option Z)
    (h : DWTHandler V R S) (vs : list V) (log_n : Z) (rs : list R)
    (sc : option S) :
  let unchanged (st : memory V R S) :=
    length (values st) = length vs /\ roots st = rs /\ scalar st = sc /\
    this st = h in
  let confined (o : outcome V R S unit) :=
    exists st, o = Done tt st /\
      Forall (within (2 ^ log_n)) (touched st) /\
      forall p : nat, 2 ^ log_n <= Z.of_nat p -> values st !! p = vs !! p in
  unchanged (final (call_to_rev bad_shift h vs log_n rs sc)) /\
  unchanged (final (call_from_rev bad_shift h vs log_n rs sc)) /\
  (1 <= log_n < size_bits ->
   2 ^ log_n <= Z.of_nat (length vs) ->
   2 ^ log_n <= Z.of_nat (length rs) ->
   confined (call_to_rev bad_shift h vs log_n rs sc) /\
   confined (call_from_rev bad_shift h vs log_n rs sc)).
Proof.
  intros unchanged confined. split; [|split].
  - destruct (keeps_transform_to_rev bad_shift log_n (call_memory h vs rs sc))
      as (H1 & H2 & H3 & H4). by repeat split.
  - destruct (keeps_transform_from_rev bad_shift log_n (call_memory h vs rs sc))
      as (H1 & H2 & H3 & H4). by repeat split.
  - intros Hn Hvs Hrs. split.
    + eexists. split; [apply run_to_rev; lia|]. simpl. split.
      * apply forward_accesses_within.
      * intros p Hp. rewrite <- (Nat2Z.id p).
        apply forward_at_beyond; lia.
    + eexists. split; [apply run_from_rev; lia|]. simpl. split.
      * apply inverse_accesses_within.
      * intros p Hp. rewrite <- (Nat2Z.id p).
        apply inverse_at_beyond; lia.
Qed.

Lemma transforms_frame_witness :
  exists st,
    call_from_rev strict exact_handler [1; 2; 3; 4; 9] 2 [0; 2; 3; 5] (Some 2)
    = Done tt st /\
    Forall (within (2 ^ 2)) (touched st) /\
    forall p : nat, 2 ^ 2 <= Z.of_nat p -> values st !! p = [1; 2; 3; 4; 9] !! p.
Proof.
  apply (transforms_frame strict exact_handler [1; 2; 3; 4; 9] 2 [0; 2; 3; 5]
           (Some 2)); [unfold size_bits; lia|simpl; lia|simpl; lia].
Defined.

(** C8 as stated covers [log_n = 0], where only [values[0]] may change:
    on a machine whose shifter masks the count the last stage of
    [transform_to_rev] has [m = 1 << 63] groups and [gap = 1], and its
    first group writes [values[1]] before the second finds no root. *)
Lemma to_rev_writes_outside_for_log_n_zero :
  call_to_rev masking exact_handler [5; 6] 0 [0; 3] None
  = Undefined (RootsOutOfBounds 2)
      (Memory [23; -13] [0; 3] None exact_handler 3 [1; 2]
              [Get 0; Get 1; Put 0; Put 1]) /\
  ~ within (2 ^ 0) (Put 1) /\
  [23; -13] !! 1%nat <> [5; 6] !! 1%nat.
Proof.
  split; [by rewrite to_rev_masking_two|].
  split; [simpl; lia|discriminate].
Qed.

(** C9, as amended. For [log_n >= 1], on a buffer and a table of
    [2 ^ log_n] elements, both transforms complete, every access to the
    buffer is below [2 ^ log_n] and every access to the table is at an
    index in [1, 2 ^ log_n - 1]. For [log_n = 0] the last stages still
    run. [transform_from_rev] sets [gap] by a shift by
    [log_n - log_m - 1 = -1] and, wherever that shift yields a value, reads
    the root at index 1, past the end of the one-element table.
    [transform_to_rev] sets [m] by a shift by [log_m = log_n - 1 = -1] and,
    where that shift yields a non-zero value, reads the root at index 1 too.
    Neither returns from a one-element buffer on the abstract machine. *)
Theorem accesses_in_bounds {V R S : Type} (bad_shift : Z -> Z -> option Z)
    (h : DWTHandler V R S) (sc : option S) :
  (forall (vs : list V) (log_n : Z) (rs : list R),
     1 <= log_n < size_bits ->
     Z.of_nat (length vs) = 2 ^ log_n ->
     Z.of_nat (length rs) = 2 ^ log_n ->
     (exists st, call_to_rev bad_shift h vs log_n rs sc = Done tt st /\
                 Forall (within (2 ^ log_n)) (touched st) /\
                 Forall (fun k => 1 <= k <= 2 ^ log_n - 1) (roots_read st)) /\
     (exists st, call_from_rev bad_shift h vs log_n rs sc = Done tt st /\
                 Forall (within (2 ^ log_n)) (touched st) /\
                 Forall (fun k => 1 <= k <= 2 ^ log_n - 1) (roots_read st))) /\
  (forall (v : V) (r : R),
     (bad_shift 1 (-1) = None ->
      call_from_rev bad_shift h [v] 0 [r] sc
      = Undefined (ShiftCount Init_gap (0 - 0 - 1)) (Memory [v] [r] sc h 1 [] [])) /\
     (forall g, bad_shift 1 (-1) = Some g ->
      call_from_rev bad_shift h [v] 0 [r] sc
      = Undefined (RootsOutOfBounds 1) (Memory [v] [r] sc h 1 [1] [])) /\
     (bad_shift 1 (-1) = None ->
      call_to_rev bad_shift h [v] 0 [r] sc
      = Undefined (ShiftCount Init_m (0 - 1)) (Memory [v] [r] sc h 1 [] [])) /\
     (forall g, bad_shift 1 (-1) = Some g -> 0 < wrap g ->
      call_to_rev bad_shift h [v] 0 [r] sc
      = Undefined (RootsOutOfBounds 1) (Memory [v] [r] sc h 2 [1] []))).
Proof.
  split.
  - intros vs log_n rs Hn Hvs Hrs. split.
    + eexists. split; [apply run_to_rev; lia|]. simpl. split.
      * apply forward_accesses_within.
      * rewrite forward_reads_seqZ by lia. apply Forall_seqZ. lia.
    + eexists. split; [apply run_from_rev; lia|]. simpl. split.
      * apply inverse_accesses_within.
      * rewrite inverse_reads_seqZ by lia. apply Forall_seqZ. lia.
  - intros v r. split; [|split; [|split]]; [| | |apply to_rev_one_element_reads].
    + intros Hb. unfold call_from_rev, transform_from_rev, call_memory, bind.
      simpl. destruct sc; unfold stage, bind, shl; simpl;
        change (0 - 0 - 1) with (-1); by rewrite Hb.
    + intros g Hb. unfold call_from_rev, transform_from_rev, call_memory, bind.
      simpl. destruct sc; unfold stage, bind, shl; simpl;
        change (0 - 0 - 1) with (-1); rewrite Hb; unfold ret, for_range;
        change (wrap (1 * 2 ^ 0) - 0) with 1; rewrite seqZ_one; done.
    + intros Hb. unfold call_to_rev, transform_to_rev, call_memory, bind.
      simpl. destruct sc; unfold stage, bind, shl; simpl;
        change (0 - 1) with (-1); by rewrite Hb.
Qed.

Lemma accesses_in_bounds_witness :
  (exists st,
     call_to_rev strict exact_handler [1; 2; 3; 4] 2 [0; 2; 3; 5] None = Done tt st /\
     Forall (within (2 ^ 2)) (touched st) /\
     Forall (fun k => 1 <= k <= 2 ^ 2 - 1) (roots_read st)) /\
  (exists st,
     call_from_rev strict exact_handler [1; 2; 3; 4] 2 [0; 2; 3; 5] None = Done tt st /\
     Forall (within (2 ^ 2)) (touched st) /\
     Forall (fun k => 1 <= k <= 2 ^ 2 - 1) (roots_read st)).
Proof.
  apply (proj1 (accesses_in_bounds strict exact_handler None) [1; 2; 3; 4] 2
               [0; 2; 3; 5]); [unfold size_bits; lia|reflexivity|reflexivity].
Defined.

(** C9 as stated names the wrong shift of [transform_to_rev]: for
    [log_n = 0] its last stage has [log_m = -1], so the count
    [log_n - log_m - 1] of the [gap] shift is 0 and in range; the negative
    count is that of [m = 1 << log_m]. Where that shift yields a value the
    run goes on to read the root at index 1. *)
Lemma to_rev_one_element_shift :
  ~ stops_with (call_to_rev strict exact_handler [5] 0 [1] None)
               (ShiftCount Init_gap (-1)) /\
  stops_with (call_to_rev strict exact_handler [5] 0 [1] None)
             (ShiftCount Init_m (-1)) /\
  stops_with (call_to_rev masking exact_handler [5] 0 [1] None)
             (RootsOutOfBounds 1).
Proof.
  split; [|split].
  - intros H. vm_compute in H. discriminate.
  - reflexivity.
  - by rewrite (to_rev_one_element_reads masking exact_handler None 5 1
                  (1 * 2 ^ (-1 mod size_bits))).
Qed.

(** C10, as amended. In [transform_to_rev] with [log_n >= 1], with or
    without a scalar and in every stage, the last one included,
    [root_index = 2 ^ log_m + i] when group [i] of
    stage [log_m] reads its root: with [assert(root_index == m + i)] put
    before every read of a root the call runs as it does without; the
    cursor values at the reads, in the order of the loops, are
    [2 ^ log_m + i] for [log_m = 0, ..., log_n - 1] and
    [i = 0, ..., 2 ^ log_m - 1]; and the buffer is the one of the algorithm
    that applies [roots[2 ^ log_m + i]] to group [i] of stage [log_m]. *)
Theorem to_rev_cursor {V R S : Type} (bad_shift : Z -> Z -> option Z)
    (h : DWTHandler V R S) (vs : list V) (log_n : Z) (rs : list R)
    (sc : option S) :
  1 <= log_n < size_bits ->
  Z.of_nat (length vs) = 2 ^ log_n ->
  Z.of_nat (length rs) = 2 ^ log_n ->
  exists st,
    call_to_rev bad_shift h vs log_n rs sc = Done tt st /\
    call_to_rev_asserting bad_shift h vs log_n rs sc = Done tt st /\
    roots_read st
    = flat_map (fun log_m => (fun i => 2 ^ log_m + i) <$> seqZ 0 (2 ^ log_m))
               (seqZ 0 log_n) /\
    values st = forward_at (arithmetic_ h) rs sc log_n vs /\
    root_index st = 2 ^ log_n.
Proof.
  intros Hn Hvs Hrs. eexists. split; [apply run_to_rev; lia|].
  split; [|done]. rewrite run_to_rev_asserting by lia. apply run_to_rev; lia.
Qed.

Lemma to_rev_cursor_witness :
  exists st,
    call_to_rev strict exact_handler [1; 2; 3; 4] 2 [0; 2; 3; 5] (Some 2)
    = Done tt st /\
    call_to_rev_asserting strict exact_handler [1; 2; 3; 4] 2 [0; 2; 3; 5] (Some 2)
    = Done tt st /\
    roots_read st
    = flat_map (fun log_m => (fun i => 2 ^ log_m + i) <$> seqZ 0 (2 ^ log_m))
               (seqZ 0 2) /\
    values st = forward_at exact_arithmetic [0; 2; 3; 5] (Some 2) 2 [1; 2; 3; 4] /\
    root_index st = 2 ^ 2.
Proof.
  apply (to_rev_cursor strict exact_handler [1; 2; 3; 4] 2 [0; 2; 3; 5] (Some 2));
    [unfold size_bits; lia|reflexivity|reflexivity].
Defined.

(** C10 as stated covers [log_n = 0], where the last stage runs with
    [log_m = -1]: on a machine whose shifter masks the count, [m] is
    [1 << 63] and the first group reads its root with [root_index = 1], not
    [m + i = 2 ^ 63]; the first assertion fails, and the call without
    assertions applies [roots[1] = 3] to the pair [(5, 6)]. *)
Lemma to_rev_cursor_fails_for_log_n_zero :
  call_to_rev_asserting masking exact_handler [5; 6] 0 [0; 3] None
  = Undefined (CursorAssertion (2 ^ 63) 0 1)
              (Memory [5; 6] [0; 3] None exact_handler 1 [] []) /\
  call_to_rev masking exact_handler [5; 6] 0 [0; 3] None
  = Undefined (RootsOutOfBounds 2)
      (Memory [5 + 6 * 3; 5 - 6 * 3] [0; 3] None exact_handler 3 [1; 2]
              [Get 0; Get 1; Put 0; Put 1]).
Proof.
  split; [apply to_rev_asserting_masking|by rewrite to_rev_masking_two].
Qed.

(** The assertion is not idle: a stage entered with the cursor elsewhere
    stops at it. *)
Example stage_asserting_elsewhere :
  stage_asserting strict 1 0 next_root butterfly_to_rev
    (Memory [1; 2] [0; 1; 1] None exact_handler 2 [] [])
  = Undefined (CursorAssertion 1 0 2)
              (Memory [1; 2] [0; 1; 1] None exact_handler 2 [] []).
Proof. reflexivity. Qed.

(** * Further properties of the kernel *)

(** ** The forward transform evaluates a polynomial *)

Lemma lookup_slice {A} (w : list A) (o h q : nat) :
  (q < h)%nat -> take h (drop o w) !! q = w !! (o + q)%nat.
Proof.
  intros Hq. rewrite lookup_take. destruct (decide (q < h)%nat); [|lia].
  apply lookup_drop.
Qed.

Section Evaluation.
Variable T : Type.
Variables (rO rI : T) (radd rmul rsub : T -> T -> T) (ropp : T -> T).
Hypothesis Rth : ring_theory rO rI radd rmul rsub ropp eq.
Add Ring Tring_eval : Rth.

Local Abbreviation ring_arithmetic := (ring_arithmetic T radd rmul rsub).
Local Abbreviation horner := (horner T rO radd rmul).
Local Abbreviation power := (power T rI rmul).
Local Abbreviation square_root_tree := (square_root_tree T rmul ropp).

Lemma power_add x (j k : nat) :
  power x (j + k) = rmul (power x j) (power x k).
Proof. induction j as [|j IH]; simpl; [ring|]. rewrite IH. ring. Qed.

Lemma horner_app (l k : list T) x :
  horner (l ++ k) x = radd (horner l x) (rmul (power x (length l)) (horner k x)).
Proof.
  induction l as [|c l IH]; simpl; [ring|]. rewrite IH. ring.
Qed.

(** The polynomial [l + c * k], coefficient by coefficient. *)
Lemma horner_zip_with (f : T -> T -> T) c (l k : list T) x :
  (forall a b, f a b = radd a (rmul c b)) ->
  length l = length k ->
  horner (zip_with f l k) x = radd (horner l x) (rmul c (horner k x)).
Proof.
  intros Hf. revert k. induction l as [|a l IH]; intros [|b k] Hlen;
    simpl in *; try done; [ring|].
  rewrite IH by lia. rewrite Hf. ring.
Qed.

(** A stage of the forward transform, on the two halves of group [i]. *)
Lemma forward_stage_slices rs log_n t (w : list T) i r :
  0 <= t < log_n -> Z.of_nat (length w) = 2 ^ log_n ->
  0 <= i < 2 ^ t ->
  rs !! Z.to_nat (2 ^ t + 1 * i) = Some r ->
  let w' := stage_at (forward_pair ring_arithmetic) rs (2 ^ t) 1 log_n t w in
  let h := Z.to_nat (2 ^ (log_n - t - 1)) in
  let o := Z.to_nat (i * (2 * 2 ^ (log_n - t - 1))) in
  take h (drop o w')
  = zip_with (fun x y => radd x (rmul y r))
             (take h (drop o w)) (take h (drop (o + h) w)) /\
  take h (drop (o + h) w')
  = zip_with (fun x y => rsub x (rmul y r))
             (take h (drop o w)) (take h (drop (o + h) w)).
Proof.
  intros Ht Hlen Hi Hr w' h o.
  destruct (pow2_split log_n t Ht) as (E1 & E2 & Hg & Hmpos).
  destruct (stage_lookup (forward_pair ring_arithmetic) rs (2 ^ t) 1 log_n t w Ht)
    as [H1 _]. fold w' in H1.
  assert (Hall : forall q : nat, (q < h)%nat ->
            exists x y, w !! (o + q)%nat = Some x /\ w !! (o + h + q)%nat = Some y /\
              w' !! (o + q)%nat = Some (radd x (rmul y r)) /\
              w' !! (o + h + q)%nat = Some (rsub x (rmul y r))).
  { intros q Hq.
    destruct (lookup_lt_is_Some_2 w (o + q)%nat ltac:(nia)) as [x Hx].
    destruct (lookup_lt_is_Some_2 w (o + h + q)%nat ltac:(nia)) as [y Hy].
    exists x, y. split; [done|]. split; [done|].
    destruct (H1 i (Z.of_nat q) x y r Hi ltac:(lia) Hr) as [Ha Hb].
    - rewrite <- Hx. f_equal. lia.
    - rewrite <- Hy. f_equal. lia.
    - simpl in Ha, Hb. rewrite <- Ha, <- Hb. split; f_equal; lia. }
  split; apply list_eq; intros q; rewrite lookup_zip_with;
    (destruct (decide (q < h)%nat) as [Hq|Hq];
     [destruct (Hall q Hq) as (x & y & Hx & Hy & Ha & Hb);
      rewrite !lookup_slice by done; rewrite ?Ha, ?Hb, Hx, Hy; done
     |rewrite !lookup_take_ge by lia; done]).
Qed.

Lemma forward_stages_evaluate rs log_n (vs : list T) (t : nat) :
  Z.of_nat t <= log_n ->
  Z.of_nat (length vs) = 2 ^ log_n ->
  square_root_tree log_n rs ->
  let w := foldl (fun vs log_m =>
                    stage_at (forward_pair ring_arithmetic) rs (2 ^ log_m) 1
                             log_n log_m vs)
                 vs (seqZ 0 (Z.of_nat t)) in
  forall i e, 0 <= i < 2 ^ Z.of_nat t ->
    (t = 0%nat \/
     exists r, rs !! Z.to_nat (2 ^ (Z.of_nat t - 1) + i / 2) = Some r /\
               power e (Z.to_nat (2 ^ (log_n - Z.of_nat t)))
               = if Z.even i then r else ropp r) ->
    horner (take (Z.to_nat (2 ^ (log_n - Z.of_nat t)))
                 (drop (Z.to_nat (i * 2 ^ (log_n - Z.of_nat t))) w)) e
    = horner vs e.
Proof.
  intros Ht Hlen Htree. induction t as [|t IH]; cbv zeta.
  - intros i e Hi _. rewrite seqZ_nil by lia. simpl in *.
    assert (i = 0) as -> by lia. rewrite Z.sub_0_r, Z.mul_0_l. simpl.
    change (Z.to_nat 0) with 0%nat. rewrite drop_0. by rewrite take_ge by lia.
  - intros i' e Hi' [Hz|(r & Hr & Hpow)]; [done|].
    specialize (IH ltac:(lia)). cbv zeta in IH.
    rewrite Nat2Z.inj_succ, <- Z.add_1_r in *.
    rewrite seqZ_snoc by lia. rewrite foldl_snoc, Z.add_0_l.
    set (t' := Z.of_nat t) in *.
    set (w := foldl _ vs (seqZ 0 t')) in *.
    assert (Hw : Z.of_nat (length w) = 2 ^ log_n).
    { subst w. rewrite length_foldl_preserving; [done|].
      intros l b. apply length_stage_at. }
    destruct (pow2_split log_n t' ltac:(lia)) as (E1 & E2 & Hg & Hmpos).
    assert (Hs := pow2_succ t' ltac:(lia)).
    replace (t' + 1 - 1) with t' in Hr by lia.
    replace (log_n - (t' + 1)) with (log_n - t' - 1) in * by lia.
    assert (Hdm := Z.div_mod i' 2 ltac:(lia)).
    assert (Hmod := Zmod_even i').
    set (i := i' / 2) in *.
    assert (Hi : 0 <= i < 2 ^ t').
    { subst i. split; [apply Z.div_pos; lia|apply Z.div_lt_upper_bound; lia]. }
    destruct (forward_stage_slices rs log_n t' w i r ltac:(lia) Hw Hi)
      as [Hlo Hhi].
    { rewrite <- Hr. f_equal. lia. }
    set (h := Z.to_nat (2 ^ (log_n - t' - 1))) in *.
    set (o := Z.to_nat (i * (2 * 2 ^ (log_n - t' - 1)))) in *.
    set (X := take h (drop o w)) in *.
    set (Y := take h (drop (o + h) w)) in *.
    assert (HX : length X = h).
    { subst X. rewrite length_take, length_drop. nia. }
    assert (HY : length Y = h).
    { subst Y. rewrite length_take, length_drop. nia. }
    assert (HXY : take (Z.to_nat (2 ^ (log_n - t')))
                       (drop (Z.to_nat (i * 2 ^ (log_n - t'))) w) = X ++ Y).
    { subst X Y. rewrite <- (drop_drop w h o), take_take_drop.
      rewrite E1. f_equal; lia. }
    assert (Hcond : t = 0%nat \/
              exists r', rs !! Z.to_nat (2 ^ (t' - 1) + i / 2) = Some r' /\
                power e (Z.to_nat (2 ^ (log_n - t')))
                = if Z.even i then r' else ropp r').
    { destruct t as [|t0]; [by left|]. right.
      assert (Ht1 : 1 <= t') by (subst t'; lia).
      assert (Hs' := pow2_succ (t' - 1) ltac:(lia)).
      replace (t' - 1 + 1) with t' in Hs' by lia.
      assert (Hdm2 := Z.div_mod i 2 ltac:(lia)).
      assert (Hmod2 := Zmod_even i).
      assert (Hk : 1 <= 2 ^ (t' - 1) + i / 2 < 2 ^ (log_n - 1)).
      { assert (0 < 2 ^ (t' - 1)) by (apply Z.pow_pos_nonneg; lia).
        assert (0 <= i / 2) by (apply Z.div_pos; lia).
        assert (i / 2 < 2 ^ (t' - 1)) by (apply Z.div_lt_upper_bound; lia).
        assert (Hle := pow2_le_mono t' (log_n - 1) ltac:(lia)). lia. }
      destruct (Htree _ Hk) as (r' & r0 & r1 & Hr' & Hr0 & Hr1 & Hsq0 & Hsq1).
      exists r'. split; [done|].
      rewrite E1.
      replace (Z.to_nat (2 * 2 ^ (log_n - t' - 1))) with (h + h)%nat by lia.
      rewrite power_add.
      assert (Hrr : rmul (power e h) (power e h) = rmul r r).
      { rewrite Hpow. destruct (Z.even i'); ring. }
      rewrite Hrr.
      destruct (Z.even i).
      - replace (2 ^ t' + i) with (2 * (2 ^ (t' - 1) + i / 2)) in Hr by lia.
        rewrite Hr0 in Hr. injection Hr as <-. done.
      - replace (2 ^ t' + i) with (2 * (2 ^ (t' - 1) + i / 2) + 1) in Hr by lia.
        rewrite Hr1 in Hr. injection Hr as <-. done. }
    specialize (IH i e Hi Hcond). rewrite HXY, horner_app, HX in IH.
    rewrite <- IH.
    destruct (Z.even i').
    + replace (Z.to_nat (i' * 2 ^ (log_n - t' - 1))) with o by lia.
      rewrite Hlo, (horner_zip_with _ r) by (intros; ring || lia).
      by rewrite Hpow.
    + replace (Z.to_nat (i' * 2 ^ (log_n - t' - 1))) with (o + h)%nat by lia.
      rewrite Hhi, (horner_zip_with _ (ropp r)) by (intros; ring || lia).
      by rewrite Hpow.
Qed.

(** The forward transform, as a function on lists, evaluates. *)
Lemma forward_at_evaluates rs log_n (vs : list T) :
  1 <= log_n ->
  Z.of_nat (length vs) = 2 ^ log_n ->
  2 ^ log_n <= Z.of_nat (length rs) ->
  square_root_tree log_n rs ->
  forall i, 0 <= i < 2 ^ (log_n - 1) ->
    exists r,
      rs !! Z.to_nat (2 ^ (log_n - 1) + i) = Some r /\
      forward_at ring_arithmetic rs None log_n vs !! Z.to_nat (2 * i)
      = Some (horner vs r) /\
      forward_at ring_arithmetic rs None log_n vs !! Z.to_nat (2 * i + 1)
      = Some (horner vs (ropp r)).
Proof.
  intros Hn Hvs Hrs Htree i Hi.
  assert (Hp := pow2_succ (log_n - 1) ltac:(lia)).
  replace (log_n - 1 + 1) with log_n in Hp by lia.
  destruct (lookup_lt_is_Some_2 rs (Z.to_nat (2 ^ (log_n - 1) + i)) ltac:(lia))
    as [r Hr].
  exists r. split; [done|].
  rewrite forward_at_stages by lia.
  assert (Hev := forward_stages_evaluate rs log_n
                   vs (Z.to_nat log_n) ltac:(lia) Hvs Htree).
  cbv zeta in Hev. rewrite Z2Nat.id in Hev by lia.
  set (u := foldl _ vs (seqZ 0 log_n)) in *.
  assert (Hu : Z.of_nat (length u) = 2 ^ log_n).
  { subst u. rewrite length_foldl_preserving; [done|].
    intros l b. apply length_stage_at. }
  rewrite Z.sub_diag in Hev. change (Z.to_nat (2 ^ 0)) with 1%nat in Hev.
  assert (Hone : forall p x, u !! p = Some x ->
            horner (take 1 (drop p u)) = fun e => radd x (rmul e rO)).
  { intros p x Hx. rewrite (drop_S u x p Hx). done. }
  assert (Hmul0 : forall x e : T, radd x (rmul e rO) = x).
  { intros x e. rewrite (ARmul_comm (Rth_ARth (Eqsth T) (Eq_ext _ _ _) Rth)).
    rewrite (ARmul_0_l (Rth_ARth (Eqsth T) (Eq_ext _ _ _) Rth)).
    rewrite (Radd_comm Rth). apply (Radd_0_l Rth). }
  assert (Hpow1 : forall e : T, rmul e rI = e).
  { intros e. rewrite (Rmul_comm Rth). apply (Rmul_1_l Rth). }
  split.
  - destruct (lookup_lt_is_Some_2 u (Z.to_nat (2 * i)) ltac:(lia)) as [x Hx].
    rewrite Hx. f_equal.
    specialize (Hev (2 * i) r ltac:(lia)).
    rewrite Z.mul_1_r, (Hone _ x Hx), Hmul0 in Hev. apply Hev.
    right. exists r. split.
    + rewrite <- Hr. do 3 f_equal. rewrite Z.mul_comm, Z.div_mul; lia.
    + rewrite Z.even_mul. simpl. apply Hpow1.
  - destruct (lookup_lt_is_Some_2 u (Z.to_nat (2 * i + 1)) ltac:(lia)) as [x Hx].
    rewrite Hx. f_equal.
    specialize (Hev (2 * i + 1) (ropp r) ltac:(lia)).
    rewrite Z.mul_1_r, (Hone _ x Hx), Hmul0 in Hev. apply Hev.
    right. exists r. split.
    + rewrite <- Hr. do 3 f_equal. symmetry. apply (Z.div_unique _ _ _ 1); lia.
    + rewrite Z.add_comm, Z.even_add_mul_2. simpl. apply Hpow1.
Qed.

End Evaluation.

Lemma square_root_tree_mod17 :
  square_root_tree (Zmod 17) Zmod.mul Zmod.opp 2 (mod17 [1; 4; 2; 8]).
Proof.
  intros k Hk. assert (k = 1) as -> by (simpl in Hk; lia).
  do 3 eexists. split; [reflexivity|]. split; [reflexivity|].
  split; [reflexivity|]. split; vm_compute; reflexivity.
Qed.

(** X1. Over a commutative ring whose operations the strategy computes
    exactly, and with a root table that is a tree of square roots
    ([roots[2k]^2 = roots[k]], [roots[2k+1]^2 = -roots[k]]),
    [transform_to_rev] without a scalar evaluates the polynomial whose
    coefficients the buffer holds, lowest degree first: it leaves at index
    [2i] the value at [roots[n/2 + i]] and at index [2i + 1] the value at
    [-roots[n/2 + i]]. *)
Theorem to_rev_evaluates (T : Type) (rO rI : T) (radd rmul rsub : T -> T -> T)
    (ropp : T -> T) (Rth : ring_theory rO rI radd rmul rsub ropp eq)
    (bad_shift : Z -> Z -> option Z) (vs : list T) (log_n : Z) (rs : list T) :
  1 <= log_n < size_bits ->
  Z.of_nat (length vs) = 2 ^ log_n ->
  2 ^ log_n <= Z.of_nat (length rs) ->
  square_root_tree T rmul ropp log_n rs ->
  exists u,
    result (call_to_rev bad_shift (ring_handler T radd rmul rsub) vs log_n rs None)
    = Some u /\
    forall i, 0 <= i < 2 ^ (log_n - 1) ->
      exists r,
        rs !! Z.to_nat (2 ^ (log_n - 1) + i) = Some r /\
        u !! Z.to_nat (2 * i) = Some (horner T rO radd rmul vs r) /\
        u !! Z.to_nat (2 * i + 1) = Some (horner T rO radd rmul vs (ropp r)).
Proof.
  intros Hn Hvs Hrs Htree. eexists. rewrite run_to_rev by lia. simpl.
  split; [done|].
  by apply (forward_at_evaluates T rO rI radd rmul rsub ropp Rth); try lia.
Qed.

Lemma to_rev_evaluates_witness :
  exists u,
    result (call_to_rev strict handler_mod17 (mod17 [3; 1; 4; 1]) 2
                        (mod17 [1; 4; 2; 8]) None)
    = Some u /\
    forall i, 0 <= i < 2 ^ (2 - 1) ->
      exists r,
        mod17 [1; 4; 2; 8] !! Z.to_nat (2 ^ (2 - 1) + i) = Some r /\
        u !! Z.to_nat (2 * i)
        = Some (horner (Zmod 17) Zmod.zero Zmod.add Zmod.mul (mod17 [3; 1; 4; 1]) r) /\
        u !! Z.to_nat (2 * i + 1)
        = Some (horner (Zmod 17) Zmod.zero Zmod.add Zmod.mul (mod17 [3; 1; 4; 1])
                       (Zmod.opp r)).
Proof.
  apply (to_rev_evaluates (Zmod 17) Zmod.zero Zmod.one Zmod.add Zmod.mul Zmod.sub
           Zmod.opp (Zmod.ring_theory 17) strict (mod17 [3; 1; 4; 1]) 2
           (mod17 [1; 4; 2; 8])).
  - unfold size_bits; lia.
  - reflexivity.
  - simpl; lia.
  - apply square_root_tree_mod17.
Defined.

(** ** The round trip in the other order *)

Section RoundTripBack.
Variable T : Type.
Variables (rO rI : T) (radd rmul rsub : T -> T -> T) (ropp : T -> T).
Hypothesis Rth : ring_theory rO rI radd rmul rsub ropp eq.
Add Ring Tring_back : Rth.

Local Abbreviation ring_arithmetic := (ring_arithmetic T radd rmul rsub).
Local Abbreviation two_pow := (two_pow T rI radd rmul).
Local Abbreviation inverse_tables := (inverse_tables T rI rmul).

Local Abbreviation F fwd log_n :=
  (fun vs log_m =>
     stage_at (forward_pair ring_arithmetic) fwd (2 ^ log_m) 1 log_n log_m vs).
Local Abbreviation I inv log_n :=
  (fun vs log_m =>
     stage_at (inverse_pair ring_arithmetic) inv
              (2 ^ log_n - 2 ^ (log_m + 1) + 1) 1 log_n log_m vs).

(** The forward stages [1, ..., k] undo the inverse stages [k, ..., 1] and
    leave every element multiplied by [2 ^ k]. *)
Lemma forward_stages_undo fwd inv log_n (c : T) (k : nat) :
  inverse_tables log_n fwd inv ->
  Z.of_nat k < log_n ->
  forall w : list T, Z.of_nat (length w) = 2 ^ log_n ->
    foldl (F fwd log_n)
          (rmul c <$> foldl (I inv log_n) w (reverse (seqZ 1 (Z.of_nat k))))
          (seqZ 1 (Z.of_nat k))
    = rmul (rmul (two_pow k) c) <$> w.
Proof.
  intros Htab. induction k as [|k IH]; intros Hk w Hw.
  - rewrite seqZ_nil by lia. simpl. apply list_fmap_ext. intros _ x _. ring.
  - rewrite Nat2Z.inj_succ, <- Z.add_1_r.
    rewrite seqZ_snoc by lia. rewrite reverse_snoc, foldl_snoc. simpl foldl.
    set (t := 1 + Z.of_nat k).
    rewrite IH; [|lia|by rewrite length_stage_at].
    apply stage_at_cancel; [lia|done|].
    intros i Hi. destruct (Htab t i ltac:(lia) Hi) as (r & r' & Hr & Hr' & Hinv).
    exists r', r. split; [by rewrite Z.mul_1_l|]. split; [by rewrite Z.mul_1_l|].
    intros x y. unfold inverse_pair, forward_pair. simpl.
    remember (rmul (two_pow k) c) as c' eqn:Hc'.
    replace (rmul (rmul (radd rI rI) (two_pow k)) c)
      with (rmul (radd rI rI) c') by (subst c'; ring).
    f_equal.
    + transitivity (radd (rmul c' (radd x y)) (rmul (rmul c' (rsub x y)) (rmul r r')));
        [ring|]. rewrite Hinv. ring.
    + transitivity (rsub (rmul c' (radd x y)) (rmul (rmul c' (rsub x y)) (rmul r r')));
        [ring|]. rewrite Hinv. ring.
Qed.

Lemma forward_at_inverse_at fwd inv log_n (w : list T) (s : T) :
  1 <= log_n ->
  inverse_tables log_n fwd inv ->
  rmul (two_pow (Z.to_nat log_n)) s = rI ->
  Z.of_nat (length w) = 2 ^ log_n ->
  forward_at ring_arithmetic fwd None log_n
    (inverse_at ring_arithmetic inv (Some s) log_n w)
  = w.
Proof.
  intros Hn Htab Hs Hw. rewrite forward_at_stages by lia.
  unfold inverse_at.
  rewrite (seqZ_cons 0 log_n) by lia. simpl foldl.
  replace (Z.pred log_n) with (log_n - 1) by lia. change (Z.succ 0) with 1.
  set (y := foldl _ w (reverse (seqZ 1 (log_n - 1)))).
  assert (Hy : Z.of_nat (length y) = 2 ^ log_n).
  { subst y. rewrite length_foldl_preserving; [done|].
    intros l b. apply length_stage_at. }
  assert (H0 : stage_at (forward_pair ring_arithmetic) fwd (2 ^ 0) 1 log_n 0
                 (stage_at (last_inverse ring_arithmetic (Some s)) inv
                           (2 ^ log_n - 1) 0 log_n 0 y)
               = rmul (rmul (radd rI rI) s) <$> y).
  { rewrite <- (list_fmap_id (stage_at (last_inverse _ _) _ _ _ _ _ _)).
    apply (stage_at_cancel _ _ id); [lia|done|].
    intros i Hi. change (2 ^ 0) with 1 in Hi. assert (i = 0) as -> by lia.
    destruct (Htab 0 0 ltac:(lia) ltac:(simpl; lia)) as (r & r' & Hr & Hr' & Hinv).
    exists r', r. split.
    { rewrite <- Hr'. do 2 f_equal. simpl. lia. }
    split; [exact Hr|].
    intros x v. unfold last_inverse, inverse_pair_scaled, forward_pair. simpl.
    f_equal.
    - transitivity (radd (rmul (radd x v) s) (rmul (rmul (rsub x v) s) (rmul r r')));
        [ring|]. rewrite Hinv. ring.
    - transitivity (rsub (rmul (radd x v) s) (rmul (rmul (rsub x v) s) (rmul r r')));
        [ring|]. rewrite Hinv. ring. }
  change (last_inverse ring_arithmetic (Some s))
    with (inverse_pair_scaled ring_arithmetic s) in H0.
  rewrite H0. subst y.
  assert (Hundo := forward_stages_undo fwd inv log_n (rmul (radd rI rI) s)
                     (Z.to_nat (log_n - 1)) Htab ltac:(lia) w Hw).
  replace (Z.of_nat (Z.to_nat (log_n - 1))) with (log_n - 1) in Hundo by lia.
  rewrite Hundo. apply list_fmap_id_ext. intros x.
  replace (Z.to_nat log_n) with (Datatypes.S (Z.to_nat (log_n - 1))) in Hs by lia.
  simpl in Hs. set (c := two_pow (Z.to_nat (log_n - 1))) in *.
  transitivity (rmul (rmul (rmul (radd rI rI) c) s) x); [ring|].
  rewrite Hs. ring.
Qed.

(** Without a scalar the inverse transform undoes the forward transform up
    to the factor [2 ^ log_n]. *)
Lemma inverse_at_forward_at_unscaled fwd inv log_n (w : list T) :
  1 <= log_n ->
  inverse_tables log_n fwd inv ->
  Z.of_nat (length w) = 2 ^ log_n ->
  inverse_at ring_arithmetic inv None log_n
    (forward_at ring_arithmetic fwd None log_n w)
  = rmul (two_pow (Z.to_nat log_n)) <$> w.
Proof.
  intros Hn Htab Hw. rewrite forward_at_stages by lia.
  assert (Hundo := inverse_stages_undo T rO rI radd rmul rsub ropp Rth fwd inv
                     log_n w (Z.to_nat log_n) Htab Hw ltac:(lia)).
  rewrite Z2Nat.id, Z.sub_diag in Hundo by lia.
  rewrite (seqZ_nil 0 0) in Hundo by lia. simpl in Hundo.
  rewrite <- Hundo. unfold inverse_at.
  rewrite (seqZ_cons 0 log_n) by lia.
  replace (Z.pred log_n) with (log_n - 1) by lia. change (Z.succ 0) with 1.
  rewrite reverse_cons, foldl_snoc.
  unfold stage_at. change (Z.shiftl 1 0) with 1. rewrite seqZ_one. simpl.
  replace (2 ^ log_n - 1 + 0 * 0) with (2 ^ log_n - 2 ^ (0 + 1) + 1 + 1 * 0)
    by (simpl; lia).
  done.
Qed.

End RoundTripBack.

Lemma inverse_tables_mod17 :
  inverse_tables (Zmod 17) Zmod.one Zmod.mul 2 (mod17 [1; 4; 2; 8])
                 (mod17 [1; 9; 15; 13]).
Proof.
  intros log_m i Hm Hi.
  assert (Hcases : log_m = 0 /\ i = 0 \/ log_m = 1 /\ i = 0 \/ log_m = 1 /\ i = 1).
  { assert (log_m = 0 \/ log_m = 1) as [->| ->] by lia; simpl in Hi; lia. }
  destruct Hcases as [[-> ->]|[[-> ->]|[-> ->]]];
    do 2 eexists; (split; [reflexivity|split; [reflexivity|]]);
    vm_compute; reflexivity.
Qed.

(** X2. The round trip in the other order: over a commutative ring, with root
    tables that belong together and a scalar [s] with [n * s = 1],
    [transform_from_rev] with the scalar [s] followed by [transform_to_rev]
    without a scalar gives the buffer back. *)
Theorem round_trip_back (T : Type) (rO rI : T) (radd rmul rsub : T -> T -> T)
    (ropp : T -> T) (Rth : ring_theory rO rI radd rmul rsub ropp eq)
    (bad_shift : Z -> Z -> option Z) (vs : list T) (log_n : Z)
    (fwd inv : list T) (s : T) :
  1 <= log_n < size_bits ->
  Z.of_nat (length vs) = 2 ^ log_n ->
  Z.of_nat (length fwd) = 2 ^ log_n ->
  Z.of_nat (length inv) = 2 ^ log_n ->
  inverse_tables T rI rmul log_n fwd inv ->
  rmul (two_pow T rI radd rmul (Z.to_nat log_n)) s = rI ->
  exists u,
    result (call_from_rev bad_shift (ring_handler T radd rmul rsub) vs log_n inv
                          (Some s)) = Some u /\
    result (call_to_rev bad_shift (ring_handler T radd rmul rsub) u log_n fwd None)
    = Some vs.
Proof.
  intros Hn Hvs Hfwd Hinv Htab Hs.
  exists (inverse_at (ring_arithmetic T radd rmul rsub) inv (Some s) log_n vs).
  split.
  - by rewrite run_from_rev by lia.
  - rewrite run_to_rev; [| lia | rewrite length_inverse_at; lia | lia].
    simpl. f_equal.
    by apply (forward_at_inverse_at T rO rI radd rmul rsub ropp Rth); try lia.
Qed.

Lemma round_trip_back_witness :
  exists u,
    result (call_from_rev strict handler_mod17 (mod17 [3; 1; 4; 1]) 2
                          (mod17 [1; 9; 15; 13]) (Some (Zmod.of_Z 17 13))) = Some u /\
    result (call_to_rev strict handler_mod17 u 2 (mod17 [1; 4; 2; 8]) None)
    = Some (mod17 [3; 1; 4; 1]).
Proof.
  apply (round_trip_back (Zmod 17) Zmod.zero Zmod.one Zmod.add Zmod.mul Zmod.sub
           Zmod.opp (Zmod.ring_theory 17) strict (mod17 [3; 1; 4; 1]) 2
           (mod17 [1; 4; 2; 8]) (mod17 [1; 9; 15; 13]) (Zmod.of_Z 17 13)).
  - unfold size_bits; lia.
  - reflexivity.
  - reflexivity.
  - reflexivity.
  - apply inverse_tables_mod17.
  - vm_compute. reflexivity.
Defined.

(** X3. Without a scalar the round trip multiplies by [n]: over a commutative
    ring, with root tables that belong together, [transform_to_rev] followed
    by [transform_from_rev], neither with a scalar, leaves every element
    multiplied by [2 ^ log_n]. *)
Theorem round_trip_unscaled (T : Type) (rO rI : T) (radd rmul rsub : T -> T -> T)
    (ropp : T -> T) (Rth : ring_theory rO rI radd rmul rsub ropp eq)
    (bad_shift : Z -> Z -> option Z) (vs : list T) (log_n : Z)
    (fwd inv : list T) :
  1 <= log_n < size_bits ->
  Z.of_nat (length vs) = 2 ^ log_n ->
  Z.of_nat (length fwd) = 2 ^ log_n ->
  Z.of_nat (length inv) = 2 ^ log_n ->
  inverse_tables T rI rmul log_n fwd inv ->
  exists u,
    result (call_to_rev bad_shift (ring_handler T radd rmul rsub) vs log_n fwd None)
    = Some u /\
    result (call_from_rev bad_shift (ring_handler T radd rmul rsub) u log_n inv None)
    = Some (rmul (two_pow T rI radd rmul (Z.to_nat log_n)) <$> vs).
Proof.
  intros Hn Hvs Hfwd Hinv Htab.
  exists (forward_at (ring_arithmetic T radd rmul rsub) fwd None log_n vs).
  split.
  - by rewrite run_to_rev by lia.
  - rewrite run_from_rev; [| lia | rewrite length_forward_at; lia | lia].
    simpl. f_equal.
    by apply (inverse_at_forward_at_unscaled T rO rI radd rmul rsub ropp Rth);
      try lia.
Qed.

Lemma round_trip_unscaled_witness :
  exists u,
    result (call_to_rev strict handler_mod17 (mod17 [3; 1; 4; 1]) 2
                        (mod17 [1; 4; 2; 8]) None) = Some u /\
    result (call_from_rev strict handler_mod17 u 2 (mod17 [1; 9; 15; 13]) None)
    = Some (Zmod.mul (two_pow (Zmod 17) Zmod.one Zmod.add Zmod.mul (Z.to_nat 2))
              <$> mod17 [3; 1; 4; 1]).
Proof.
  apply (round_trip_unscaled (Zmod 17) Zmod.zero Zmod.one Zmod.add Zmod.mul
           Zmod.sub Zmod.opp (Zmod.ring_theory 17) strict (mod17 [3; 1; 4; 1]) 2
           (mod17 [1; 4; 2; 8]) (mod17 [1; 9; 15; 13])).
  - unfold size_bits; lia.
  - reflexivity.
  - reflexivity.
  - reflexivity.
  - apply inverse_tables_mod17.
Defined.

(** X4. Over a commutative ring, with a forward table that is a tree of square
    roots, the inverse table that belongs to it and a scalar [s] with
    [n * s = 1], [transform_from_rev] with the scalar [s] interpolates: it
    leaves the coefficients of the polynomial whose value at [fwd[n/2 + i]] is
    what the buffer held at index [2i] and whose value at [-fwd[n/2 + i]] is
    what it held at index [2i + 1]. *)
Theorem from_rev_interpolates (T : Type) (rO rI : T) (radd rmul rsub : T -> T -> T)
    (ropp : T -> T) (Rth : ring_theory rO rI radd rmul rsub ropp eq)
    (bad_shift : Z -> Z -> option Z) (vs : list T) (log_n : Z)
    (fwd inv : list T) (s : T) :
  1 <= log_n < size_bits ->
  Z.of_nat (length vs) = 2 ^ log_n ->
  Z.of_nat (length fwd) = 2 ^ log_n ->
  Z.of_nat (length inv) = 2 ^ log_n ->
  inverse_tables T rI rmul log_n fwd inv ->
  square_root_tree T rmul ropp log_n fwd ->
  rmul (two_pow T rI radd rmul (Z.to_nat log_n)) s = rI ->
  exists w,
    result (call_from_rev bad_shift (ring_handler T radd rmul rsub) vs log_n inv
                          (Some s)) = Some w /\
    forall i, 0 <= i < 2 ^ (log_n - 1) ->
      exists r,
        fwd !! Z.to_nat (2 ^ (log_n - 1) + i) = Some r /\
        vs !! Z.to_nat (2 * i) = Some (horner T rO radd rmul w r) /\
        vs !! Z.to_nat (2 * i + 1) = Some (horner T rO radd rmul w (ropp r)).
Proof.
  intros Hn Hvs Hfwd Hinv Htab Htree Hs.
  exists (inverse_at (ring_arithmetic T radd rmul rsub) inv (Some s) log_n vs).
  split; [by rewrite run_from_rev by lia|].
  intros i Hi.
  destruct (forward_at_evaluates T rO rI radd rmul rsub ropp Rth fwd log_n
              (inverse_at (ring_arithmetic T radd rmul rsub) inv (Some s) log_n vs)
              ltac:(lia) ltac:(rewrite length_inverse_at; lia) ltac:(lia) Htree
              i Hi) as (r & Hr & H0 & H1).
  rewrite (forward_at_inverse_at T rO rI radd rmul rsub ropp Rth) in H0, H1
    by (done || lia).
  by exists r.
Qed.

Lemma from_rev_interpolates_witness :
  exists w,
    result (call_from_rev strict handler_mod17 (mod17 [12; 9; 14; 11]) 2
                          (mod17 [1; 9; 15; 13]) (Some (Zmod.of_Z 17 13)))
    = Some w /\
    forall i, 0 <= i < 2 ^ (2 - 1) ->
      exists r,
        mod17 [1; 4; 2; 8] !! Z.to_nat (2 ^ (2 - 1) + i) = Some r /\
        mod17 [12; 9; 14; 11] !! Z.to_nat (2 * i)
        = Some (horner (Zmod 17) Zmod.zero Zmod.add Zmod.mul w r) /\
        mod17 [12; 9; 14; 11] !! Z.to_nat (2 * i + 1)
        = Some (horner (Zmod 17) Zmod.zero Zmod.add Zmod.mul w (Zmod.opp r)).
Proof.
  apply (from_rev_interpolates (Zmod 17) Zmod.zero Zmod.one Zmod.add Zmod.mul
           Zmod.sub Zmod.opp (Zmod.ring_theory 17) strict (mod17 [12; 9; 14; 11]) 2
           (mod17 [1; 4; 2; 8]) (mod17 [1; 9; 15; 13]) (Zmod.of_Z 17 13)).
  - unfold size_bits; lia.
  - reflexivity.
  - reflexivity.
  - reflexivity.
  - apply inverse_tables_mod17.
  - apply square_root_tree_mod17.
  - vm_compute. reflexivity.
Defined.

(** ** Two runs side by side *)

Section RelatedRuns.
Context {V1 R1 S1 V2 R2 S2 : Type}.
Variable PV : V1 -> V2 -> Prop.
Variable PR : R1 -> R2 -> Prop.
Variable PS : S1 -> S2 -> Prop.
Variable a1 : Arithmetic V1 R1 S1.
Variable a2 : Arithmetic V2 R2 S2.
Hypothesis Hrel : related_strategies PV PR PS a1 a2.

Lemma update_pair_related op1 op2 gap (w1 : list V1) (w2 : list V2) j :
  related_pairs PV op1 op2 -> Forall2 PV w1 w2 ->
  Forall2 PV (update_pair op1 gap w1 j) (update_pair op2 gap w2 j).
Proof.
  intros Hop Hw. unfold update_pair.
  assert (Hl := proj1 (Forall2_lookup PV w1 w2) Hw).
  destruct (Hl (Z.to_nat j)) as [x1 x2 Hx|]; [|done].
  destruct (Hl (Z.to_nat (j + gap))) as [y1 y2 Hy|]; [|done].
  destruct (Hop x1 x2 y1 y2 Hx Hy) as [H1 H2].
  by repeat apply Forall2_insert.
Qed.

Lemma foldl_related {A B1 B2} (P : B1 -> B2 -> Prop) (f1 : B1 -> A -> B1)
    (f2 : B2 -> A -> B2) (ks : list A) (Q : A -> Prop) :
  Forall Q ks ->
  (forall k b1 b2, Q k -> P b1 b2 -> P (f1 b1 k) (f2 b2 k)) ->
  forall b1 b2, P b1 b2 -> P (foldl f1 b1 ks) (foldl f2 b2 ks).
Proof.
  intros Hks Hf. induction Hks as [|k ks Hk Hks IH]; intros b1 b2 Hb; simpl;
    [done|]. apply IH. by apply Hf.
Qed.

Lemma group_related op1 op2 log_n log_m i (w1 : list V1) (w2 : list V2) :
  related_pairs PV op1 op2 -> Forall2 PV w1 w2 ->
  Forall2 PV (group op1 log_n log_m i w1) (group op2 log_n log_m i w2).
Proof.
  intros Hop Hw. unfold group.
  apply (foldl_related (Forall2 PV) _ _ _ (fun _ => True)); [|auto|done].
  - apply Forall_forall. done.
  - intros k b1 b2 _ Hb. by apply update_pair_related.
Qed.

Lemma stage_at_related (op1 : R1 -> V1 -> V1 -> V1 * V1)
    (op2 : R2 -> V2 -> V2 -> V2 * V2) rs1 rs2 base stride log_n log_m
    (w1 : list V1) (w2 : list V2) :
  (forall r1 r2, PR r1 r2 -> related_pairs PV (op1 r1) (op2 r2)) ->
  (forall i, 0 <= i < 2 ^ log_m -> 
     option_Forall2 PR (rs1 !! Z.to_nat (base + stride * i))
                       (rs2 !! Z.to_nat (base + stride * i))) ->
  Forall2 PV w1 w2 ->
  Forall2 PV (stage_at op1 rs1 base stride log_n log_m w1)
             (stage_at op2 rs2 base stride log_n log_m w2).
Proof.
  intros Hop Hrs Hw. unfold stage_at.
  apply (foldl_related (Forall2 PV) _ _ _ (fun i => 0 <= i < 2 ^ log_m));
    [| |done].
  - rewrite Z.shiftl_1_l. apply Forall_seqZ. lia.
  - intros i b1 b2 Hi Hb. destruct (Hrs i Hi) as [r1 r2 Hr|]; [|done].
    apply group_related; [by apply Hop|done].
Qed.

Lemma forward_pair_related r1 r2 :
  PR r1 r2 -> related_pairs PV (forward_pair a1 r1) (forward_pair a2 r2).
Proof.
  destruct Hrel as (Hadd & Hsub & Hmr & Hms & Hmrs & Hg).
  intros Hr x1 x2 y1 y2 Hx Hy. unfold forward_pair. simpl. split; auto.
Qed.

Lemma inverse_pair_related r1 r2 :
  PR r1 r2 -> related_pairs PV (inverse_pair a1 r1) (inverse_pair a2 r2).
Proof.
  destruct Hrel as (Hadd & Hsub & Hmr & Hms & Hmrs & Hg).
  intros Hr x1 x2 y1 y2 Hx Hy. unfold inverse_pair. simpl. split; auto.
Qed.

Lemma last_forward_related sc1 sc2 r1 r2 :
  option_Forall2 PS sc1 sc2 -> PR r1 r2 ->
  related_pairs PV (last_forward a1 sc1 r1) (last_forward a2 sc2 r2).
Proof.
  intros [s1 s2 Hs|]; [|apply forward_pair_related].
  destruct Hrel as (Hadd & Hsub & Hmr & Hms & Hmrs & Hg).
  intros Hr x1 x2 y1 y2 Hx Hy. unfold last_forward, forward_pair_scaled.
  simpl. split; auto 6.
Qed.

Lemma last_inverse_related sc1 sc2 r1 r2 :
  option_Forall2 PS sc1 sc2 -> PR r1 r2 ->
  related_pairs PV (last_inverse a1 sc1 r1) (last_inverse a2 sc2 r2).
Proof.
  intros [s1 s2 Hs|]; [|apply inverse_pair_related].
  destruct Hrel as (Hadd & Hsub & Hmr & Hms & Hmrs & Hg).
  intros Hr x1 x2 y1 y2 Hx Hy. unfold last_inverse, inverse_pair_scaled.
  simpl. split; auto 8.
Qed.

Lemma related_tables_lookup n rs1 rs2 k :
  related_tables PR n rs1 rs2 -> 1 <= k < n ->
  option_Forall2 PR (rs1 !! Z.to_nat k) (rs2 !! Z.to_nat k).
Proof.
  intros Ht Hk. destruct (Ht k Hk) as (r1 & r2 & -> & -> & Hr). by constructor.
Qed.

Lemma forward_at_related rs1 rs2 sc1 sc2 log_n (w1 : list V1) (w2 : list V2) :
  1 <= log_n ->
  related_tables PR (2 ^ log_n) rs1 rs2 ->
  option_Forall2 PS sc1 sc2 ->
  Forall2 PV w1 w2 ->
  Forall2 PV (forward_at a1 rs1 sc1 log_n w1) (forward_at a2 rs2 sc2 log_n w2).
Proof.
  intros Hn Ht Hsc Hw. unfold forward_at.
  assert (Hp := pow2_succ (log_n - 1) ltac:(lia)).
  replace (log_n - 1 + 1) with log_n in Hp by lia.
  assert (Hpos : 0 < 2 ^ (log_n - 1)) by (apply Z.pow_pos_nonneg; lia).
  apply stage_at_related.
  - intros r1 r2 Hr. by apply last_forward_related.
  - intros i Hi. apply (related_tables_lookup (2 ^ log_n)); [done|lia].
  - apply (foldl_related (Forall2 PV) _ _ _ (fun t => 0 <= t < log_n - 1));
      [apply Forall_seqZ; lia| |done].
    intros t b1 b2 Hlt Hb. apply stage_at_related; [|
      |done].
    + intros r1 r2 Hr. by apply forward_pair_related.
    + intros i Hi. apply (related_tables_lookup (2 ^ log_n)); [done|].
      assert (Hle := pow2_le_mono (t + 1) (log_n - 1) ltac:(lia)).
      rewrite pow2_succ in Hle by lia. lia.
Qed.

Lemma inverse_at_related rs1 rs2 sc1 sc2 log_n (w1 : list V1) (w2 : list V2) :
  1 <= log_n ->
  related_tables PR (2 ^ log_n) rs1 rs2 ->
  option_Forall2 PS sc1 sc2 ->
  Forall2 PV w1 w2 ->
  Forall2 PV (inverse_at a1 rs1 sc1 log_n w1) (inverse_at a2 rs2 sc2 log_n w2).
Proof.
  intros Hn Ht Hsc Hw. unfold inverse_at.
  assert (Hp := pow2_succ (log_n - 1) ltac:(lia)).
  replace (log_n - 1 + 1) with log_n in Hp by lia.
  assert (Hpos : 0 < 2 ^ (log_n - 1)) by (apply Z.pow_pos_nonneg; lia).
  apply stage_at_related.
  - intros r1 r2 Hr. by apply last_inverse_related.
  - intros i Hi. apply (related_tables_lookup (2 ^ log_n)); [done|lia].
  - apply (foldl_related (Forall2 PV) _ _ _ (fun t => 1 <= t < log_n));
      [| |done].
    { apply Forall_forall. intros t Hin.
      rewrite elem_of_reverse, elem_of_seqZ in Hin. lia. }
    intros t b1 b2 Hlt Hb. apply stage_at_related; [| |done].
    + intros r1 r2 Hr. by apply inverse_pair_related.
    + intros i Hi. apply (related_tables_lookup (2 ^ log_n)); [done|].
      assert (Hle := pow2_le_mono (t + 1) log_n ltac:(lia)).
      assert (Hs := pow2_succ t ltac:(lia)).
      assert (0 < 2 ^ t) by (apply Z.pow_pos_nonneg; lia). lia.
Qed.

End RelatedRuns.

Lemma related_tables_length {R1 R2} (PR : R1 -> R2 -> Prop) log_n rs1 rs2 :
  1 <= log_n -> related_tables PR (2 ^ log_n) rs1 rs2 ->
  2 ^ log_n <= Z.of_nat (length rs1) /\ 2 ^ log_n <= Z.of_nat (length rs2).
Proof.
  intros Hn Ht.
  assert (Hle := pow2_le_mono 1 log_n ltac:(lia)). change (2 ^ 1) with 2 in Hle.
  destruct (Ht (2 ^ log_n - 1) ltac:(lia)) as (r1 & r2 & H1 & H2 & _).
  apply lookup_lt_Some in H1, H2. lia.
Qed.

Lemma related_tables_fmap {R1 R2} (g : R1 -> R2) log_n (rs : list R1) :
  1 <= log_n -> 2 ^ log_n <= Z.of_nat (length rs) ->
  related_tables (fun r r' => g r = r') (2 ^ log_n) rs (g <$> rs).
Proof.
  intros Hn Hrs k Hk.
  destruct (lookup_lt_is_Some_2 rs (Z.to_nat k) ltac:(lia)) as [r Hr].
  exists r, (g r). split; [done|]. split; [|done].
  by rewrite list_lookup_fmap, Hr.
Qed.

Lemma related_tables_refl {R} log_n (rs : list R) :
  1 <= log_n -> 2 ^ log_n <= Z.of_nat (length rs) ->
  related_tables eq (2 ^ log_n) rs rs.
Proof.
  intros Hn Hrs k Hk.
  destruct (lookup_lt_is_Some_2 rs (Z.to_nat k) ltac:(lia)) as [r Hr].
  by exists r, r.
Qed.

Lemma option_Forall2_fmap_graph {A B} (k : A -> B) (sc : option A) :
  option_Forall2 (fun s s' => k s = s') sc (k <$> sc).
Proof. destruct sc; by constructor. Qed.

Lemma option_Forall2_eq_refl {A} (sc : option A) : option_Forall2 eq sc sc.
Proof. destruct sc; by constructor. Qed.

Lemma Forall2_graph_fmap {A B} (f : A -> B) (l : list A) (k : list B) :
  Forall2 (fun x y => f x = y) l k -> k = f <$> l.
Proof.
  induction 1 as [|x y l k Hxy _ IH]; [done|]. rewrite fmap_cons. congruence.
Qed.

Lemma Forall2_fmap_graph {A B} (f : A -> B) (l : list A) :
  Forall2 (fun x y => f x = y) l (f <$> l).
Proof. induction l; constructor; done. Qed.

Lemma Forall2_zip_fst {A B} (l : list A) (k : list B) :
  length l = length k -> Forall2 (fun p x => p.1 = x) (zip l k) l.
Proof.
  revert k. induction l as [|x l IH]; intros [|y k] Hlen; simpl in *;
    try done; constructor; [done|]. apply IH. lia.
Qed.

Lemma Forall2_zip_snd {A B} (l : list A) (k : list B) :
  length l = length k -> Forall2 (fun p y => p.2 = y) (zip l k) k.
Proof.
  revert k. induction l as [|x l IH]; intros [|y k] Hlen; simpl in *;
    try done; constructor; [done|]. apply IH. lia.
Qed.

Lemma Forall2_zip_plus {A} (plus : A -> A -> A) (l k : list A) :
  Forall2 (fun p z => plus p.1 p.2 = z) (zip l k) (zip_with plus l k).
Proof.
  revert k. induction l as [|x l IH]; intros [|y k]; simpl; constructor;
    [done|apply IH].
Qed.

(** What a list of pairs is related to by its two projections and by
    [plus]. *)
Lemma Forall2_pairs_plus {A} (plus : A -> A -> A) (w : list (A * A))
    (u v z : list A) :
  Forall2 (fun p x => p.1 = x) w u ->
  Forall2 (fun p y => p.2 = y) w v ->
  Forall2 (fun p z => plus p.1 p.2 = z) w z ->
  z = zip_with plus u v.
Proof.
  intros Hu. revert v z. induction Hu as [|p x w u Hp Hu IH]; intros v z Hv Hz.
  - apply Forall2_nil_inv_l in Hz. by subst.
  - apply Forall2_cons_inv_l in Hv as (y & v' & Hy & Hv & ->).
    apply Forall2_cons_inv_l in Hz as (c & z' & Hc & Hz & ->).
    simpl. f_equal; [congruence|]. by apply IH.
Qed.

Section Additive.
Context {V R S : Type}.
Variable a : Arithmetic V R S.
Variable plus : V -> V -> V.
Hypothesis Hplus : additive a plus.

Lemma pair_arithmetic_fst :
  related_strategies (fun (p : V * V) x => p.1 = x) eq eq (pair_arithmetic a) a.
Proof. repeat split; simpl; intros; subst; done. Qed.

Lemma pair_arithmetic_snd :
  related_strategies (fun (p : V * V) y => p.2 = y) eq eq (pair_arithmetic a) a.
Proof. repeat split; simpl; intros; subst; done. Qed.

Lemma pair_arithmetic_plus :
  related_strategies (fun (p : V * V) z => plus p.1 p.2 = z) eq eq
                     (pair_arithmetic a) a.
Proof.
  destruct Hplus as (Hadd & Hsub & Hmr & Hms & Hg).
  repeat split; simpl; intros; subst; auto.
Qed.

Lemma forward_at_additive rs sc log_n (xs ys : list V) :
  1 <= log_n -> 2 ^ log_n <= Z.of_nat (length rs) ->
  length xs = length ys ->
  forward_at a rs sc log_n (zip_with plus xs ys)
  = zip_with plus (forward_at a rs sc log_n xs) (forward_at a rs sc log_n ys).
Proof.
  intros Hn Hrs Hlen.
  assert (Ht := related_tables_refl log_n rs Hn Hrs).
  assert (Hsc := option_Forall2_eq_refl sc).
  apply (Forall2_pairs_plus plus
           (forward_at (pair_arithmetic a) rs sc log_n (zip xs ys))).
  - eapply forward_at_related; [apply pair_arithmetic_fst|done..|].
    by apply Forall2_zip_fst.
  - eapply forward_at_related; [apply pair_arithmetic_snd|done..|].
    by apply Forall2_zip_snd.
  - eapply forward_at_related; [apply pair_arithmetic_plus|done..|].
    apply Forall2_zip_plus.
Qed.

Lemma inverse_at_additive rs sc log_n (xs ys : list V) :
  1 <= log_n -> 2 ^ log_n <= Z.of_nat (length rs) ->
  length xs = length ys ->
  inverse_at a rs sc log_n (zip_with plus xs ys)
  = zip_with plus (inverse_at a rs sc log_n xs) (inverse_at a rs sc log_n ys).
Proof.
  intros Hn Hrs Hlen.
  assert (Ht := related_tables_refl log_n rs Hn Hrs).
  assert (Hsc := option_Forall2_eq_refl sc).
  apply (Forall2_pairs_plus plus
           (inverse_at (pair_arithmetic a) rs sc log_n (zip xs ys))).
  - eapply inverse_at_related; [apply pair_arithmetic_fst|done..|].
    by apply Forall2_zip_fst.
  - eapply inverse_at_related; [apply pair_arithmetic_snd|done..|].
    by apply Forall2_zip_snd.
  - eapply inverse_at_related; [apply pair_arithmetic_plus|done..|].
    apply Forall2_zip_plus.
Qed.

End Additive.

Lemma congruent_add q x x' y y' :
  x mod q = x' mod q -> y mod q = y' mod q -> (x + y) mod q = (x' + y') mod q.
Proof. intros Hx Hy. by rewrite (Zplus_mod x), (Zplus_mod x'), Hx, Hy. Qed.

Lemma congruent_sub q x x' y y' :
  x mod q = x' mod q -> y mod q = y' mod q -> (x - y) mod q = (x' - y') mod q.
Proof. intros Hx Hy. by rewrite (Zminus_mod x), (Zminus_mod x'), Hx, Hy. Qed.

Lemma congruent_mul q x x' y y' :
  x mod q = x' mod q -> y mod q = y' mod q -> (x * y) mod q = (x' * y') mod q.
Proof. intros Hx Hy. by rewrite (Zmult_mod x), (Zmult_mod x'), Hx, Hy. Qed.

Lemma lazy_related_exact q :
  related_strategies (fun x y => x mod q = y mod q) eq eq
                     (lazy_arithmetic q) exact_arithmetic.
Proof.
  repeat split; simpl; intros; subst; try done.
  - by apply congruent_add.
  - by apply congruent_sub.
  - by apply congruent_mul.
  - by apply congruent_mul.
  - by rewrite Zmod_mod.
Qed.

Lemma lazy_guard_respects q :
  guard_respects (lazy_arithmetic q) (fun x y => x mod q = y mod q).
Proof.
  repeat split; simpl; intros.
  - by apply congruent_add.
  - by apply congruent_sub.
  - by apply congruent_mul.
  - by apply congruent_mul.
  - by rewrite Zmod_mod.
Qed.

Lemma of_Z_morphism :
  strategy_morphism (Zmod.of_Z 17) (Zmod.of_Z 17) (Zmod.of_Z 17) exact_arithmetic
                    (ring_arithmetic (Zmod 17) Zmod.add Zmod.mul Zmod.sub).
Proof.
  repeat split; simpl; intros.
  - apply Zmod.of_Z_add.
  - apply Zmod.of_Z_sub.
  - apply Zmod.of_Z_mul.
  - apply Zmod.of_Z_mul.
  - apply Zmod.of_Z_mul.
Qed.

Lemma exact_additive : additive exact_arithmetic Z.add.
Proof. repeat split; simpl; intros; lia. Qed.

(** X5. The kernel uses the values, the roots and the scalar through the six
    member functions only. Run with two strategies whose member functions take
    related arguments to related results, on buffers, root tables (at the
    indices [1, ..., n - 1]) and scalars that are related, both transforms
    complete in both runs and leave buffers that are related element by
    element. *)
Theorem transforms_related {V1 R1 S1 V2 R2 S2 : Type}
    (PV : V1 -> V2 -> Prop) (PR : R1 -> R2 -> Prop) (PS : S1 -> S2 -> Prop)
    (bad_shift1 bad_shift2 : Z -> Z -> option Z)
    (h1 : DWTHandler V1 R1 S1) (h2 : DWTHandler V2 R2 S2)
    (vs1 : list V1) (vs2 : list V2) (log_n : Z) (rs1 : list R1) (rs2 : list R2)
    (sc1 : option S1) (sc2 : option S2) :
  related_strategies PV PR PS (arithmetic_ h1) (arithmetic_ h2) ->
  1 <= log_n < size_bits ->
  2 ^ log_n <= Z.of_nat (length vs1) ->
  Forall2 PV vs1 vs2 ->
  related_tables PR (2 ^ log_n) rs1 rs2 ->
  option_Forall2 PS sc1 sc2 ->
  (exists u1 u2,
     result (call_to_rev bad_shift1 h1 vs1 log_n rs1 sc1) = Some u1 /\
     result (call_to_rev bad_shift2 h2 vs2 log_n rs2 sc2) = Some u2 /\
     Forall2 PV u1 u2) /\
  (exists u1 u2,
     result (call_from_rev bad_shift1 h1 vs1 log_n rs1 sc1) = Some u1 /\
     result (call_from_rev bad_shift2 h2 vs2 log_n rs2 sc2) = Some u2 /\
     Forall2 PV u1 u2).
Proof.
  intros Hrel Hn Hvs Hw Ht Hsc.
  destruct (related_tables_length PR log_n rs1 rs2 ltac:(lia) Ht) as [Hl1 Hl2].
  assert (Hlen := Forall2_length _ _ _ Hw).
  split.
  - do 2 eexists. rewrite !run_to_rev by lia. simpl.
    split; [done|]. split; [done|]. by apply (forward_at_related PV PR PS); try lia.
  - do 2 eexists. rewrite !run_from_rev by lia. simpl.
    split; [done|]. split; [done|]. by apply (inverse_at_related PV PR PS); try lia.
Qed.

Lemma transforms_related_witness :
  (exists u1 u2,
     result (call_to_rev strict (lazy_handler 17) [20; 35] 1 [0; 2] (Some 3))
     = Some u1 /\
     result (call_to_rev masking exact_handler [3; 1] 1 [5; 2] (Some 3)) = Some u2 /\
     Forall2 (fun x y => x mod 17 = y mod 17) u1 u2) /\
  (exists u1 u2,
     result (call_from_rev strict (lazy_handler 17) [20; 35] 1 [0; 2] (Some 3))
     = Some u1 /\
     result (call_from_rev masking exact_handler [3; 1] 1 [5; 2] (Some 3))
     = Some u2 /\
     Forall2 (fun x y => x mod 17 = y mod 17) u1 u2).
Proof.
  apply (transforms_related (fun x y => x mod 17 = y mod 17) eq eq strict masking
           (lazy_handler 17) exact_handler [20; 35] [3; 1] 1 [0; 2] [5; 2]
           (Some 3) (Some 3)).
  - apply lazy_related_exact.
  - unfold size_bits; lia.
  - simpl; lia.
  - repeat constructor.
  - intros k Hk. assert (k = 1) as -> by (simpl in Hk; lia). by exists 2, 2.
  - by constructor.
Defined.

(** X6. Maps [f], [g] and [k] of values, roots and scalars that commute with
    the six member functions commute with the transforms: the transform of the
    mapped buffer, with the mapped table and the mapped scalar, is the mapped
    transform of the buffer. *)
Theorem transforms_commute_with_morphism {V1 R1 S1 V2 R2 S2 : Type}
    (f : V1 -> V2) (g : R1 -> R2) (k : S1 -> S2)
    (bad_shift : Z -> Z -> option Z)
    (h1 : DWTHandler V1 R1 S1) (h2 : DWTHandler V2 R2 S2)
    (vs : list V1) (log_n : Z) (rs : list R1) (sc : option S1) :
  strategy_morphism f g k (arithmetic_ h1) (arithmetic_ h2) ->
  1 <= log_n < size_bits ->
  2 ^ log_n <= Z.of_nat (length vs) ->
  2 ^ log_n <= Z.of_nat (length rs) ->
  (exists u,
     result (call_to_rev bad_shift h1 vs log_n rs sc) = Some u /\
     result (call_to_rev bad_shift h2 (f <$> vs) log_n (g <$> rs) (k <$> sc))
     = Some (f <$> u)) /\
  (exists u,
     result (call_from_rev bad_shift h1 vs log_n rs sc) = Some u /\
     result (call_from_rev bad_shift h2 (f <$> vs) log_n (g <$> rs) (k <$> sc))
     = Some (f <$> u)).
Proof.
  intros (Hadd & Hsub & Hmr & Hms & Hmrs & Hg) Hn Hvs Hrs.
  assert (Hrel : related_strategies (fun x y => f x = y) (fun r r' => g r = r')
                   (fun s s' => k s = s') (arithmetic_ h1) (arithmetic_ h2)).
  { repeat split; intros; subst; auto. }
  split.
  - eexists. rewrite !run_to_rev by (rewrite ?length_fmap; lia). simpl.
    split; [done|]. f_equal. apply Forall2_graph_fmap.
    eapply forward_at_related; [exact Hrel|lia| | |].
    + by apply related_tables_fmap; [lia|].
    + apply option_Forall2_fmap_graph.
    + apply Forall2_fmap_graph.
  - eexists. rewrite !run_from_rev by (rewrite ?length_fmap; lia). simpl.
    split; [done|]. f_equal. apply Forall2_graph_fmap.
    eapply inverse_at_related; [exact Hrel|lia| | |].
    + by apply related_tables_fmap; [lia|].
    + apply option_Forall2_fmap_graph.
    + apply Forall2_fmap_graph.
Qed.

Lemma transforms_commute_with_morphism_witness :
  (exists u,
     result (call_to_rev strict exact_handler [3; 1; 4; 1] 2 [1; 4; 2; 8] (Some 13))
     = Some u /\
     result (call_to_rev strict handler_mod17 (Zmod.of_Z 17 <$> [3; 1; 4; 1]) 2
                         (Zmod.of_Z 17 <$> [1; 4; 2; 8]) (Zmod.of_Z 17 <$> Some 13))
     = Some (Zmod.of_Z 17 <$> u)) /\
  (exists u,
     result (call_from_rev strict exact_handler [3; 1; 4; 1] 2 [1; 4; 2; 8] (Some 13))
     = Some u /\
     result (call_from_rev strict handler_mod17 (Zmod.of_Z 17 <$> [3; 1; 4; 1]) 2
                           (Zmod.of_Z 17 <$> [1; 4; 2; 8]) (Zmod.of_Z 17 <$> Some 13))
     = Some (Zmod.of_Z 17 <$> u)).
Proof.
  apply (transforms_commute_with_morphism (Zmod.of_Z 17) (Zmod.of_Z 17)
           (Zmod.of_Z 17) strict exact_handler handler_mod17 [3; 1; 4; 1] 2
           [1; 4; 2; 8] (Some 13)).
  - apply of_Z_morphism.
  - unfold size_bits; lia.
  - simpl; lia.
  - simpl; lia.
Defined.

(** X7. Lazy reduction is sound. For a relation [E] on values that [add],
    [sub], [mul_root] and [mul_scalar] respect and in which [guard x] stays
    with [x], the buffer a transform leaves is related by [E], element by
    element, to the buffer it leaves when [guard] does nothing. *)
Theorem guard_keeps_classes {V R S : Type} (E : V -> V -> Prop)
    (bad_shift : Z -> Z -> option Z) (h : DWTHandler V R S)
    (vs : list V) (log_n : Z) (rs : list R) (sc : option S) :
  guard_respects (arithmetic_ h) E ->
  1 <= log_n < size_bits ->
  2 ^ log_n <= Z.of_nat (length vs) ->
  2 ^ log_n <= Z.of_nat (length rs) ->
  let h' := {| arithmetic_ := unguarded (arithmetic_ h) |} in
  (exists u u',
     result (call_to_rev bad_shift h vs log_n rs sc) = Some u /\
     result (call_to_rev bad_shift h' vs log_n rs sc) = Some u' /\
     Forall2 E u u') /\
  (exists u u',
     result (call_from_rev bad_shift h vs log_n rs sc) = Some u /\
     result (call_from_rev bad_shift h' vs log_n rs sc) = Some u' /\
     Forall2 E u u').
Proof.
  intros (Hrefl & Hadd & Hsub & Hmr & Hms & Hg) Hn Hvs Hrs h'.
  assert (Hrel : related_strategies E eq eq (arithmetic_ h) (arithmetic_ h')).
  { repeat split; simpl; intros; subst; auto. }
  assert (Hw : Forall2 E vs vs).
  { apply Forall2_lookup. intros i. destruct (vs !! i); by constructor. }
  split.
  - do 2 eexists. rewrite !run_to_rev by lia. simpl.
    split; [done|]. split; [done|].
    eapply forward_at_related; [exact Hrel|lia| | |done].
    + by apply related_tables_refl; [lia|].
    + apply option_Forall2_eq_refl.
  - do 2 eexists. rewrite !run_from_rev by lia. simpl.
    split; [done|]. split; [done|].
    eapply inverse_at_related; [exact Hrel|lia| | |done].
    + by apply related_tables_refl; [lia|].
    + apply option_Forall2_eq_refl.
Qed.

Lemma guard_keeps_classes_witness :
  (exists u u',
     result (call_to_rev strict (lazy_handler 17) [20; 35; 5; 1] 2 [0; 2; 3; 5] None)
     = Some u /\
     result (call_to_rev strict
               {| arithmetic_ := unguarded (arithmetic_ (lazy_handler 17)) |}
               [20; 35; 5; 1] 2 [0; 2; 3; 5] None) = Some u' /\
     Forall2 (fun x y => x mod 17 = y mod 17) u u') /\
  (exists u u',
     result (call_from_rev strict (lazy_handler 17) [20; 35; 5; 1] 2 [0; 2; 3; 5] None)
     = Some u /\
     result (call_from_rev strict
               {| arithmetic_ := unguarded (arithmetic_ (lazy_handler 17)) |}
               [20; 35; 5; 1] 2 [0; 2; 3; 5] None) = Some u' /\
     Forall2 (fun x y => x mod 17 = y mod 17) u u').
Proof.
  apply (guard_keeps_classes (fun x y => x mod 17 = y mod 17) strict
           (lazy_handler 17) [20; 35; 5; 1] 2 [0; 2; 3; 5] None).
  - apply lazy_guard_respects.
  - unfold size_bits; lia.
  - simpl; lia.
  - simpl; lia.
Defined.

(** X8. The buffer the transforms leave depends on the root table through its
    entries [1, ..., n - 1] only: not on [roots[0]], not on the entries from
    [n] on, and not on what the machine does with a shift whose count is out
    of range. *)
Theorem transforms_ignore_other_roots {V R S : Type}
    (bad_shift bad_shift' : Z -> Z -> option Z) (h : DWTHandler V R S)
    (vs : list V) (log_n : Z) (rs rs' : list R) (sc : option S) :
  1 <= log_n < size_bits ->
  2 ^ log_n <= Z.of_nat (length vs) ->
  2 ^ log_n <= Z.of_nat (length rs) ->
  2 ^ log_n <= Z.of_nat (length rs') ->
  (forall k : nat, 1 <= Z.of_nat k < 2 ^ log_n -> rs !! k = rs' !! k) ->
  result (call_to_rev bad_shift h vs log_n rs sc)
  = result (call_to_rev bad_shift' h vs log_n rs' sc) /\
  result (call_from_rev bad_shift h vs log_n rs sc)
  = result (call_from_rev bad_shift' h vs log_n rs' sc).
Proof.
  intros Hn Hvs Hrs Hrs' Hagree.
  assert (Hrel : related_strategies eq eq eq (arithmetic_ h) (arithmetic_ h)).
  { repeat split; intros; subst; auto. }
  assert (Ht : related_tables eq (2 ^ log_n) rs rs').
  { intros k Hk.
    destruct (lookup_lt_is_Some_2 rs (Z.to_nat k) ltac:(lia)) as [r Hr].
    exists r, r. split; [done|]. split; [|done].
    rewrite <- Hagree by lia. done. }
  assert (Hw : Forall2 eq vs vs) by by apply list_eq_Forall2.
  rewrite !run_to_rev, !run_from_rev by lia. simpl. split; f_equal.
  - apply list_eq_Forall2.
    eapply forward_at_related; [exact Hrel|lia|done| |done].
    apply option_Forall2_eq_refl.
  - apply list_eq_Forall2.
    eapply inverse_at_related; [exact Hrel|lia|done| |done].
    apply option_Forall2_eq_refl.
Qed.

Lemma transforms_ignore_other_roots_witness :
  result (call_to_rev strict exact_handler [1; 2; 3; 4] 2 [0; 2; 3; 5] (Some 2))
  = result (call_to_rev masking exact_handler [1; 2; 3; 4] 2 [9; 2; 3; 5; 7] (Some 2)) /\
  result (call_from_rev strict exact_handler [1; 2; 3; 4] 2 [0; 2; 3; 5] (Some 2))
  = result (call_from_rev masking exact_handler [1; 2; 3; 4] 2 [9; 2; 3; 5; 7] (Some 2)).
Proof.
  apply (transforms_ignore_other_roots strict masking exact_handler [1; 2; 3; 4] 2
           [0; 2; 3; 5] [9; 2; 3; 5; 7] (Some 2)).
  - unfold size_bits; lia.
  - simpl; lia.
  - simpl; lia.
  - simpl; lia.
  - intros k Hk. destruct k as [|[|[|[|k]]]]; simpl in *; try done; lia.
Defined.

(** X9. Both transforms are additive. For an operation [plus] on values over
    which [add], [sub], [mul_root], [mul_scalar] and [guard] distribute, the
    transform of the element-wise [plus] of two buffers is the element-wise
    [plus] of their transforms. *)
Theorem transforms_additive {V R S : Type} (plus : V -> V -> V)
    (bad_shift : Z -> Z -> option Z) (h : DWTHandler V R S)
    (xs ys : list V) (log_n : Z) (rs : list R) (sc : option S) :
  additive (arithmetic_ h) plus ->
  1 <= log_n < size_bits ->
  2 ^ log_n <= Z.of_nat (length xs) ->
  length xs = length ys ->
  2 ^ log_n <= Z.of_nat (length rs) ->
  (exists u v,
     result (call_to_rev bad_shift h xs log_n rs sc) = Some u /\
     result (call_to_rev bad_shift h ys log_n rs sc) = Some v /\
     result (call_to_rev bad_shift h (zip_with plus xs ys) log_n rs sc)
     = Some (zip_with plus u v)) /\
  (exists u v,
     result (call_from_rev bad_shift h xs log_n rs sc) = Some u /\
     result (call_from_rev bad_shift h ys log_n rs sc) = Some v /\
     result (call_from_rev bad_shift h (zip_with plus xs ys) log_n rs sc)
     = Some (zip_with plus u v)).
Proof.
  intros Hplus Hn Hxs Hlen Hrs.
  assert (Hz : length (zip_with plus xs ys) = length xs)
    by by apply length_zip_with_l_eq.
  split.
  - do 2 eexists. rewrite !run_to_rev by lia. simpl.
    split; [done|]. split; [done|]. f_equal.
    apply forward_at_additive; [done|lia|lia|done].
  - do 2 eexists. rewrite !run_from_rev by lia. simpl.
    split; [done|]. split; [done|]. f_equal.
    apply inverse_at_additive; [done|lia|lia|done].
Qed.

Lemma transforms_additive_witness :
  (exists u v,
     result (call_to_rev strict exact_handler [1; 2; 3; 4] 2 [0; 2; 3; 5] (Some 2))
     = Some u /\
     result (call_to_rev strict exact_handler [5; 6; 7; 8] 2 [0; 2; 3; 5] (Some 2))
     = Some v /\
     result (call_to_rev strict exact_handler
               (zip_with Z.add [1; 2; 3; 4] [5; 6; 7; 8]) 2 [0; 2; 3; 5] (Some 2))
     = Some (zip_with Z.add u v)) /\
  (exists u v,
     result (call_from_rev strict exact_handler [1; 2; 3; 4] 2 [0; 2; 3; 5] (Some 2))
     = Some u /\
     result (call_from_rev strict exact_handler [5; 6; 7; 8] 2 [0; 2; 3; 5] (Some 2))
     = Some v /\
     result (call_from_rev strict exact_handler
               (zip_with Z.add [1; 2; 3; 4] [5; 6; 7; 8]) 2 [0; 2; 3; 5] (Some 2))
     = Some (zip_with Z.add u v)).
Proof.
  apply (transforms_additive Z.add strict exact_handler [1; 2; 3; 4] [5; 6; 7; 8] 2
           [0; 2; 3; 5] (Some 2)).
  - apply exact_additive.
  - unfold size_bits; lia.
  - simpl; lia.
  - reflexivity.
  - simpl; lia.
Defined.

(** ** Without a scalar *)

(** X10. With a null scalar neither transform uses [mul_scalar] or
    [mul_root_scalar]: two strategies, over scalar types that may differ,
    whose [add], [sub], [mul_root] and [guard] agree leave the same buffer. *)
Theorem null_scalar_skips_scalar_operations {V R S1 S2 : Type}
    (bad_shift : Z -> Z -> option Z) (h1 : DWTHandler V R S1)
    (h2 : DWTHandler V R S2) (vs : list V) (log_n : Z) (rs : list R) :
  1 <= log_n < size_bits ->
  2 ^ log_n <= Z.of_nat (length vs) ->
  2 ^ log_n <= Z.of_nat (length rs) ->
  (forall x y, add (arithmetic_ h1) x y = add (arithmetic_ h2) x y) ->
  (forall x y, sub (arithmetic_ h1) x y = sub (arithmetic_ h2) x y) ->
  (forall x r, mul_root (arithmetic_ h1) x r = mul_root (arithmetic_ h2) x r) ->
  (forall x, guard (arithmetic_ h1) x = guard (arithmetic_ h2) x) ->
  result (call_to_rev bad_shift h1 vs log_n rs None)
  = result (call_to_rev bad_shift h2 vs log_n rs None) /\
  result (call_from_rev bad_shift h1 vs log_n rs None)
  = result (call_from_rev bad_shift h2 vs log_n rs None).
Proof.
  intros Hn Hvs Hrs Hadd Hsub Hmul Hguard.
  assert (Hrel : related_strategies eq eq (fun (_ : S1) (_ : S2) => False)
                   (arithmetic_ h1) (arithmetic_ h2)).
  { repeat split; intros; subst; try done; auto. }
  assert (Ht := related_tables_refl log_n rs ltac:(lia) Hrs).
  assert (Hw : Forall2 eq vs vs) by by apply list_eq_Forall2.
  rewrite !run_to_rev, !run_from_rev by lia. simpl. split; f_equal.
  - apply list_eq_Forall2.
    eapply forward_at_related; [exact Hrel|lia|done|constructor|done].
  - apply list_eq_Forall2.
    eapply inverse_at_related; [exact Hrel|lia|done|constructor|done].
Qed.

Lemma null_scalar_skips_scalar_operations_witness :
  result (call_to_rev strict exact_handler [1; 2; 3; 4] 2 [0; 2; 3; 5] None)
  = result (call_to_rev strict
              {| arithmetic_ :=
                   {| add := Z.add; sub := Z.sub; mul_root := Z.mul;
                      mul_scalar := fun (_ : Z) (_ : unit) => 0;
                      mul_root_scalar := fun (_ : Z) (_ : unit) => 0;
                      guard := fun x => x |} |}
              [1; 2; 3; 4] 2 [0; 2; 3; 5] None) /\
  result (call_from_rev strict exact_handler [1; 2; 3; 4] 2 [0; 2; 3; 5] None)
  = result (call_from_rev strict
              {| arithmetic_ :=
                   {| add := Z.add; sub := Z.sub; mul_root := Z.mul;
                      mul_scalar := fun (_ : Z) (_ : unit) => 0;
                      mul_root_scalar := fun (_ : Z) (_ : unit) => 0;
                      guard := fun x => x |} |}
              [1; 2; 3; 4] 2 [0; 2; 3; 5] None).
Proof.
  apply (null_scalar_skips_scalar_operations strict exact_handler
           {| arithmetic_ :=
                {| add := Z.add; sub := Z.sub; mul_root := Z.mul;
                   mul_scalar := fun (_ : Z) (_ : unit) => 0;
                   mul_root_scalar := fun (_ : Z) (_ : unit) => 0;
                   guard := fun x => x |} |}
           [1; 2; 3; 4] 2 [0; 2; 3; 5]).
  - unfold size_bits; lia.
  - simpl; lia.
  - simpl; lia.
  - reflexivity.
  - reflexivity.
  - reflexivity.
  - reflexivity.
Defined.

(** ** How often an element is read and written *)

Lemma occurrences_app e l k :
  occurrences e (l ++ k) = occurrences e l + occurrences e k.
Proof. unfold occurrences. rewrite filter_app, length_app. lia. Qed.

Lemma occurrences_nil e : occurrences e [] = 0.
Proof. done. Qed.

(** An access to the element [p]: its read or its write. *)
Lemma occurrences_pair e gap j p :
  e = Get p \/ e = Put p ->
  occurrences e (pair_accesses gap j)
  = (if decide (j = p) then 1 else 0) + (if decide (j + gap = p) then 1 else 0).
Proof.
  intros [-> | ->]; unfold occurrences, pair_accesses;
    rewrite !filter_cons, filter_nil;
    repeat case_decide; simplify_eq; simpl; try lia; exfalso; congruence.
Qed.

Lemma occurrences_group_prefix e p gap offset (t : nat) :
  e = Get p \/ e = Put p -> Z.of_nat t <= gap ->
  occurrences e (flat_map (pair_accesses gap) (seqZ offset (Z.of_nat t)))
  = if decide (offset <= p < offset + Z.of_nat t \/
               offset + gap <= p < offset + gap + Z.of_nat t)
    then 1 else 0.
Proof.
  intros He. induction t as [|t IH]; intros Ht.
  - rewrite seqZ_nil by lia. simpl. case_decide; [lia|done].
  - rewrite Nat2Z.inj_succ, <- Z.add_1_r, seqZ_snoc by lia.
    rewrite flat_map_app, occurrences_app, IH by lia. cbn [flat_map].
    rewrite app_nil_r, (occurrences_pair e gap _ p He).
    repeat case_decide; lia.
Qed.

Lemma occurrences_stage_prefix e p log_n log_m (k : nat) :
  e = Get p \/ e = Put p -> 0 <= log_m < log_n ->
  occurrences e (flat_map (group_accesses log_n log_m) (seqZ 0 (Z.of_nat k)))
  = if decide (0 <= p < Z.of_nat k * (2 * 2 ^ (log_n - log_m - 1))) then 1 else 0.
Proof.
  intros He Hm.
  destruct (pow2_split log_n log_m Hm) as (E1 & E2 & Hg & Hmpos).
  induction k as [|k IH].
  - rewrite seqZ_nil by lia. simpl. case_decide; [lia|done].
  - rewrite Nat2Z.inj_succ, <- Z.add_1_r, seqZ_snoc by lia.
    rewrite flat_map_app, occurrences_app, IH. cbn [flat_map]. rewrite app_nil_r.
    unfold group_accesses. rewrite Z.shiftl_1_l, Z.shiftl_mul_pow2 by lia.
    set (gap := 2 ^ (log_n - log_m - 1)) in *.
    assert (Hgroup := occurrences_group_prefix e p gap
                        ((0 + Z.of_nat k) * 2 ^ (log_n - log_m)) (Z.to_nat gap)
                        He ltac:(lia)).
    rewrite Z2Nat.id in Hgroup by lia. rewrite Hgroup, E1.
    repeat case_decide; nia.
Qed.

Lemma occurrences_stage e p log_n log_m :
  e = Get p \/ e = Put p -> 0 <= log_m < log_n -> 0 <= p < 2 ^ log_n ->
  occurrences e (stage_accesses log_n log_m) = 1.
Proof.
  intros He Hm Hp.
  destruct (pow2_split log_n log_m Hm) as (E1 & E2 & Hg & Hmpos).
  unfold stage_accesses. rewrite Z.shiftl_1_l.
  replace (2 ^ log_m) with (Z.of_nat (Z.to_nat (2 ^ log_m))) by lia.
  rewrite (occurrences_stage_prefix e p) by done.
  case_decide; [done|]. lia.
Qed.

Lemma occurrences_stages e p log_n (ks : list Z) :
  e = Get p \/ e = Put p -> 0 <= p < 2 ^ log_n ->
  Forall (fun t => 0 <= t < log_n) ks ->
  occurrences e (flat_map (stage_accesses log_n) ks) = Z.of_nat (length ks).
Proof.
  intros He Hp Hks. induction Hks as [|t ks Ht Hks IH]; [done|].
  cbn [flat_map]. rewrite occurrences_app, IH, (occurrences_stage e p) by done.
  simpl length. lia.
Qed.

(** X11. The sequence of accesses to the buffer and the sequence of reads of
    the root table depend on [log_n] only: two calls with the same [log_n]
    make the same accesses in the same order, whatever the strategies, the
    types, the contents of the buffers and of the tables, and the scalars. *)
Theorem access_pattern_is_data_independent {V1 R1 S1 V2 R2 S2 : Type}
    (bad_shift1 bad_shift2 : Z -> Z -> option Z)
    (h1 : DWTHandler V1 R1 S1) (h2 : DWTHandler V2 R2 S2)
    (vs1 : list V1) (vs2 : list V2) (log_n : Z) (rs1 : list R1) (rs2 : list R2)
    (sc1 : option S1) (sc2 : option S2) :
  1 <= log_n < size_bits ->
  2 ^ log_n <= Z.of_nat (length vs1) -> 2 ^ log_n <= Z.of_nat (length vs2) ->
  2 ^ log_n <= Z.of_nat (length rs1) -> 2 ^ log_n <= Z.of_nat (length rs2) ->
  (exists st1 st2,
     call_to_rev bad_shift1 h1 vs1 log_n rs1 sc1 = Done tt st1 /\
     call_to_rev bad_shift2 h2 vs2 log_n rs2 sc2 = Done tt st2 /\
     touched st1 = touched st2 /\ roots_read st1 = roots_read st2) /\
  (exists st1 st2,
     call_from_rev bad_shift1 h1 vs1 log_n rs1 sc1 = Done tt st1 /\
     call_from_rev bad_shift2 h2 vs2 log_n rs2 sc2 = Done tt st2 /\
     touched st1 = touched st2 /\ roots_read st1 = roots_read st2).
Proof.
  intros Hn Hvs1 Hvs2 Hrs1 Hrs2. split.
  - do 2 eexists. split; [by apply run_to_rev|]. split; [by apply run_to_rev|].
    done.
  - do 2 eexists. split; [by apply run_from_rev|]. split; [by apply run_from_rev|].
    done.
Qed.

Lemma access_pattern_is_data_independent_witness :
  (exists st1 st2,
     call_to_rev strict exact_handler [1; 2; 3; 4] 2 [0; 2; 3; 5] (Some 2)
     = Done tt st1 /\
     call_to_rev masking handler_mod17 (mod17 [3; 1; 4; 1; 5]) 2 (mod17 [1; 4; 2; 8])
                 None = Done tt st2 /\
     touched st1 = touched st2 /\ roots_read st1 = roots_read st2) /\
  (exists st1 st2,
     call_from_rev strict exact_handler [1; 2; 3; 4] 2 [0; 2; 3; 5] (Some 2)
     = Done tt st1 /\
     call_from_rev masking handler_mod17 (mod17 [3; 1; 4; 1; 5]) 2
                   (mod17 [1; 4; 2; 8]) None = Done tt st2 /\
     touched st1 = touched st2 /\ roots_read st1 = roots_read st2).
Proof.
  apply (access_pattern_is_data_independent strict masking exact_handler
           handler_mod17 [1; 2; 3; 4] (mod17 [3; 1; 4; 1; 5]) 2 [0; 2; 3; 5]
           (mod17 [1; 4; 2; 8]) (Some 2) None);
    [unfold size_bits; lia|simpl; lia..].
Defined.

(** X12. Both transforms read every element of the buffer below [n] exactly
    [log_n] times and write it exactly [log_n] times: once in each stage. *)
Theorem each_element_once_per_stage {V R S : Type} (bad_shift : Z -> Z -> option Z)
    (h : DWTHandler V R S) (vs : list V) (log_n : Z) (rs : list R)
    (sc : option S) (p : Z) :
  1 <= log_n < size_bits ->
  2 ^ log_n <= Z.of_nat (length vs) ->
  2 ^ log_n <= Z.of_nat (length rs) ->
  0 <= p < 2 ^ log_n ->
  (exists st, call_to_rev bad_shift h vs log_n rs sc = Done tt st /\
              occurrences (Get p) (touched st) = log_n /\
              occurrences (Put p) (touched st) = log_n) /\
  (exists st, call_from_rev bad_shift h vs log_n rs sc = Done tt st /\
              occurrences (Get p) (touched st) = log_n /\
              occurrences (Put p) (touched st) = log_n).
Proof.
  intros Hn Hvs Hrs Hp.
  assert (Hf : Forall (fun t => 0 <= t < log_n) (seqZ 0 log_n))
    by (apply Forall_seqZ; lia).
  assert (Hr : Forall (fun t => 0 <= t < log_n) (reverse (seqZ 0 log_n))).
  { apply Forall_forall. intros t Ht.
    rewrite elem_of_reverse, elem_of_seqZ in Ht. lia. }
  split.
  - eexists. split; [apply run_to_rev; lia|]. simpl. unfold forward_accesses.
    rewrite !(occurrences_stages _ p) by auto.
    rewrite length_seqZ. lia.
  - eexists. split; [apply run_from_rev; lia|]. simpl. unfold inverse_accesses.
    rewrite !(occurrences_stages _ p) by auto.
    rewrite length_reverse, length_seqZ. lia.
Qed.

Lemma each_element_once_per_stage_witness :
  (exists st,
     call_to_rev strict exact_handler [1; 2; 3; 4] 2 [0; 2; 3; 5] (Some 2) = Done tt st /\
     occurrences (Get 3) (touched st) = 2 /\
     occurrences (Put 3) (touched st) = 2) /\
  (exists st,
     call_from_rev strict exact_handler [1; 2; 3; 4] 2 [0; 2; 3; 5] (Some 2)
     = Done tt st /\
     occurrences (Get 3) (touched st) = 2 /\
     occurrences (Put 3) (touched st) = 2).
Proof.
  apply (each_element_once_per_stage strict exact_handler [1; 2; 3; 4] 2
           [0; 2; 3; 5] (Some 2) 3); [unfold size_bits; lia|simpl; lia..].
Defined.

(** ** The cursor of the inverse transform *)

(** Two bodies that agree on the memories a descending loop of the second
    goes through give the same loop. *)
Lemma for_down_agree {V R S} (I : Z -> memory V R S -> Prop) hi lo
    (body' body : Z -> M V R S unit) st :
  lo <= hi ->
  I hi st ->
  (forall k st, lo < k <= hi -> I k st ->
     exists st', body k st = Done tt st' /\ I (k - 1) st' /\
                 body' k st = body k st) ->
  for_down hi lo body' st = for_down hi lo body st.
Proof.
  intros Hle HI Hstep. unfold for_down.
  remember (Z.to_nat (hi - lo)) as n eqn:Hn.
  revert hi st Hle HI Hstep Hn.
  induction n as [|n IH]; intros hi st Hle HI Hstep Hn.
  - assert (hi = lo) as -> by lia. by rewrite seqZ_nil by lia.
  - replace (hi - lo) with ((hi - 1 - lo) + 1) by lia.
    rewrite seqZ_snoc by lia. rewrite reverse_snoc. simpl.
    replace (lo + 1 + (hi - 1 - lo)) with hi by lia.
    destruct (Hstep hi st ltac:(lia) HI) as (st1 & Hb & HI1 & Heq).
    unfold bind. rewrite Heq, Hb.
    apply IH; [lia|done| |lia].
    intros k st2 Hk. apply Hstep. lia.
Qed.

Section StageCursor.
Context {V R S : Type}.
Variable bad_shift : Z -> Z -> option Z.
Variable h : DWTHandler V R S.
Variable rs : list R.
Variable sc : option S.

Local Abbreviation St vs ri rr tl := (Memory vs rs sc h ri rr tl).
Local Abbreviation M := (M V R S).
Local Abbreviation a := (arithmetic_ h).

(** In a stage that starts with the cursor at [ri] the assertions on
    [ri + i] hold, if the cursor moves by one or the stage has one group. *)
Lemma run_stage_asserting_at (fetch : M R) stride f
    (butterfly : R -> Z -> Z -> M unit) op log_n log_m vs ri rr tl :
  fetches h rs sc fetch stride f ->
  implements h rs sc butterfly op ->
  stage_fits rs stride log_n log_m vs ri ->
  stride = 1 \/ log_m = 0 ->
  stage_asserting_at bad_shift ri log_n log_m fetch butterfly (St vs ri rr tl)
  = stage bad_shift log_n log_m fetch butterfly (St vs ri rr tl).
Proof.
  intros Hfetch Himpl Hfits Hone.
  assert (Hfits' := Hfits).
  destruct Hfits' as (Hm & Hn & Hlen & Hri & Hstride & Hri' & Hrs).
  destruct (pow2_split log_n log_m Hm) as (E1 & E2 & Hg & Hmpos).
  assert (Hnb := pow2_lt_size log_n ltac:(lia)).
  unfold stage_asserting_at, stage.
  rewrite !(bind_done _ _ _ _ _ (run_shl bad_shift Init_m 1 log_m _ ltac:(lia))).
  rewrite !(bind_done _ _ _ _ _
              (run_shl bad_shift Init_gap 1 (log_n - log_m - 1) _ ltac:(lia))).
  rewrite !Z.mul_1_l.
  rewrite (wrap_small (2 ^ log_m)) by nia.
  rewrite (wrap_small (2 ^ (log_n - log_m - 1))) by nia.
  apply (for_range_agree
    (fun k st => st = after_groups h rs sc (fun r => op (f r)) stride log_n log_m
                                   vs ri rr tl k)); [lia| |].
  - by rewrite after_groups_none.
  - intros k st Hk ->. eexists. split; [by eapply run_stage_group|].
    split; [done|].
    unfold bind at 1, assert_cursor, bind, get_root_index. simpl.
    assert (Hki : ri + stride * k = ri + k).
    { destruct Hone as [->| ->]; [lia|]. change (2 ^ 0) with 1 in Hk. lia. }
    rewrite wrap_small by lia.
    replace (ri + stride * k =? ri + k) with true; [done|].
    symmetry. apply Z.eqb_eq. lia.
Qed.

End StageCursor.

Section FromRevCursor.
Context {V R S : Type}.
Variable bad_shift : Z -> Z -> option Z.
Variable h : DWTHandler V R S.
Variable rs : list R.
Variable sc : option S.

Local Abbreviation St vs ri rr tl := (Memory vs rs sc h ri rr tl).
Local Abbreviation a := (arithmetic_ h).

Lemma run_from_rev_asserting log_n vs :
  1 <= log_n < size_bits ->
  2 ^ log_n <= Z.of_nat (length vs) ->
  2 ^ log_n <= Z.of_nat (length rs) ->
  call_from_rev_asserting bad_shift h vs log_n rs sc
  = call_from_rev bad_shift h vs log_n rs sc.
Proof.
  intros Hn Hvs Hrs.
  unfold call_from_rev_asserting, call_from_rev, call_memory,
    transform_from_rev_asserting, transform_from_rev.
  unfold bind at 1 4. unfold set_root_index at 1 2. simpl.
  set (F := fun vs log_m =>
              stage_at (inverse_pair a) rs (2 ^ log_n - 2 ^ (log_m + 1) + 1) 1
                       log_n log_m vs).
  set (rd := fun log_m =>
               (fun i => 2 ^ log_n - 2 ^ (log_m + 1) + 1 + i) <$> seqZ 0 (2 ^ log_m)).
  set (Inv := fun t (st : memory V R S) =>
     st = St (foldl F vs (reverse (seqZ (t + 1) (log_n - 1 - t))))
             (2 ^ log_n - 2 ^ (t + 1) + 1)
             (flat_map rd (reverse (seqZ (t + 1) (log_n - 1 - t))))
             (flat_map (stage_accesses log_n)
                       (reverse (seqZ (t + 1) (log_n - 1 - t))))).
  assert (Hnb := pow2_lt_size log_n ltac:(lia)).
  assert (Hstep : forall t st, 0 < t <= log_n - 1 -> Inv t st ->
            exists st',
              stage bad_shift log_n t next_root butterfly_from_rev st = Done tt st' /\
              Inv (t - 1) st' /\
              stage_asserting_at bad_shift (2 ^ log_n - 2 * 2 ^ t + 1) log_n t
                                 next_root butterfly_from_rev st
              = stage bad_shift log_n t next_root butterfly_from_rev st).
  { intros t st Ht ->.
    assert (Hle := pow2_le_mono (t + 1) log_n ltac:(lia)).
    assert (Hs := pow2_succ t ltac:(lia)).
    assert (Hpos : 0 < 2 ^ t) by (apply Z.pow_pos_nonneg; lia).
    assert (Hl : length (foldl F vs (reverse (seqZ (t + 1) (log_n - 1 - t))))
                 = length vs).
    { rewrite (length_foldl_preserving F); [done|].
      intros l b. apply length_stage_at. }
    eexists. split; [|split].
    - apply (run_stage bad_shift h rs sc _ 1 (fun r => r));
        [apply fetches_next_root|apply implements_from_rev|lia|lia| |lia|lia|lia
        |apply (roots_in_range rs log_n); lia].
      by rewrite Hl.
    - unfold Inv. replace (t - 1 + 1) with t by lia.
      replace (log_n - 1 - (t - 1)) with (Z.succ (log_n - 1 - t)) by lia.
      rewrite (seqZ_cons t) by lia.
      replace (Z.pred (Z.succ (log_n - 1 - t))) with (log_n - 1 - t) by lia.
      replace (Z.succ t) with (t + 1) by lia.
      rewrite reverse_cons, foldl_snoc, !flat_map_app. simpl.
      rewrite !app_nil_r, fmap_stride_one.
      f_equal. lia.
    - replace (2 ^ log_n - 2 * 2 ^ t + 1) with (2 ^ log_n - 2 ^ (t + 1) + 1) by lia.
      apply (run_stage_asserting_at bad_shift h rs sc _ 1 (fun r => r) _
               (inverse_pair a));
        [apply fetches_next_root|apply implements_from_rev| |by left].
      repeat split; try lia.
      apply (roots_in_range rs log_n); lia. }
  assert (Hinit : Inv (log_n - 1) (St vs 1 [] [])).
  { unfold Inv. rewrite seqZ_nil by lia. simpl.
    replace (log_n - 1 + 1) with log_n by lia. f_equal. lia. }
  assert (Hloop :
    for_down (log_n - 1) 0
      (fun log_m => stage_asserting_at bad_shift (2 ^ log_n - 2 * 2 ^ log_m + 1)
                      log_n log_m next_root butterfly_from_rev)
      (St vs 1 [] [])
    = for_down (log_n - 1) 0
        (fun log_m => stage bad_shift log_n log_m next_root butterfly_from_rev)
        (St vs 1 [] [])).
  { apply (for_down_agree Inv); [lia|done|]. intros t st Ht HI.
    destruct (Hstep t st Ht HI) as (st' & Hr & HI' & Heq). by exists st'. }
  unfold bind at 1 3. rewrite Hloop.
  destruct (for_down_inv Inv (log_n - 1) 0
    (fun log_m => stage bad_shift log_n log_m next_root butterfly_from_rev)
    (St vs 1 [] [])) as (st' & Hrun & HI); [lia|done| |].
  { intros t st Ht HI. destruct (Hstep t st Ht HI) as (st' & Hr & HI' & _).
    by exists st'. }
  rewrite Hrun. unfold bind, scalar_arg. rewrite HI. unfold Inv. simpl.
  set (w := foldl F vs _).
  assert (Hw : length w = length vs).
  { subst w. rewrite (length_foldl_preserving F); [done|].
    intros l b. apply length_stage_at. }
  assert (Hfits : stage_fits rs 0 log_n 0 w (2 ^ log_n - 2 * 2 ^ 0 + 1)).
  { repeat split; try lia; try (simpl; lia).
    intros i Hi. apply lookup_lt_is_Some_2. simpl. lia. }
  change (2 ^ (0 + 1)) with (2 * 2 ^ 0).
  destruct sc as [s|].
  - eapply (run_stage_asserting_at bad_shift h rs (Some s) _ 0
              (fun r => mul_root_scalar a r s));
      [apply fetches_scaled, fetches_current_root
      |apply implements_from_rev_scaled|done|by right].
  - eapply (run_stage_asserting_at bad_shift h rs None _ 0 (fun r => r));
      [apply fetches_current_root|apply implements_from_rev|done|by right].
Qed.

End FromRevCursor.

(** X13. In [transform_from_rev], with or without a scalar,
    [root_index = n - 2 * m + 1 + i] with [n = 2 ^ log_n] and [m = 2 ^ log_m]
    when group [i] of stage [log_m] reads its root, and [n - 1] at the one
    read of the last stage: with the assertion put before every read of a root
    the call runs as it does without, for a buffer and a table of at least [n]
    elements; the cursor values at the reads, in the order of the loops, are
    these; and the cursor ends at [n - 1]. *)
Theorem from_rev_cursor {V R S : Type} (bad_shift : Z -> Z -> option Z)
    (h : DWTHandler V R S) (vs : list V) (log_n : Z) (rs : list R)
    (sc : option S) :
  1 <= log_n < size_bits ->
  2 ^ log_n <= Z.of_nat (length vs) ->
  2 ^ log_n <= Z.of_nat (length rs) ->
  exists st,
    call_from_rev bad_shift h vs log_n rs sc = Done tt st /\
    call_from_rev_asserting bad_shift h vs log_n rs sc = Done tt st /\
    roots_read st
    = flat_map (fun log_m => (fun i => 2 ^ log_n - 2 * 2 ^ log_m + 1 + i)
                               <$> seqZ 0 (2 ^ log_m))
               (reverse (seqZ 0 log_n)) /\
    root_index st = 2 ^ log_n - 1.
Proof.
  intros Hn Hvs Hrs. eexists. split; [by apply run_from_rev|].
  split; [rewrite run_from_rev_asserting by done; by apply run_from_rev|].
  split; [|done]. simpl. unfold inverse_reads.
  assert (Hext : forall (f g : Z -> list Z) l,
            Forall (fun x => f x = g x) l -> flat_map f l = flat_map g l).
  { intros f g l. induction 1 as [|x l Hx _ IH]; [done|]. simpl. by rewrite Hx, IH. }
  apply Hext. apply Forall_forall. intros t Ht.
  apply elem_of_reverse, elem_of_seqZ in Ht.
  apply list_fmap_ext. intros _ i _. rewrite pow2_succ by lia. lia.
Qed.

Lemma from_rev_cursor_witness :
  exists st,
    call_from_rev strict exact_handler [1; 2; 3; 4; 5] 2 [0; 2; 3; 5] (Some 2)
    = Done tt st /\
    call_from_rev_asserting strict exact_handler [1; 2; 3; 4; 5] 2 [0; 2; 3; 5]
                            (Some 2)
    = Done tt st /\
    roots_read st
    = flat_map (fun log_m => (fun i => 2 ^ 2 - 2 * 2 ^ log_m + 1 + i)
                               <$> seqZ 0 (2 ^ log_m))
               (reverse (seqZ 0 2)) /\
    root_index st = 2 ^ 2 - 1.
Proof.
  apply (from_rev_cursor strict exact_handler [1; 2; 3; 4; 5] 2 [0; 2; 3; 5] (Some 2));
    [unfold size_bits; lia|simpl; lia|simpl; lia].
Defined.

(** A cursor one off is caught: the assertions are not vacuous. *)
Example stage_asserting_at_catches :
  stage_asserting_at strict 2 2 1 (next_root (V:=Z) (R:=Z) (S:=Z))
                     butterfly_from_rev
                     (Memory [1; 2; 3; 4] [0; 2; 3; 5] None exact_handler 1 [] [])
  = Undefined (CursorAssertion 2 0 1)
              (Memory [1; 2; 3; 4] [0; 2; 3; 5] None exact_handler 1 [] []).
Proof. reflexivity. Qed.

(** ** The sizes for which the transforms return *)

Lemma run_shl_strict {V R S : Type} site x k (st : memory V R S) :
  ~ (0 <= k < size_bits) ->
  shl strict site x k st = Undefined (ShiftCount site k) st.
Proof.
  intros Hk. unfold shl.
  replace ((0 <=? k) && (k <? size_bits)) with false; [done|].
  symmetry. apply andb_false_iff.
  destruct (decide (0 <= k)); [right; apply Z.ltb_ge|left; apply Z.leb_gt]; lia.
Qed.

Section OutOfRange.
Context {V R S : Type}.
Variable h : DWTHandler V R S.
Variable vs : list V.
Variable rs : list R.
Variable sc : option S.

Lemma to_rev_below log_n :
  log_n <= 0 ->
  call_to_rev strict h vs log_n rs sc
  = Undefined (ShiftCount Init_m (log_n - 1)) (Memory vs rs sc h 1 [] []).
Proof.
  intros Hn. unfold call_to_rev, transform_to_rev, call_memory, for_range.
  rewrite seqZ_nil by lia. unfold bind. simpl.
  destruct sc; unfold stage, bind; by rewrite run_shl_strict by lia.
Qed.

Lemma from_rev_below log_n :
  log_n <= 0 ->
  call_from_rev strict h vs log_n rs sc
  = Undefined (ShiftCount Init_gap (log_n - 0 - 1)) (Memory vs rs sc h 1 [] []).
Proof.
  intros Hn. unfold call_from_rev, transform_from_rev, call_memory, for_down.
  rewrite seqZ_nil by lia. unfold bind. simpl.
  destruct sc; unfold stage, bind; rewrite run_shl by (unfold size_bits; lia);
    by rewrite run_shl_strict by lia.
Qed.

Lemma to_rev_above log_n :
  size_bits < log_n ->
  call_to_rev strict h vs log_n rs sc
  = Undefined (ShiftCount Init_gap (log_n - 0 - 1)) (Memory vs rs sc h 1 [] []).
Proof.
  intros Hn. unfold size_bits in Hn.
  unfold call_to_rev, transform_to_rev, call_memory, for_range.
  rewrite seqZ_cons by lia. simpl. unfold bind at 1 2 3. simpl.
  unfold stage, bind. rewrite run_shl by (unfold size_bits; lia).
  by rewrite run_shl_strict by (unfold size_bits; lia).
Qed.

Lemma from_rev_above log_n :
  size_bits < log_n ->
  call_from_rev strict h vs log_n rs sc
  = Undefined (ShiftCount Init_m (log_n - 1)) (Memory vs rs sc h 1 [] []).
Proof.
  intros Hn. unfold size_bits in Hn.
  unfold call_from_rev, transform_from_rev, call_memory, for_down.
  rewrite (seqZ_last (0 + 1)) by lia. rewrite reverse_snoc. simpl.
  unfold bind at 1 2 3. simpl.
  replace (0 + 1 + (log_n - 1 - 0 - 1)) with (log_n - 1) by lia.
  unfold stage, bind.
  by rewrite run_shl_strict by (unfold size_bits; lia).
Qed.

(** With [log_n = 64] the shift that sets [offset] has the count 64, in
    the first group of the first stage of [transform_to_rev] and in the
    group of the last stage of [transform_from_rev]. *)
Lemma stage_group_sixty_four log_n log_m gap fetch butterfly i
    (st : memory V R S) :
  size_bits <= log_n - log_m ->
  result (stage_group strict log_n log_m gap fetch butterfly i st) = None.
Proof.
  intros Hm. unfold stage_group, bind.
  destruct (fetch st) as [r st'|u st']; [|done].
  by rewrite run_shl_strict by lia.
Qed.

Lemma stage_sixty_four log_n fetch butterfly (st : memory V R S) :
  log_n = size_bits ->
  result (stage strict log_n 0 fetch butterfly st) = None.
Proof.
  intros Hn. unfold stage, bind.
  rewrite !run_shl by (unfold size_bits in *; lia). unfold for_range.
  change (wrap (1 * 2 ^ 0) - 0) with 1. rewrite seqZ_one.
  cbn [for_each]. unfold bind.
  lazymatch goal with
  | |- context [stage_group strict ?n ?m ?g ?f ?b ?i ?st] =>
      assert (H := stage_group_sixty_four n m g f b i st ltac:(lia));
      destruct (stage_group strict n m g f b i st); [done|done]
  end.
Qed.

Lemma to_rev_sixty_four log_n :
  log_n = size_bits ->
  result (call_to_rev strict h vs log_n rs sc) = None.
Proof.
  intros Hn.
  unfold call_to_rev, transform_to_rev, call_memory, for_range.
  rewrite seqZ_cons by (unfold size_bits in *; lia). cbn [for_each].
  unfold bind at 1. unfold set_root_index at 1. unfold bind at 1 2.
  lazymatch goal with
  | |- context [stage strict ?n 0 ?f ?b ?st] =>
      assert (H := stage_sixty_four n f b st Hn);
      destruct (stage strict n 0 f b st); [done|done]
  end.
Qed.

Lemma from_rev_sixty_four log_n :
  log_n = size_bits ->
  result (call_from_rev strict h vs log_n rs sc) = None.
Proof.
  intros Hn.
  unfold call_from_rev, transform_from_rev, call_memory.
  unfold bind at 1. unfold set_root_index at 1. unfold bind at 1.
  destruct (for_down _ _ _ _) as [[] st|u st]; [|done].
  unfold bind, scalar_arg.
  destruct (scalar st); cbv zeta;
    lazymatch goal with
    | |- context [stage strict ?n 0 ?f ?b ?st] =>
        assert (H := stage_sixty_four n f b st Hn);
        destruct (stage strict n 0 f b st); [done|done]
    end.
Qed.

End OutOfRange.

(** X14. On the abstract machine neither transform returns when the [int]
    [log_n] is outside [1, 63]. For [log_n] above [INT_MIN], where [log_n - 1]
    does not overflow, and other than 64, the run stops at its first shift by
    [log_n - 1], before any access to the buffer or to the root table. *)
Theorem transforms_need_log_n_in_range {V R S : Type} (h : DWTHandler V R S)
    (vs : list V) (log_n : Z) (rs : list R) (sc : option S) :
  int_min < log_n <= int_max ->
  log_n <= 0 \/ size_bits <= log_n ->
  result (call_to_rev strict h vs log_n rs sc) = None /\
  result (call_from_rev strict h vs log_n rs sc) = None /\
  (log_n <> size_bits ->
   exists site site',
     call_to_rev strict h vs log_n rs sc
     = Undefined (ShiftCount site (log_n - 1)) (Memory vs rs sc h 1 [] []) /\
     call_from_rev strict h vs log_n rs sc
     = Undefined (ShiftCount site' (log_n - 1)) (Memory vs rs sc h 1 [] [])).
Proof.
  intros _ Hn.
  destruct (decide (log_n = size_bits)) as [Heq|Hne].
  - split; [by apply to_rev_sixty_four|]. split; [by apply from_rev_sixty_four|done].
  - destruct (decide (log_n <= 0)) as [Hlo|Hhi].
    + rewrite to_rev_below, from_rev_below by done.
      split; [done|]. split; [done|]. intros _. exists Init_m, Init_gap.
      split; [done|]. do 2 f_equal. lia.
    + rewrite to_rev_above, from_rev_above by lia.
      split; [done|]. split; [done|]. intros _. exists Init_gap, Init_m.
      split; [|done]. do 2 f_equal. lia.
Qed.

Lemma transforms_need_log_n_in_range_witness :
  result (call_to_rev strict exact_handler [1; 2; 3; 4] (-2) [0; 2; 3; 5] None) = None /\
  result (call_from_rev strict exact_handler [1; 2; 3; 4] (-2) [0; 2; 3; 5] None)
  = None /\
  (-2 <> size_bits ->
   exists site site',
     call_to_rev strict exact_handler [1; 2; 3; 4] (-2) [0; 2; 3; 5] None
     = Undefined (ShiftCount site (-2 - 1))
                 (Memory [1; 2; 3; 4] [0; 2; 3; 5] None exact_handler 1 [] []) /\
     call_from_rev strict exact_handler [1; 2; 3; 4] (-2) [0; 2; 3; 5] None
     = Undefined (ShiftCount site' (-2 - 1))
                 (Memory [1; 2; 3; 4] [0; 2; 3; 5] None exact_handler 1 [] [])).
Proof.
  apply (transforms_need_log_n_in_range exact_handler [1; 2; 3; 4] (-2)
           [0; 2; 3; 5] None); [unfold int_min, int_max, int_bits; lia|lia].
Defined.

(** ** Runs that stop *)

Section EnsuresRules.
Context {V R S : Type}.
Local Abbreviation M := (M V R S).
Local Abbreviation memory := (memory V R S).
Implicit Types (P : memory -> Prop) (E : undefined -> memory -> Prop).

Lemma ensures_bind {A B} P (m : M A) (f : A -> M B) Q Q' E :
  ensures P m Q E -> (forall x, ensures (Q x) (f x) Q' E) ->
  ensures P (bind m f) Q' E.
Proof.
  intros Hm Hf st HP. unfold bind. specialize (Hm st HP).
  destruct (m st) as [x st'|u st']; [|done]. by apply Hf.
Qed.

Lemma ensures_weaken {A} P P' (m : M A) (Q Q' : A -> memory -> Prop) E :
  ensures P m Q E -> (forall st, P' st -> P st) ->
  (forall x st, Q x st -> Q' x st) ->
  ensures P' m Q' E.
Proof.
  intros Hm HP HQ st HP'. specialize (Hm st (HP st HP')).
  destruct (m st); [by apply HQ|done].
Qed.

Lemma ensures_for_range (I : Z -> memory -> Prop) lo hi (body : Z -> M unit) E :
  lo <= hi ->
  (forall k, lo <= k < hi -> ensures (I k) (body k) (fun _ => I (k + 1)) E) ->
  ensures (I lo) (for_range lo hi body) (fun _ => I hi) E.
Proof.
  intros Hle Hstep. unfold for_range.
  remember (Z.to_nat (hi - lo)) as n eqn:Hn.
  revert lo Hle Hstep Hn.
  induction n as [|n IH]; intros lo Hle Hstep Hn st HI.
  - assert (hi = lo) as -> by lia. by rewrite seqZ_nil by lia.
  - rewrite seqZ_cons by lia. cbn [for_each]. unfold bind.
    assert (H1 := Hstep lo ltac:(lia) st HI).
    destruct (body lo st) as [[] st1|u st1]; [|done].
    replace (Z.pred (hi - lo)) with (hi - Z.succ lo) by lia.
    replace (Z.succ lo) with (lo + 1) by lia.
    apply IH; [lia| |lia|done].
    intros k Hk. apply Hstep. lia.
Qed.

Lemma ensures_for_down (I : Z -> memory -> Prop) hi lo (body : Z -> M unit) E :
  lo <= hi ->
  (forall k, lo < k <= hi -> ensures (I k) (body k) (fun _ => I (k - 1)) E) ->
  ensures (I hi) (for_down hi lo body) (fun _ => I lo) E.
Proof.
  intros Hle Hstep. unfold for_down.
  remember (Z.to_nat (hi - lo)) as n eqn:Hn.
  revert hi Hle Hstep Hn.
  induction n as [|n IH]; intros hi Hle Hstep Hn st HI.
  - assert (hi = lo) as -> by lia. by rewrite seqZ_nil by lia.
  - replace (hi - lo) with ((hi - 1 - lo) + 1) by lia.
    rewrite seqZ_snoc by lia. rewrite reverse_snoc. cbn [for_each].
    replace (lo + 1 + (hi - 1 - lo)) with hi by lia. unfold bind.
    assert (H1 := Hstep hi ltac:(lia) st HI).
    destruct (body hi st) as [[] st1|u st1]; [|done].
    apply IH; [lia| |lia|done].
    intros k Hk. apply Hstep. lia.
Qed.

End EnsuresRules.

(** ** A root table that is too short *)

Section ShortTable.
Context {V R S : Type}.
Variable bad_shift : Z -> Z -> option Z.
Variable h : DWTHandler V R S.
Variable rs : list R.
Variable sc : option S.
Variable len : nat.
Variable log_n : Z.
Hypothesis Hn : 1 <= log_n < size_bits.
Hypothesis Hlen : 2 ^ log_n <= Z.of_nat len.
Hypothesis Hrs : Z.of_nat (length rs) < 2 ^ log_n.

Local Abbreviation M := (M V R S).
Local Abbreviation memory := (memory V R S).

(** The first index outside the table that a cursor starting at 1
    reaches. *)
Local Abbreviation K := (Z.max 1 (Z.of_nat (length rs))).

(** The cursor is at [c], the reads so far were at [1, ..., c - 1] and
    inside the table. *)
Local Abbreviation at_cursor c :=
  (fun st : memory =>
     exists w tl, st = Memory w rs sc h c (seqZ 1 (c - 1)) tl /\
                  length w = len /\ 1 <= c <= K).

Local Abbreviation overrun :=
  (fun (u : undefined) (st : memory) =>
     u = RootsOutOfBounds K /\ roots_read st = seqZ 1 K).

Lemma K_below : K < 2 ^ log_n.
Proof.
  assert (Hle := pow2_le_mono 1 log_n ltac:(lia)). change (2 ^ 1) with 2 in Hle.
  lia.
Qed.

Lemma ensures_next_root c :
  ensures (at_cursor c) next_root (fun _ => at_cursor (c + 1)) overrun.
Proof.
  intros st (w & tl & -> & Hw & Hc).
  assert (HK := K_below). assert (Hnb := pow2_lt_size log_n ltac:(lia)).
  unfold next_root, bind, get_root_index, set_root_index, load_root. simpl.
  rewrite wrap_small by lia.
  assert (Hsnoc : seqZ 1 (c - 1) ++ [c] = seqZ 1 c).
  { rewrite (seqZ_last 1 c) by lia. do 2 f_equal. lia. }
  rewrite Hsnoc.
  destruct (rs !! Z.to_nat c) as [r|] eqn:Hr.
  - apply lookup_lt_Some in Hr. exists w, tl.
    replace (c + 1 - 1) with c by lia. split; [done|]. split; [done|]. lia.
  - apply lookup_ge_None in Hr. simpl.
    assert (c = K) as -> by lia. done.
Qed.

Lemma ensures_current_root c :
  Z.of_nat (length rs) <= c ->
  ensures (at_cursor c) current_root (fun _ _ => False) overrun.
Proof.
  intros Hge st (w & tl & -> & Hw & Hc).
  unfold current_root, bind, get_root_index, load_root. simpl.
  assert (Hsnoc : seqZ 1 (c - 1) ++ [c] = seqZ 1 c).
  { rewrite (seqZ_last 1 c) by lia. do 2 f_equal. lia. }
  rewrite Hsnoc.
  rewrite (lookup_ge_None_2 rs (Z.to_nat c)) by lia. simpl.
  assert (c = K) as -> by lia. done.
Qed.

Lemma ensures_scaled (P : memory -> Prop) (fetch : M R)
    (Q : memory -> Prop) s :
  ensures P fetch (fun _ => Q) overrun ->
  ensures P (scaled fetch s) (fun _ => Q) overrun.
Proof.
  intros Hf st HP. unfold scaled, bind, arithmetic, ret. specialize (Hf st HP).
  by destruct (fetch st).
Qed.

(** A group whose fetch moves the cursor from [c] to [c'] or stops. *)
Lemma ensures_stage_group (fetch : M R) (butterfly : R -> Z -> Z -> M unit) op
    log_m i c c' :
  implements h rs sc butterfly op ->
  ensures (at_cursor c) fetch (fun _ => at_cursor c') overrun ->
  0 <= log_m < log_n -> 0 <= i < 2 ^ log_m ->
  ensures (at_cursor c)
          (stage_group bad_shift log_n log_m (2 ^ (log_n - log_m - 1)) fetch
                       butterfly i)
          (fun _ => at_cursor c') overrun.
Proof.
  intros Himpl Hfetch Hm Hi st Hst.
  destruct (pow2_split log_n log_m Hm) as (E1 & E2 & Hg & Hmpos).
  assert (Hnb := pow2_lt_size log_n ltac:(lia)).
  unfold stage_group, bind. specialize (Hfetch st Hst).
  destruct (fetch st) as [r st1|u st1]; [|done].
  destruct Hfetch as (w & tl & -> & Hw & Hc).
  rewrite run_shl by lia.
  rewrite (wrap_small (i * 2 ^ (log_n - log_m))) by nia.
  rewrite (run_group h rs sc butterfly op);
    [|done|nia|lia|nia|nia].
  eexists _, _. split; [done|]. split; [|done].
  by rewrite length_foldl_update_pair.
Qed.

(** A stage whose fetch moves the cursor by one. *)
Lemma ensures_stage (fetch : M R) (butterfly : R -> Z -> Z -> M unit) op
    log_m c :
  implements h rs sc butterfly op ->
  (forall c, ensures (at_cursor c) fetch (fun _ => at_cursor (c + 1)) overrun) ->
  0 <= log_m < log_n ->
  ensures (at_cursor c) (stage bad_shift log_n log_m fetch butterfly)
          (fun _ => at_cursor (c + 2 ^ log_m)) overrun.
Proof.
  intros Himpl Hfetch Hm st Hst.
  destruct (pow2_split log_n log_m Hm) as (E1 & E2 & Hg & Hmpos).
  assert (Hnb := pow2_lt_size log_n ltac:(lia)).
  unfold stage, bind. rewrite !run_shl by lia.
  rewrite !Z.mul_1_l.
  rewrite (wrap_small (2 ^ log_m)) by nia.
  rewrite (wrap_small (2 ^ (log_n - log_m - 1))) by nia.
  apply (ensures_for_range (fun k => at_cursor (c + k))); [lia| |].
  - intros k Hk. rewrite Z.add_assoc.
    by apply (ensures_stage_group _ _ op).
  - by rewrite Z.add_0_r.
Qed.

(** The last stage of [transform_from_rev], entered with the cursor at or
    past the end of the table. *)
Lemma ensures_stage_current (fetch : M R) (butterfly : R -> Z -> Z -> M unit) op c :
  implements h rs sc butterfly op ->
  ensures (at_cursor c) fetch (fun _ _ => False) overrun ->
  ensures (at_cursor c) (stage bad_shift log_n 0 fetch butterfly)
          (fun _ _ => False) overrun.
Proof.
  intros Himpl Hfetch st Hst.
  assert (Hnb := pow2_lt_size log_n ltac:(lia)).
  unfold stage, bind. rewrite !run_shl by lia.
  change (wrap (1 * 2 ^ 0)) with 1. unfold for_range.
  change (1 - 0) with 1. rewrite seqZ_one. cbn [for_each].
  unfold bind at 1. unfold stage_group at 1. unfold bind at 1.
  specialize (Hfetch st Hst). by destruct (fetch st).
Qed.

Lemma to_rev_short_table vs :
  length vs = len ->
  exists st,
    call_to_rev bad_shift h vs log_n rs sc = Undefined (RootsOutOfBounds K) st /\
    roots_read st = seqZ 1 K.
Proof.
  intros Hvs.
  assert (HK := K_below).
  assert (Hrun : ensures (fun st => st = call_memory h vs rs sc)
                         (transform_to_rev bad_shift log_n)
                         (fun _ => at_cursor (2 ^ log_n)) overrun).
  { unfold transform_to_rev.
    apply (ensures_bind _ _ _ (fun _ => at_cursor (2 ^ 0))).
    { intros st ->. unfold set_root_index, call_memory. simpl.
      exists vs, []. split; [done|]. split; [done|]. lia. }
    intros _.
    apply (ensures_bind _ _ _ (fun _ => at_cursor (2 ^ (log_n - 1)))).
    { apply (ensures_for_range (fun t => at_cursor (2 ^ t))); [lia|].
      intros t Ht. rewrite pow2_succ by lia.
      replace (2 * 2 ^ t) with (2 ^ t + 2 ^ t) by lia.
      apply (ensures_stage _ _ (forward_pair (arithmetic_ h)));
        [apply implements_to_rev|apply ensures_next_root|lia]. }
    intros _.
    apply (ensures_bind _ _ _ (fun s st => s = sc /\ at_cursor (2 ^ (log_n - 1)) st)).
    { intros st (w & tl & -> & Hw). unfold scalar_arg. simpl.
      split; [done|]. by exists w, tl. }
    assert (Hp := pow2_succ (log_n - 1) ltac:(lia)).
    replace (log_n - 1 + 1) with log_n in Hp by lia.
    replace (2 ^ log_n) with (2 ^ (log_n - 1) + 2 ^ (log_n - 1)) by lia.
    intros s. eapply ensures_weaken with (P := at_cursor (2 ^ (log_n - 1)));
      [|by intros st [_ Hst]|by intros x st Hst; exact Hst].
    destruct s as [s|]; cbv zeta.
    - eapply ensures_stage;
        [apply implements_to_rev_scaled
        |intros c; apply ensures_scaled, ensures_next_root|lia].
    - eapply ensures_stage;
        [apply implements_to_rev|apply ensures_next_root|lia]. }
  specialize (Hrun _ eq_refl). unfold call_to_rev.
  destruct (transform_to_rev _ _ _) as [[] st|u st].
  - destruct Hrun as (w & tl & _ & _ & Hc). lia.
  - destruct Hrun as [-> Hread]. by exists st.
Qed.

Lemma from_rev_short_table vs :
  length vs = len ->
  exists st,
    call_from_rev bad_shift h vs log_n rs sc = Undefined (RootsOutOfBounds K) st /\
    roots_read st = seqZ 1 K.
Proof.
  intros Hvs.
  assert (HK := K_below).
  assert (Hrun : ensures (fun st => st = call_memory h vs rs sc)
                         (transform_from_rev bad_shift log_n)
                         (fun _ _ => False) overrun).
  { unfold transform_from_rev.
    apply (ensures_bind _ _ _
             (fun _ => at_cursor (2 ^ log_n - 2 ^ (log_n - 1 + 1) + 1))).
    { intros st ->. unfold set_root_index, call_memory. simpl.
      replace (log_n - 1 + 1) with log_n by lia.
      replace (2 ^ log_n - 2 ^ log_n + 1) with 1 by lia.
      exists vs, []. split; [done|]. split; [done|]. lia. }
    intros _.
    apply (ensures_bind _ _ _ (fun _ => at_cursor (2 ^ log_n - 2 ^ (0 + 1) + 1))).
    { apply (ensures_for_down (fun t => at_cursor (2 ^ log_n - 2 ^ (t + 1) + 1)));
        [lia|].
      intros t Ht. replace (t - 1 + 1) with t by lia.
      assert (Hs := pow2_succ t ltac:(lia)).
      replace (2 ^ log_n - 2 ^ t + 1)
        with (2 ^ log_n - 2 ^ (t + 1) + 1 + 2 ^ t) by lia.
      apply (ensures_stage _ _ (inverse_pair (arithmetic_ h)));
        [apply implements_from_rev|apply ensures_next_root|lia]. }
    intros _. change (2 ^ (0 + 1)) with 2.
    apply (ensures_bind _ _ _
             (fun s st => s = sc /\ at_cursor (2 ^ log_n - 2 + 1) st)).
    { intros st (w & tl & -> & Hw). unfold scalar_arg. simpl.
      split; [done|]. by exists w, tl. }
    intros s. eapply ensures_weaken with (P := at_cursor (2 ^ log_n - 2 + 1));
      [|by intros st [_ Hst]|by intros x st Hst; exact Hst].
    destruct s as [s|]; cbv zeta.
    - eapply ensures_stage_current;
        [apply implements_from_rev_scaled
        |apply ensures_scaled, ensures_current_root; lia].
    - eapply ensures_stage_current;
        [apply implements_from_rev|apply ensures_current_root; lia]. }
  specialize (Hrun _ eq_refl). unfold call_from_rev.
  destruct (transform_from_rev _ _ _) as [[] st|u st]; [done|].
  destruct Hrun as [-> Hread]. by exists st.
Qed.

End ShortTable.

(** X15. With a root table of fewer than [n] entries both transforms read past
    its end: the reads are at [1, 2, ...] in turn, so the first read outside
    the table is at the index that is the length of the table (at 1 for an
    empty table), and the run stops there. *)
Theorem short_root_table {V R S : Type} (bad_shift : Z -> Z -> option Z)
    (h : DWTHandler V R S) (vs : list V) (log_n : Z) (rs : list R)
    (sc : option S) :
  1 <= log_n < size_bits ->
  2 ^ log_n <= Z.of_nat (length vs) ->
  Z.of_nat (length rs) < 2 ^ log_n ->
  let k := Z.max 1 (Z.of_nat (length rs)) in
  (exists st,
     call_to_rev bad_shift h vs log_n rs sc = Undefined (RootsOutOfBounds k) st /\
     roots_read st = seqZ 1 k) /\
  (exists st,
     call_from_rev bad_shift h vs log_n rs sc = Undefined (RootsOutOfBounds k) st /\
     roots_read st = seqZ 1 k).
Proof.
  intros Hn Hvs Hrs k. split.
  - by apply (to_rev_short_table bad_shift h rs sc (length vs) log_n).
  - by apply (from_rev_short_table bad_shift h rs sc (length vs) log_n).
Qed.

Lemma short_root_table_witness :
  (exists st,
     call_to_rev strict exact_handler [1; 2; 3; 4] 2 [0; 2; 3] (Some 2)
     = Undefined (RootsOutOfBounds (Z.max 1 (Z.of_nat (length [0; 2; 3])))) st /\
     roots_read st = seqZ 1 (Z.max 1 (Z.of_nat (length [0; 2; 3])))) /\
  (exists st,
     call_from_rev strict exact_handler [1; 2; 3; 4] 2 [0; 2; 3] (Some 2)
     = Undefined (RootsOutOfBounds (Z.max 1 (Z.of_nat (length [0; 2; 3])))) st /\
     roots_read st = seqZ 1 (Z.max 1 (Z.of_nat (length [0; 2; 3])))).
Proof.
  apply (short_root_table strict exact_handler [1; 2; 3; 4] 2 [0; 2; 3] (Some 2));
    [unfold size_bits; lia|simpl; lia..].
Defined.

(** ** A buffer that is too short *)

Section ShortBuffer.
Context {V R S : Type}.
Variable bad_shift : Z -> Z -> option Z.
Variable h : DWTHandler V R S.
Variable rs : list R.
Variable sc : option S.
Variable len : Z.
Variable log_n : Z.
Hypothesis Hn : 1 <= log_n < size_bits.
Hypothesis Hlen : 0 <= len < 2 ^ log_n.
Hypothesis Hrs : 2 ^ log_n <= Z.of_nat (length rs).

Local Abbreviation M := (M V R S).
Local Abbreviation memory := (memory V R S).

(** The cursor is at [c]; the buffer has [len] elements. *)
Local Abbreviation framed c :=
  (fun st : memory =>
     roots st = rs /\ scalar st = sc /\ this st = h /\ root_index st = c /\
     Z.of_nat (length (values st)) = len).

(** A butterfly that reads [values[j]], then [values[j + gap]], and writes
    nothing before it has read both. *)
Local Abbreviation reads_pair_first butterfly :=
  (forall r gap j c, 0 <= j -> 0 <= gap -> j + gap < 2 ^ size_bits ->
     ensures (framed c) (butterfly r gap j)
             (fun _ st => framed c st /\ j + gap < len)
             (fun u _ => len <= j /\ u = ValuesOutOfBounds j \/
                         j < len <= j + gap /\ u = ValuesOutOfBounds (j + gap))).

(** A fetch that finds its root and moves the cursor by [stride]. *)
Local Abbreviation finds_root fetch stride :=
  (forall c, 0 <= c < 2 ^ log_n ->
     ensures (framed c) fetch (fun _ => framed (c + stride)) (fun _ _ => False)).

Ltac read_pair :=
  intros r gap j c Hj Hgap Hlt [vs0 rs0 sc0 h0 ri rr tl] (Hr & Hs & Ht & Hc & Hl);
  simpl in Hr, Hs, Ht, Hc, Hl; subst rs0 sc0 h0 ri;
  unfold bind, arithmetic, load_value, store_value; simpl;
  rewrite (wrap_small (j + gap)) by lia;
  destruct (vs0 !! Z.to_nat j) as [x|] eqn:Hx; simpl;
  [|apply lookup_ge_None in Hx; left; split; [lia|done]];
  assert (Hxl := lookup_lt_Some _ _ _ Hx);
  destruct (vs0 !! Z.to_nat (j + gap)) as [y|] eqn:Hy; simpl;
  [|apply lookup_ge_None in Hy; right; split; [lia|done]];
  assert (Hyl := lookup_lt_Some _ _ _ Hy);
  rewrite Hx; simpl;
  lazymatch goal with
  | |- context [<[Z.to_nat j := ?v]> vs0 !! Z.to_nat (j + gap)] =>
      destruct (lookup_lt_is_Some_2 (<[Z.to_nat j := v]> vs0)
                  (Z.to_nat (j + gap))) as [z Hz];
      [rewrite length_insert; lia|rewrite Hz]
  end;
  simpl; rewrite !length_insert; repeat split; try done; lia.

Lemma reads_pair_first_to_rev : reads_pair_first butterfly_to_rev.
Proof. unfold butterfly_to_rev. read_pair. Qed.

Lemma reads_pair_first_to_rev_scaled s :
  reads_pair_first (butterfly_to_rev_scaled s).
Proof. unfold butterfly_to_rev_scaled. read_pair. Qed.

Lemma reads_pair_first_from_rev : reads_pair_first butterfly_from_rev.
Proof. unfold butterfly_from_rev. read_pair. Qed.

Lemma reads_pair_first_from_rev_scaled s :
  reads_pair_first (butterfly_from_rev_scaled s).
Proof. unfold butterfly_from_rev_scaled. read_pair. Qed.

Lemma finds_root_next : finds_root next_root 1.
Proof.
  intros c Hc [vs0 rs0 sc0 h0 ri rr tl] (Hr & Hs & Ht & Hci & Hl).
  simpl in Hr, Hs, Ht, Hci, Hl. subst rs0 sc0 h0 ri.
  assert (Hnb := pow2_lt_size log_n ltac:(lia)).
  unfold next_root, bind, get_root_index, set_root_index, load_root. simpl.
  rewrite wrap_small by lia.
  destruct (lookup_lt_is_Some_2 rs (Z.to_nat c) ltac:(lia)) as [r ->].
  done.
Qed.

Lemma finds_root_current : finds_root current_root 0.
Proof.
  intros c Hc [vs0 rs0 sc0 h0 ri rr tl] (Hr & Hs & Ht & Hci & Hl).
  simpl in Hr, Hs, Ht, Hci, Hl. subst rs0 sc0 h0 ri.
  unfold current_root, bind, get_root_index, load_root. simpl.
  destruct (lookup_lt_is_Some_2 rs (Z.to_nat c) ltac:(lia)) as [r ->].
  rewrite Z.add_0_r. done.
Qed.

Lemma finds_root_scaled fetch stride s :
  finds_root fetch stride -> finds_root (scaled fetch s) stride.
Proof.
  intros Hf c Hc st Hst. unfold scaled, bind, arithmetic, ret.
  specialize (Hf c Hc st Hst). by destruct (fetch st).
Qed.

(** Stage 0 of [transform_to_rev]: one group, whose pairs are [n / 2]
    apart. *)
Lemma to_rev_first_stage (fetch : M R) (butterfly : R -> Z -> Z -> M unit)
    stride log_m :
  log_m = 0 -> 0 <= stride <= 1 ->
  finds_root fetch stride -> reads_pair_first butterfly ->
  ensures (framed 1) (stage bad_shift log_n log_m fetch butterfly)
          (fun _ _ => False)
          (fun u _ => u = ValuesOutOfBounds
                            (if decide (len = 0) then 0
                             else Z.max len (2 ^ (log_n - 1)))).
Proof.
  intros -> Hstride Hfetch Hpair st Hst.
  assert (Hnb := pow2_lt_size log_n ltac:(lia)).
  assert (Hp := pow2_succ (log_n - 1) ltac:(lia)).
  replace (log_n - 1 + 1) with log_n in Hp by lia.
  assert (Hg : 0 < 2 ^ (log_n - 1)) by (apply Z.pow_pos_nonneg; lia).
  unfold stage, bind. rewrite !run_shl by lia.
  change (wrap (1 * 2 ^ 0)) with 1. unfold for_range at 1.
  change (1 - 0) with 1. rewrite seqZ_one. cbn [for_each].
  unfold bind at 1. unfold stage_group at 1. unfold bind at 1.
  specialize (Hfetch 1 ltac:(lia) st Hst).
  destruct (fetch st) as [r st1|u st1]; [|done].
  unfold bind at 1. rewrite run_shl by lia.
  rewrite Z.mul_0_l, Z.mul_1_l. change (wrap 0) with 0.
  replace (log_n - 0 - 1) with (log_n - 1) by lia.
  rewrite (wrap_small (2 ^ (log_n - 1))) by lia.
  rewrite Z.add_0_l, (wrap_small (2 ^ (log_n - 1))) by lia.
  assert (Hloop :=
    ensures_for_range
      (fun j st => framed (1 + stride) st /\
                   (j = 0 \/ j - 1 + 2 ^ (log_n - 1) < len))
      0 (2 ^ (log_n - 1)) (butterfly r (2 ^ (log_n - 1)))
      (fun u _ => u = ValuesOutOfBounds
                        (if decide (len = 0) then 0
                         else Z.max len (2 ^ (log_n - 1))))
      ltac:(lia)).
  cbv beta in Hloop. specialize (Hloop) as Hloop'.
  lapply Hloop'; clear Hloop Hloop'.
  - intros Hloop. specialize (Hloop st1 (conj Hfetch (or_introl eq_refl))).
    destruct (for_range _ _ _ st1) as [[] st2|u st2]; [|done].
    destruct Hloop as [_ [Hz|Hz]]; lia.
  - intros j Hj st' [Hf Hprev].
    specialize (Hpair r (2 ^ (log_n - 1)) j (1 + stride) ltac:(lia) ltac:(lia)
                      ltac:(lia) st' Hf).
    destruct (butterfly r (2 ^ (log_n - 1)) j st') as [[] st2|u st2].
    + destruct Hpair as [Hf2 Hin]. split; [done|]. right. lia.
    + case_decide; destruct Hpair as [[Hle ->]|[Hle ->]]; f_equal; lia.
Qed.

(** The first stage of [transform_from_rev]: [n / 2] groups of one pair of
    neighbours. *)
Lemma from_rev_first_stage (fetch : M R) (butterfly : R -> Z -> Z -> M unit)
    stride log_m :
  log_m = log_n - 1 -> 0 <= stride <= 1 ->
  finds_root fetch stride -> reads_pair_first butterfly ->
  ensures (framed 1) (stage bad_shift log_n log_m fetch butterfly)
          (fun _ _ => False) (fun u _ => u = ValuesOutOfBounds len).
Proof.
  intros -> Hstride Hfetch Hpair st Hst.
  assert (Hnb := pow2_lt_size log_n ltac:(lia)).
  assert (Hp := pow2_succ (log_n - 1) ltac:(lia)).
  replace (log_n - 1 + 1) with log_n in Hp by lia.
  assert (Hg : 0 < 2 ^ (log_n - 1)) by (apply Z.pow_pos_nonneg; lia).
  unfold stage, bind. rewrite !run_shl by lia.
  replace (log_n - (log_n - 1) - 1) with 0 by lia.
  change (wrap (1 * 2 ^ 0)) with 1.
  rewrite Z.mul_1_l, (wrap_small (2 ^ (log_n - 1))) by lia.
  assert (Hloop :=
    ensures_for_range
      (fun i st => framed (1 + stride * i) st /\ 2 * i <= len)
      0 (2 ^ (log_n - 1))
      (stage_group bad_shift log_n (log_n - 1) 1 fetch butterfly)
      (fun u _ => u = ValuesOutOfBounds len) ltac:(lia)).
  cbv beta in Hloop. lapply Hloop; clear Hloop.
  - intros Hloop. rewrite Z.mul_0_r, Z.add_0_r in Hloop.
    assert (H0 : 2 * 0 <= len) by lia.
    specialize (Hloop st (conj Hst H0)).
    destruct (for_range _ _ _ st) as [[] st2|u st2]; [|done].
    destruct Hloop as [_ Hz]. lia.
  - intros i Hi st' [Hf Hprev]. unfold stage_group, bind.
    specialize (Hfetch (1 + stride * i) ltac:(nia) st' Hf).
    destruct (fetch st') as [r st1|u st1]; [|done].
    rewrite run_shl by lia.
    replace (log_n - (log_n - 1)) with 1 by lia. change (2 ^ 1) with 2.
    rewrite (wrap_small (i * 2)) by lia.
    rewrite (wrap_small (i * 2 + 1)) by lia.
    unfold for_range. replace (i * 2 + 1 - i * 2) with 1 by lia.
    rewrite seqZ_one. cbn [for_each]. unfold bind.
    specialize (Hpair r 1 (i * 2) (1 + stride * i + stride) ltac:(lia) ltac:(lia)
                      ltac:(lia) st1 Hfetch).
    destruct (butterfly r 1 (i * 2) st1) as [[] st2|u st2].
    + destruct Hpair as [Hf2 Hin]. unfold ret. split; [|lia].
      replace (1 + stride * (i + 1)) with (1 + stride * i + stride) by lia. done.
    + destruct Hpair as [[Hle ->]|[Hle ->]]; f_equal; lia.
Qed.

Lemma ensures_cases (P : memory -> Prop) (f : S -> M unit) (g : M unit)
    (Q : unit -> memory -> Prop) (E : undefined -> memory -> Prop) (o : option S) :
  (forall s, ensures P (f s) Q E) -> ensures P g Q E ->
  ensures P (match o with Some s => f s | None => g end) Q E.
Proof. intros Hf Hg. by destruct o. Qed.

Lemma ensures_first (P : memory -> Prop) (body : Z -> M unit) k ks
    (E : undefined -> memory -> Prop) :
  ensures P (body k) (fun _ _ => False) E ->
  ensures P (for_each (k :: ks) body) (fun _ _ => False) E.
Proof.
  intros Hb. cbn [for_each]. eapply ensures_bind; [exact Hb|]. by intros _ st.
Qed.

Lemma framed_call (vs : list V) (E : undefined -> memory -> Prop) :
  Z.of_nat (length vs) = len ->
  ensures (fun st => st = call_memory h vs rs sc) (set_root_index 1)
          (fun _ => framed 1) E.
Proof. by intros Hvs st ->. Qed.

Lemma to_rev_short_buffer (vs : list V) :
  Z.of_nat (length vs) = len ->
  stops_with (call_to_rev bad_shift h vs log_n rs sc)
             (ValuesOutOfBounds (if decide (len = 0) then 0
                                 else Z.max len (2 ^ (log_n - 1)))).
Proof.
  intros Hvs.
  set (E := fun (u : undefined) (_ : memory) =>
              u = ValuesOutOfBounds (if decide (len = 0) then 0
                                     else Z.max len (2 ^ (log_n - 1)))).
  assert (Hrun : ensures (fun st => st = call_memory h vs rs sc)
                         (transform_to_rev bad_shift log_n)
                         (fun _ _ => False) E).
  { unfold transform_to_rev.
    apply (ensures_bind _ _ _ (fun _ => framed 1)).
    { by apply framed_call. }
    intros _. destruct (decide (log_n = 1)) as [H1|H1].
    - unfold for_range. rewrite seqZ_nil by lia. cbn [for_each].
      assert (HA := fun s =>
        to_rev_first_stage (scaled next_root s) (butterfly_to_rev_scaled s) 1
          (log_n - 1) ltac:(lia) ltac:(lia)
          (finds_root_scaled _ _ s finds_root_next)
          (reads_pair_first_to_rev_scaled s)).
      assert (HB :=
        to_rev_first_stage next_root butterfly_to_rev 1
          (log_n - 1) ltac:(lia) ltac:(lia) finds_root_next
          reads_pair_first_to_rev).
      intros st Hst. unfold bind, ret, scalar_arg.
      assert (Hs : scalar st = sc) by apply Hst. rewrite Hs.
      by apply (ensures_cases (framed 1) _ _ _ _ sc HA HB).
    - apply (ensures_bind _ _ _ (fun _ _ => False)); [|intros x st []].
      unfold for_range. rewrite seqZ_cons by lia. apply ensures_first.
      apply (to_rev_first_stage _ _ 1);
        [done|lia|apply finds_root_next|apply reads_pair_first_to_rev]. }
  specialize (Hrun _ eq_refl). unfold call_to_rev, stops_with.
  by destruct (transform_to_rev _ _ _).
Qed.

Lemma from_rev_short_buffer (vs : list V) :
  Z.of_nat (length vs) = len ->
  stops_with (call_from_rev bad_shift h vs log_n rs sc) (ValuesOutOfBounds len).
Proof.
  intros Hvs.
  set (E := fun (u : undefined) (_ : memory) => u = ValuesOutOfBounds len).
  assert (Hrun : ensures (fun st => st = call_memory h vs rs sc)
                         (transform_from_rev bad_shift log_n)
                         (fun _ _ => False) E).
  { unfold transform_from_rev.
    apply (ensures_bind _ _ _ (fun _ => framed 1)).
    { by apply framed_call. }
    intros _. destruct (decide (log_n = 1)) as [H1|H1].
    - unfold for_down. rewrite seqZ_nil by lia. rewrite reverse_nil.
      cbn [for_each].
      assert (HA := fun s =>
        from_rev_first_stage (scaled current_root s) (butterfly_from_rev_scaled s)
          0 0 ltac:(lia) ltac:(lia)
          (finds_root_scaled _ _ s finds_root_current)
          (reads_pair_first_from_rev_scaled s)).
      assert (HB :=
        from_rev_first_stage current_root butterfly_from_rev 0 0
          ltac:(lia) ltac:(lia) finds_root_current reads_pair_first_from_rev).
      intros st Hst. unfold bind, ret, scalar_arg.
      assert (Hs : scalar st = sc) by apply Hst. rewrite Hs.
      by apply (ensures_cases (framed 1) _ _ _ _ sc HA HB).
    - apply (ensures_bind _ _ _ (fun _ _ => False)); [|intros x st []].
      unfold for_down. rewrite (seqZ_last (0 + 1)) by lia.
      rewrite reverse_snoc. apply ensures_first.
      apply (from_rev_first_stage _ _ 1);
        [lia|lia|apply finds_root_next|apply reads_pair_first_from_rev]. }
  specialize (Hrun _ eq_refl). unfold call_from_rev, stops_with.
  by destruct (transform_from_rev _ _ _).
Qed.

End ShortBuffer.

(** X16. With a buffer of fewer than [n] elements both transforms access the
    buffer outside its bounds and do not return. The first stage of
    [transform_from_rev] goes through the buffer pair by pair, so its first
    access outside is at the index that is the length of the buffer. The first
    stage of [transform_to_rev] pairs [j] with [j + n / 2]: its first access
    outside is at 0 for an empty buffer, at [n / 2] for a buffer of at most
    [n / 2] elements, and at the length of the buffer otherwise. *)
Theorem short_buffer {V R S : Type} (bad_shift : Z -> Z -> option Z)
    (h : DWTHandler V R S) (vs : list V) (log_n : Z) (rs : list R)
    (sc : option S) :
  1 <= log_n < size_bits ->
  Z.of_nat (length vs) < 2 ^ log_n ->
  2 ^ log_n <= Z.of_nat (length rs) ->
  stops_with (call_to_rev bad_shift h vs log_n rs sc)
             (ValuesOutOfBounds
                (if decide (Z.of_nat (length vs) = 0) then 0
                 else Z.max (Z.of_nat (length vs)) (2 ^ (log_n - 1)))) /\
  stops_with (call_from_rev bad_shift h vs log_n rs sc)
             (ValuesOutOfBounds (Z.of_nat (length vs))).
Proof.
  intros Hn Hvs Hrs. split.
  - apply (to_rev_short_buffer bad_shift h rs sc (Z.of_nat (length vs)) log_n);
      (done || lia).
  - apply (from_rev_short_buffer bad_shift h rs sc (Z.of_nat (length vs)) log_n);
      (done || lia).
Qed.

Lemma short_buffer_witness :
  stops_with (call_to_rev strict exact_handler [1; 2; 3] 2 [0; 2; 3; 5] (Some 2))
             (ValuesOutOfBounds
                (if decide (Z.of_nat (length [1; 2; 3]) = 0) then 0
                 else Z.max (Z.of_nat (length [1; 2; 3])) (2 ^ (2 - 1)))) /\
  stops_with (call_from_rev strict exact_handler [1; 2; 3] 2 [0; 2; 3; 5] (Some 2))
             (ValuesOutOfBounds (Z.of_nat (length [1; 2; 3]))).
Proof.
  apply (short_buffer strict exact_handler [1; 2; 3] 2 [0; 2; 3; 5] (Some 2));
    [unfold size_bits; lia|simpl; lia..].
Defined.

Example to_rev_short_buffer_half :
  call_to_rev strict exact_handler [1; 2] 2 [0; 2; 3; 5] None
  = Undefined (ValuesOutOfBounds 2)
              (Memory [1; 2] [0; 2; 3; 5] None exact_handler 2 [1] [Get 0; Get 2]).
Proof. reflexivity. Qed.

Example from_rev_short_buffer_odd :
  call_from_rev strict exact_handler [1; 2; 3] 2 [0; 2; 3; 5] None
  = Undefined (ValuesOutOfBounds 3)
              (Memory [3; -2; 3] [0; 2; 3; 5] None exact_handler 3 [1; 2]
                      [Get 0; Get 1; Put 0; Put 1; Get 2; Get 3]).
Proof. reflexivity. Qed.
